(** * H.264 RTP payload format of aiortc: packetizer, depacketizer, scanner

    A shallow embedding of [src/aiortc/codecs/h264.py] and the properties of
    its Annex B scanner, FU-A fragmenter, STAP-A aggregator, packetizer
    driver and payload descriptor parser.

    Conventions of the embedding:
    - a Python [bytes] object is a [list N]; every element of a real [bytes]
      is below 256, which is the predicate [wf_bytes] where a proof needs it;
    - indices and lengths that the code only ever increments are [nat];
      integers that the code subtracts from ([available_size],
      [payload_size]) are [Z];
    - a Python exception is the [Raise] outcome of the [result] monad; a loop
      is a [Fixpoint] on a fuel argument, and [OutOfFuel] (for a generator,
      [Running]) is the outcome of a loop that was still going when the fuel
      ended.  The theorems state [Ok], [Raise] and [Returned] outcomes, which
      are outcomes of the Python code; a loop of the Python code that never
      ends is one that is [Running] for every fuel;
    - [bytes([x])] is written [[x]]: the values that the code builds this
      way are below 256 when the bytes it read are. *)

From Stdlib Require Import List NArith ZArith Bool Arith Lia.
Import ListNotations.

Set Implicit Arguments.

(** ** Python runtime fragments *)

Definition bytes := list N.

Definition wf_bytes (b : bytes) : Prop := Forall (fun x => (x < 256)%N) b.

Inductive value_error : Type :=
| NalTooShort                       (* "NAL unit is too short" *)
| StapLengthTruncated               (* "STAP-A length field is truncated" *)
| StapDataTruncated                 (* "STAP-A data is truncated" *)
| NalTypeUnsupported (nal_type : N) (* "NAL unit type {nal_type} is not supported" *).

Inductive exn : Type :=
| IndexError
| StructError
| ZeroDivisionError
| AssertionError
| ValueError (msg : value_error).

Inductive result (A : Type) : Type :=
| Ok (a : A)
| Raise (e : exn)
| OutOfFuel.

Arguments Ok {A} a.
Arguments Raise {A} e.
Arguments OutOfFuel {A}.

Definition bind {A B : Type} (c : result A) (k : A -> result B) : result B :=
  match c with
  | Ok a => k a
  | Raise e => Raise e
  | OutOfFuel => OutOfFuel
  end.

Notation "x <- c ;; k" := (bind c (fun x => k))
  (at level 61, c at next level, right associativity).

(** [buf[i]] for a non-negative index. *)
Definition getitem (buf : bytes) (i : nat) : result N :=
  match nth_error buf i with
  | Some b => Ok b
  | None => Raise IndexError
  end.

(** [buf[a:b]] for non-negative bounds: the elements of index [a <= k < b]
    that exist. *)
Definition slice (buf : bytes) (a b : nat) : bytes :=
  firstn (b - a) (skipn a buf).

(** [data[a:]]. *)
Definition slice_from (buf : bytes) (a : nat) : bytes := skipn a buf.

(** [struct.pack("!H", n)]: two bytes, big-endian ([struct.error] above
    65535). *)
Definition pack_H (n : nat) : result bytes :=
  let v := N.of_nat n in
  if (v <? 65536)%N
  then Ok [v / 256; v mod 256]%N
  else Raise StructError.

(** [struct.unpack_from("!H", data, pos)[0]]. *)
Definition unpack_from_H (data : bytes) (pos : nat) : result nat :=
  match skipn pos data with
  | hi :: lo :: _ => Ok (256 * N.to_nat hi + N.to_nat lo)
  | _ => Raise StructError
  end.

(** [itertools]-based [pairwise]: [zip(a, b)] with [b] one step ahead. *)
Definition pairwise {T : Type} (l : list T) : list (T * T) :=
  combine l (tl l).

(** ** Constants *)

Definition PACKET_MAX : nat := 1300.
Definition NAL_TYPE_FU_A : N := 28.
Definition NAL_TYPE_STAP_A : N := 24.
Definition NAL_HEADER_SIZE : nat := 1.
Definition FU_A_HEADER_SIZE : nat := 2.
Definition LENGTH_FIELD_SIZE : nat := 2.
Definition STAP_A_HEADER_SIZE : nat := NAL_HEADER_SIZE + LENGTH_FIELD_SIZE.

Definition START_CODE : bytes := [0; 0; 0; 1]%N.

(** ** H264PayloadDescriptor.parse *)

Module H264PayloadDescriptor.

(** The [while pos < len(data)] loop of the STAP-A branch; it returns the
    list [offsets]. *)
Fixpoint stap_a_offsets (fuel : nat) (data : bytes) (pos : nat)
    (offsets : list nat) : result (list nat) :=
  if pos <? length data then
    match fuel with
    | O => OutOfFuel
    | S fuel' =>
        if length data <? pos + LENGTH_FIELD_SIZE
        then Raise (ValueError StapLengthTruncated)
        else
          nulu_size <- unpack_from_H data pos ;;
          let pos := pos + LENGTH_FIELD_SIZE in
          let offsets := offsets ++ [pos] in
          let pos := pos + nulu_size in
          if length data <? pos
          then Raise (ValueError StapDataTruncated)
          else stap_a_offsets fuel' data pos offsets
    end
  else Ok offsets.

(** The [for start, end in pairwise(offsets)] loop. *)
Definition stap_a_output (data : bytes) (offsets : list nat) : bytes :=
  fold_left
    (fun output '(start, end_) =>
       let end_ := end_ - LENGTH_FIELD_SIZE in
       (output ++ START_CODE) ++ slice data start end_)
    (pairwise offsets) [].

(** [parse] returns the pair [(first_fragment, output)]. *)
Definition parse (data : bytes) : result (bool * bytes) :=
  if length data <? 2 then Raise (ValueError NalTooShort) else
  d0 <- getitem data 0 ;;
  let nal_type := N.land d0 0x1F in
  let f_nri := N.land d0 (N.lor 0x80 0x60) in
  let pos := NAL_HEADER_SIZE in
  if (1 <=? nal_type)%N && (nal_type <? 24)%N then
    Ok (true, START_CODE ++ data)
  else if (nal_type =? NAL_TYPE_FU_A)%N then
    d1 <- getitem data pos ;;
    let original_nal_type := N.land d1 0x1F in
    let first_fragment := negb (N.land d1 0x80 =? 0)%N in
    let pos := pos + 1 in
    let output :=
      if first_fragment
      then START_CODE ++ [N.lor f_nri original_nal_type]
      else [] in
    Ok (first_fragment, output ++ slice_from data pos)
  else if (nal_type =? NAL_TYPE_STAP_A)%N then
    offsets <- stap_a_offsets (length data) data pos [] ;;
    let offsets := offsets ++ [length data + LENGTH_FIELD_SIZE] in
    Ok (true, stap_a_output data offsets)
  else Raise (ValueError (NalTypeUnsupported nal_type)).

End H264PayloadDescriptor.

(** [h264_depayload]. *)
Definition h264_depayload (payload : bytes) : result bytes :=
  r <- H264PayloadDescriptor.parse payload ;;
  Ok (snd r).

(** ** H264Encoder: FU-A fragmenter, STAP-A aggregator, scanner, driver *)

(** [math.ceil(a / b)] for a positive [b].  The source divides in double
    precision; the quotient of a length by 1298 is rounded to an integer
    only for lengths above 2^43 * 1298, which no buffer reaches, so the
    ceiling is taken on the exact quotient. *)
Definition ceil_div (a b : Z) : Z := (- ((- a) / b))%Z.

(** Index normalisation of a slice bound: a negative bound counts from the
    end, and every bound is clipped to the buffer. *)
Definition slice_bound (len i : Z) : nat :=
  Z.to_nat (if (i <? 0)%Z then Z.max 0 (len + i) else Z.min i len).

(** [buf[a:b]] for integer bounds. *)
Definition sliceZ (buf : bytes) (a b : Z) : bytes :=
  let len := Z.of_nat (length buf) in
  slice buf (slice_bound len a) (slice_bound len b).

(** [next(packages_iterator)]: the iterator over the remaining NAL units is
    the list of those not yet taken; [None] is [StopIteration]. *)
Definition next {T : Type} (it : list T) : option (T * list T) :=
  match it with
  | [] => None
  | x :: it' => Some (x, it')
  end.

(** The outcome of running a generator to its end: the values it yielded, in
    order, and how it stopped. *)
Inductive gen_end : Type :=
| Returned
| Raised (e : exn)
| Running.

Definition generated : Type := (list bytes * gen_end)%type.

Definition yield (v : bytes) (rest : generated) : generated :=
  (v :: fst rest, snd rest).

Module Scanner.

(** [a and b] on conditions that may raise: [b] is evaluated only when [a]
    is true. *)
Definition and_then (a b : result bool) : result bool :=
  x <- a ;; if x then b else Ok false.

(** [buf[i] != 0 or buf[i + 1] != 0 or buf[i + 2] != x], left to right. *)
Definition differs3 (buf : bytes) (i : nat) (x : N) : result bool :=
  b0 <- getitem buf i ;;
  if negb (b0 =? 0)%N then Ok true else
  b1 <- getitem buf (i + 1) ;;
  if negb (b1 =? 0)%N then Ok true else
  b2 <- getitem buf (i + 2) ;;
  Ok (negb (b2 =? x)%N).

(** [buf[i] != 0 or buf[i + 1] != 0 or buf[i + 2] != 0 or buf[i + 3] != 1]. *)
Definition differs4 (buf : bytes) (i : nat) : result bool :=
  b0 <- getitem buf i ;;
  if negb (b0 =? 0)%N then Ok true else
  b1 <- getitem buf (i + 1) ;;
  if negb (b1 =? 0)%N then Ok true else
  b2 <- getitem buf (i + 2) ;;
  if negb (b2 =? 0)%N then Ok true else
  b3 <- getitem buf (i + 3) ;;
  Ok (negb (b3 =? 1)%N).

(** Condition of the first inner [while]: no start code at [i]. *)
Definition no_start_code (buf : bytes) (i : nat) : result bool :=
  and_then (differs3 buf i 1) (differs4 buf i).

(** Condition of the second inner [while]: the NAL unit goes on at [i]. *)
Definition no_nal_end (buf : bytes) (i : nat) : result bool :=
  and_then (differs3 buf i 0) (differs3 buf i 1).

(** First inner loop.  [None] is the [return] of the generator. *)
Fixpoint skip_leading (fuel : nat) (buf : bytes) (i : nat)
    : result (option nat) :=
  c <- no_start_code buf i ;;
  if c then
    match fuel with
    | O => OutOfFuel
    | S fuel' =>
        let i := i + 1 in
        if length buf <=? i + 4 then Ok None
        else skip_leading fuel' buf i
    end
  else Ok (Some i).

(** Second inner loop.  [inl i] is the normal exit with [nal_end = i];
    [inr tt] is the exit through [i + 3 >= len(buf)]. *)
Fixpoint find_nal_end (fuel : nat) (buf : bytes) (i : nat)
    : result (nat + unit) :=
  c <- no_nal_end buf i ;;
  if c then
    match fuel with
    | O => OutOfFuel
    | S fuel' =>
        let i := i + 1 in
        if length buf <=? i + 3 then Ok (inr tt)
        else find_nal_end fuel' buf i
    end
  else Ok (inl i).

(** One pass of the body of [while True]. *)
Inductive pass : Type :=
| Yield (nal : bytes) (i : nat)   (* [yield buf[nal_start:nal_end]], go on at [i] *)
| YieldReturn (nal : bytes)       (* [yield buf[nal_start:len(buf)]; return] *)
| Return
| Fail (e : exn)
| Stuck.

Definition lift {A : Type} (c : result A) (k : A -> pass) : pass :=
  match c with
  | Ok a => k a
  | Raise e => Fail e
  | OutOfFuel => Stuck
  end.

Definition body (buf : bytes) (i : nat) : pass :=
  lift (skip_leading (length buf) buf i) (fun found =>
  match found with
  | None => Return
  | Some i =>
      lift (differs3 buf i 1) (fun c =>
      let i := if c then i + 1 else i in
      let i := i + 3 in
      let nal_start := i in
      lift (find_nal_end (length buf) buf i) (fun e =>
      match e with
      | inr _ => YieldReturn (slice buf nal_start (length buf))
      | inl i => Yield (slice buf nal_start i) i
      end))
  end).

End Scanner.

Module H264Encoder.

Fixpoint fu_a_loop (fuel : nat) (data : bytes) (package_size : Z)
    (fu_header_end fu_header_middle : bytes)
    (offset num_larger_packets : Z) (fu_header : bytes)
    (packages : list bytes) : result (list bytes * Z) :=
  if (offset <? Z.of_nat (length data))%Z then
    match fuel with
    | O => OutOfFuel
    | S fuel' =>
        let '(num_larger_packets, payload, offset) :=
          if (0 <? num_larger_packets)%Z
          then (num_larger_packets - 1,
                sliceZ data offset (offset + package_size + 1),
                offset + package_size + 1)%Z
          else (num_larger_packets,
                sliceZ data offset (offset + package_size),
                offset + package_size)%Z in
        let fu_header :=
          if (offset =? Z.of_nat (length data))%Z
          then fu_header_end else fu_header in
        let packages := packages ++ [fu_header ++ payload] in
        fu_a_loop fuel' data package_size fu_header_end fu_header_middle
          offset num_larger_packets fu_header_middle packages
    end
  else Ok (packages, offset).

Definition _packetize_fu_a (data : bytes) : result (list bytes) :=
  let available_size := (Z.of_nat PACKET_MAX - Z.of_nat FU_A_HEADER_SIZE)%Z in
  let payload_size := (Z.of_nat (length data) - Z.of_nat NAL_HEADER_SIZE)%Z in
  let num_packets := ceil_div payload_size available_size in
  if (num_packets =? 0)%Z then Raise ZeroDivisionError else
  let num_larger_packets := (payload_size mod num_packets)%Z in
  let package_size := (payload_size / num_packets)%Z in
  d0 <- getitem data 0 ;;
  let f_nri := N.land d0 (N.lor 0x80 0x60) in
  let nal := N.land d0 0x1F in
  let fu_indicator := N.lor f_nri NAL_TYPE_FU_A in
  let fu_header_end := [fu_indicator; N.lor nal 0x40] in
  let fu_header_middle := [fu_indicator; nal] in
  let fu_header_start := [fu_indicator; N.lor nal 0x80] in
  r <- fu_a_loop (length data) data package_size
         fu_header_end fu_header_middle
         (Z.of_nat NAL_HEADER_SIZE) num_larger_packets fu_header_start [] ;;
  let '(packages, offset) := r in
  if (offset =? Z.of_nat (length data))%Z
  then Ok packages
  else Raise AssertionError.

(** State of the aggregation loop when it is left: the header, the counter,
    the payload, the pending [nalu] ([None] after [StopIteration]) and the
    iterator. *)
Definition stap_a_state : Type :=
  (N * nat * bytes * option bytes * list bytes)%type.

(** The [try] block of [_packetize_stap_a], from [while] on, with its
    [except StopIteration]. *)
Fixpoint stap_a_loop (nalu : bytes) (it : list bytes) (available_size : Z)
    (stap_header : N) (counter : nat) (payload : bytes)
    : result stap_a_state :=
  if (Z.of_nat (length nalu) <=? available_size)%Z then
    n0 <- getitem nalu 0 ;;
    let stap_header := N.lor stap_header (N.land n0 0x80) in
    let nri := N.land n0 0x60 in
    let stap_header :=
      if (N.land stap_header 0x60 <? nri)%N
      then N.lor (N.land stap_header 0x9F) nri
      else stap_header in
    let available_size :=
      (available_size - Z.of_nat (LENGTH_FIELD_SIZE + length nalu))%Z in
    let counter := counter + 1 in
    len <- pack_H (length nalu) ;;
    let payload := payload ++ (len ++ nalu) in
    match it with
    | [] => Ok (stap_header, counter, payload, None, [])
    | nalu :: it' =>
        stap_a_loop nalu it' available_size stap_header counter payload
    end
  else if counter =? 0 then
    match next it with
    | None => Ok (stap_header, counter, payload, None, it)
    | Some (nalu, it') => Ok (stap_header, counter, payload, Some nalu, it')
    end
  else Ok (stap_header, counter, payload, Some nalu, it).

(** [_packetize_stap_a] returns the packet, the pending NAL unit and leaves
    the iterator advanced. *)
Definition _packetize_stap_a (data : bytes) (packages_iterator : list bytes)
    : result (bytes * option bytes * list bytes) :=
  let counter := 0 in
  let available_size :=
    (Z.of_nat PACKET_MAX - Z.of_nat STAP_A_HEADER_SIZE)%Z in
  d0 <- getitem data 0 ;;
  let stap_header := N.lor NAL_TYPE_STAP_A (N.land d0 0xE0) in
  st <- stap_a_loop data packages_iterator available_size
          stap_header counter [] ;;
  let '(stap_header, counter, payload, nalu, it) := st in
  if counter <=? 1
  then Ok (data, nalu, it)
  else Ok (stap_header :: payload, nalu, it).

(** [next(packages_iterator, None)]. *)
Definition next_or_none (it : list bytes) : option bytes * list bytes :=
  match next it with
  | None => (None, it)
  | Some (x, it') => (Some x, it')
  end.

Fixpoint packetize_loop (fuel : nat) (package : option bytes)
    (it : list bytes) (packetized_packages : list bytes)
    : result (list bytes) :=
  match package with
  | None => Ok packetized_packages
  | Some package =>
      match fuel with
      | O => OutOfFuel
      | S fuel' =>
          if PACKET_MAX <? length package then
            frags <- _packetize_fu_a package ;;
            let '(package, it) := next_or_none it in
            packetize_loop fuel' package it (packetized_packages ++ frags)
          else
            r <- _packetize_stap_a package it ;;
            let '(packetized, package, it) := r in
            packetize_loop fuel' package it
              (packetized_packages ++ [packetized])
      end
  end.

Definition _packetize (packages : list bytes) : result (list bytes) :=
  let '(package, it) := next_or_none packages in
  packetize_loop (length packages) package it [].

(** The [while True] loop of the generator [_split_bitstream]. *)
Fixpoint split_loop (fuel : nat) (buf : bytes) (i : nat) : generated :=
  match fuel with
  | O => ([], Running)
  | S fuel' =>
      match Scanner.body buf i with
      | Scanner.Yield nal i => yield nal (split_loop fuel' buf i)
      | Scanner.YieldReturn nal => ([nal], Returned)
      | Scanner.Return => ([], Returned)
      | Scanner.Fail e => ([], Raised e)
      | Scanner.Stuck => ([], Running)
      end
  end.

Definition _split_bitstream (buf : bytes) : generated :=
  split_loop (S (length buf)) buf 0.

End H264Encoder.

(** ** H264Packer: the pass-through variant

    [_packetize_fu_a], [_packetize_stap_a] and [_packetize] of [H264Packer]
    are the text of those of [H264Encoder]; its [_split_bitstream] wraps the
    body of [while True] in [if len(buf) >= 1 + 3]. *)

Module H264Packer.

Definition _packetize_fu_a := H264Encoder._packetize_fu_a.
Definition _packetize_stap_a := H264Encoder._packetize_stap_a.
Definition _packetize := H264Encoder._packetize.

Fixpoint split_loop (fuel : nat) (buf : bytes) (i : nat) : generated :=
  match fuel with
  | O => ([], Running)
  | S fuel' =>
      if 1 + 3 <=? length buf then
        match Scanner.body buf i with
        | Scanner.Yield nal i => yield nal (split_loop fuel' buf i)
        | Scanner.YieldReturn nal => ([nal], Returned)
        | Scanner.Return => ([], Returned)
        | Scanner.Fail e => ([], Raised e)
        | Scanner.Stuck => ([], Running)
        end
      else split_loop fuel' buf i
  end.

(** The generator run for [fuel] passes of [while True]. *)
Definition _split_bitstream (fuel : nat) (buf : bytes) : generated :=
  split_loop fuel buf 0.

End H264Packer.

(** ** Notions of the specification *)

(** The NAL type, low five bits of a header byte. *)
Definition nal_type_of (b : N) : N := N.land b 0x1F.

(** [u16_be] length followed by the unit: one entry of a STAP-A body. *)
Definition stap_a_entry (nalu : bytes) : bytes :=
  [N.of_nat (length nalu) / 256; N.of_nat (length nalu) mod 256]%N ++ nalu.

(** The value of a big-endian length field. *)
Definition u16_be (hi lo : N) : nat := 256 * N.to_nat hi + N.to_nat lo.

(** A STAP-A body that is a sequence of entries, each length field fitting
    and each unit present in full. *)
Inductive stap_a_body : bytes -> list bytes -> Prop :=
| body_end : stap_a_body [] []
| body_entry hi lo nalu rest nalus :
    length nalu = u16_be hi lo ->
    stap_a_body rest nalus ->
    stap_a_body (hi :: lo :: nalu ++ rest) (nalu :: nalus).

(** A STAP-A body with a length field that does not fit, or with a unit of
    which some bytes are missing. *)
Inductive stap_a_broken : bytes -> value_error -> Prop :=
| broken_length b : stap_a_broken [b] StapLengthTruncated
| broken_data hi lo rest :
    length rest < u16_be hi lo ->
    stap_a_broken (hi :: lo :: rest) StapDataTruncated
| broken_later hi lo nalu rest e :
    length nalu = u16_be hi lo ->
    stap_a_broken rest e ->
    stap_a_broken (hi :: lo :: nalu ++ rest) e.

(** The malformed payloads of the specification, with the failure each
    one is given. *)
Inductive malformed : bytes -> value_error -> Prop :=
| malformed_short data :
    length data < 2 ->
    malformed data NalTooShort
| malformed_type d0 rest :
    rest <> [] ->
    ~ (1 <= nal_type_of d0 < 24)%N ->
    nal_type_of d0 <> 24%N -> nal_type_of d0 <> 28%N ->
    malformed (d0 :: rest) (NalTypeUnsupported (nal_type_of d0))
| malformed_stap_a d0 body e :
    nal_type_of d0 = 24%N ->
    body <> [] ->
    stap_a_broken body e ->
    malformed (d0 :: body) e.

(** The Annex B stream that carries the given units, each behind a four-byte
    start code. *)
Definition annex_b (nalus : list bytes) : bytes :=
  flat_map (fun nalu => START_CODE ++ nalu) nalus.

(** Offsets that the STAP-A loop records for a body that starts at [pos]. *)
Fixpoint entry_offsets (pos : nat) (nalus : list bytes) : list nat :=
  match nalus with
  | [] => []
  | nalu :: nalus' =>
      (pos + 2) :: entry_offsets (pos + 2 + length nalu) nalus'
  end.

(** Consecutive pieces of [l] of the given sizes. *)
Fixpoint chunks (sizes : list nat) (l : bytes) : list bytes :=
  match sizes with
  | [] => []
  | s :: sizes' => firstn s l :: chunks sizes' (skipn s l)
  end.

(** FU-A packets over the given payload pieces: the last piece goes behind
    the end header, the first of several behind [first], the others behind
    the middle header. *)
Fixpoint with_fu_headers (first fu_end fu_middle : bytes)
    (pieces : list bytes) : list bytes :=
  match pieces with
  | [] => []
  | [c] => [fu_end ++ c]
  | c :: pieces' =>
      (first ++ c) :: with_fu_headers fu_middle fu_end fu_middle pieces'
  end.

(** The S (start) and E (end) bits of the FU header, second byte of an FU-A
    packet, and the payload behind the two header bytes. *)
Definition fu_S (packet : bytes) : bool := N.testbit (nth 1 packet 0%N) 7.
Definition fu_E (packet : bytes) : bool := N.testbit (nth 1 packet 0%N) 6.
Definition fu_tail (packet : bytes) : bytes := skipn FU_A_HEADER_SIZE packet.

(** The sizes of the fragments still to come when [k] packets remain, [r] of
    them larger. *)
Definition sizes_left (q k r : nat) : list nat :=
  repeat (q + 1) r ++ repeat q (k - r).

(** Number of FU-A packets for [payload_size] bytes of NAL payload. *)
Definition num_packets_of (payload_size : nat) : nat :=
  Z.to_nat (ceil_div (Z.of_nat payload_size) 1298).

(** The NAL unit of the fragmentation scenario: type 5, NRI bits [0x60],
    3000 bytes. *)
Definition nal_3000 : bytes := 0x65%N :: repeat 0xAB%N 2999.

(** One update of the STAP-A header byte by an aggregated unit: the F bit is
    OR-ed in, the NRI field is raised to the unit's when that is larger. *)
Definition stap_header_step (stap_header : N) (nalu : bytes) : N :=
  let n0 := hd 0%N nalu in
  let stap_header := N.lor stap_header (N.land n0 0x80) in
  let nri := N.land n0 0x60 in
  if (N.land stap_header 0x60 <? nri)%N
  then N.lor (N.land stap_header 0x9F) nri
  else stap_header.

(** The header byte of the STAP-A packet that aggregates [group]. *)
Definition stap_a_header (group : list bytes) : N :=
  fold_left stap_header_step group
    (N.lor NAL_TYPE_STAP_A (N.land (hd 0%N (hd [] group)) 0xE0)).

(** The STAP-A packet that aggregates [group]. *)
Definition stap_a_packet (group : list bytes) : bytes :=
  stap_a_header group :: flat_map stap_a_entry group.

(** Bytes that the entries of [group] take in a STAP-A body. *)
Definition entries_size (group : list bytes) : nat :=
  list_sum (map (fun nalu => LENGTH_FIELD_SIZE + length nalu) group).

(** What the driver still has to packetize when the aggregator returns the
    pending unit [nxt] and leaves the iterator at [it]. *)
Definition pending (nxt : option bytes) (it : list bytes) : list bytes :=
  match nxt with
  | Some nalu => nalu :: it
  | None => it
  end.

(** NRI field and F bit of a NAL header byte. *)
Definition nri_of (b : N) : N := N.land b 0x60.
Definition f_bit_of (b : N) : N := N.land b 0x80.

(** The largest NRI field and the OR of the F bits over the header bytes of
    a group of units. *)
Definition max_nri (group : list bytes) : N :=
  fold_right N.max 0%N (map (fun nalu => nri_of (hd 0%N nalu)) group).
Definition or_f_bit (group : list bytes) : N :=
  fold_right N.lor 0%N (map (fun nalu => f_bit_of (hd 0%N nalu)) group).

(** What the packetizer emits for the units it takes in one step: the FU-A
    fragments of one large unit, one unit verbatim, or one STAP-A packet
    aggregating two units or more. *)
Inductive emission : list bytes -> list bytes -> Prop :=
| emit_fu_a nalu fragments :
    PACKET_MAX < length nalu ->
    H264Encoder._packetize_fu_a nalu = Ok fragments ->
    emission [nalu] fragments
| emit_single nalu :
    nalu <> [] ->
    length nalu <= PACKET_MAX ->
    emission [nalu] [nalu]
| emit_stap_a group :
    2 <= length group ->
    Forall (fun nalu => nalu <> []) group ->
    entries_size group < PACKET_MAX ->
    emission group [stap_a_packet group].

(** The payloads that cover a sequence of units, step after step and in
    order. *)
Inductive packetization : list bytes -> list bytes -> Prop :=
| packetization_nil : packetization [] []
| packetization_step group payloads rest out :
    emission group payloads ->
    packetization rest out ->
    packetization (group ++ rest) (payloads ++ out).

(** Moving the result of a scan of a suffix back into the whole buffer. *)
Definition shift_end (p : nat) (r : result (nat + unit)) : result (nat + unit) :=
  match r with
  | Ok (inl i) => Ok (inl (p + i))
  | other => other
  end.

Definition shift_start (p : nat) (r : result (option nat)) : result (option nat) :=
  match r with
  | Ok (Some i) => Ok (Some (p + i))
  | other => other
  end.

(** A unit that the scanner cuts where it ends when a four-byte start code
    follows it, and a unit that the scanner yields whole when the buffer ends
    with it. *)
Definition mid_ok (nalu : bytes) : Prop :=
  forall fuel post,
    length nalu <= fuel ->
    Scanner.find_nal_end fuel (nalu ++ START_CODE ++ post) 0
    = Ok (inl (length nalu)).

Definition last_ok (nalu : bytes) : Prop :=
  forall fuel,
    length nalu <= fuel ->
    Scanner.find_nal_end fuel nalu 0 = Ok (inr tt).

(** A sequence of units that the scanner finds again behind start codes. *)
Inductive rescannable : list bytes -> Prop :=
| rescannable_last nalu : last_ok nalu -> rescannable [nalu]
| rescannable_cons nalu nalus :
    mid_ok nalu -> rescannable nalus -> rescannable (nalu :: nalus).

(** [pat] occurs in [l]. *)
Definition has_infix (pat l : bytes) : Prop :=
  exists pre suf, l = pre ++ pat ++ suf.

(** No [00 00 00] and no [00 00 01] inside, and no zero byte at the end. *)
Definition zero_free (nalu : bytes) : Prop :=
  ~ has_infix [0; 0; 0]%N nalu
  /\ ~ has_infix [0; 0; 1]%N nalu
  /\ last nalu 1%N <> 0%N.

(** A NAL unit that the scanner can delimit: it is not empty, and neither a
    terminator pattern inside it nor a zero byte at its end can be taken for
    the beginning of what follows. *)
Definition scannable (nalu : bytes) : Prop :=
  nalu <> [] /\ zero_free nalu.

(** Decision of [has_infix]. *)
Fixpoint prefixb (pat l : bytes) : bool :=
  match pat, l with
  | [], _ => true
  | _ :: _, [] => false
  | p :: pat', x :: l' => (p =? x)%N && prefixb pat' l'
  end.

Fixpoint infixb (pat l : bytes) : bool :=
  prefixb pat l
  || match l with
     | [] => false
     | _ :: l' => infixb pat l'
     end.

(** The receiving side: [h264_depayload] on each payload in order, the
    Annex B fragments concatenated. *)
Fixpoint reassemble (payloads : list bytes) : result bytes :=
  match payloads with
  | [] => Ok []
  | payload :: payloads' =>
      fragment <- h264_depayload payload ;;
      rest <- reassemble payloads' ;;
      Ok (fragment ++ rest)
  end.

(** The same with one more [00 00 00 01] in front of each fragment whose
    descriptor has [first_fragment] set. *)
Fixpoint reassemble_prepending (payloads : list bytes) : result bytes :=
  match payloads with
  | [] => Ok []
  | payload :: payloads' =>
      r <- H264PayloadDescriptor.parse payload ;;
      rest <- reassemble_prepending payloads' ;;
      Ok ((if fst r then START_CODE else []) ++ snd r ++ rest)
  end.

(** A NAL unit that can travel alone in an RTP payload: a header byte of
    type 1..23 and one byte more at least. *)
Definition single_nal (nalu : bytes) : Prop :=
  2 <= length nalu /\ (1 <= nal_type_of (hd 0%N nalu) < 24)%N.

(** A buffer with 3-byte and 4-byte start codes in front of the 3000-byte
    unit and the two tiny units of the scenarios. *)
Definition stream_3 : bytes :=
  [0; 0; 1]%N ++ nal_3000
  ++ [0; 0; 0; 1; 0x67; 0xAA]%N ++ [0; 0; 1; 0x68; 0xBB]%N.

(** The FU indicator and the original type that the fragmenter derives from
    the header byte [d0] of the unit. *)
Definition fu_indicator (d0 : N) : N :=
  N.lor (N.land d0 (N.lor 0x80 0x60)) NAL_TYPE_FU_A.
Definition fu_nal (d0 : N) : N := N.land d0 0x1F.

(** ** Notions of the further properties *)

(** The three-byte start code. *)
Definition START_CODE_3 : bytes := [0; 0; 1]%N.

Definition is_start_code (c : bytes) : Prop :=
  c = START_CODE_3 \/ c = START_CODE.

(** The stream of units that stand each behind the start code given with
    it. *)
Definition framed (units : list (bytes * bytes)) : bytes :=
  flat_map (fun cu => fst cu ++ snd cu) units.

(** A unit that the scanner can delimit, behind a start code of either
    length. *)
Definition well_framed (cu : bytes * bytes) : Prop :=
  is_start_code (fst cu) /\ scannable (snd cu).

(** ** The packetizer fed by a generator

    [encode] hands the generator of [_encode_frame] to [_packetize], which
    pulls the units one at a time: [next] on a generator that has yielded
    everything returns [StopIteration] when the generator has returned,
    raises what the generator raised, and does not come back from a
    generator that runs for ever.  A generator is given by what it yields
    and how it stops ([generated]); the functions below are those of
    [H264Encoder] with the iterator over a list replaced by it. *)

Module Pull.

(** [next(packages_iterator)]; [Ok None] is [StopIteration]. *)
Definition next (g : generated) : result (option (bytes * generated)) :=
  match g with
  | (x :: items, stop) => Ok (Some (x, (items, stop)))
  | ([], Returned) => Ok None
  | ([], Raised e) => Raise e
  | ([], Running) => OutOfFuel
  end.

Definition stap_a_state : Type :=
  (N * nat * bytes * option bytes * generated)%type.

(** The [try] block of [_packetize_stap_a]: [except StopIteration] catches
    the end of a generator that returned, nothing else. *)
Fixpoint stap_a_loop (nalu : bytes) (items : list bytes) (stop : gen_end)
    (available_size : Z) (stap_header : N) (counter : nat) (payload : bytes)
    : result stap_a_state :=
  if (Z.of_nat (length nalu) <=? available_size)%Z then
    n0 <- getitem nalu 0 ;;
    let stap_header := N.lor stap_header (N.land n0 0x80) in
    let nri := N.land n0 0x60 in
    let stap_header :=
      if (N.land stap_header 0x60 <? nri)%N
      then N.lor (N.land stap_header 0x9F) nri
      else stap_header in
    let available_size :=
      (available_size - Z.of_nat (LENGTH_FIELD_SIZE + length nalu))%Z in
    let counter := counter + 1 in
    len <- pack_H (length nalu) ;;
    let payload := payload ++ (len ++ nalu) in
    match items with
    | [] =>
        r <- next ([], stop) ;;
        match r with
        | None => Ok (stap_header, counter, payload, None, ([], stop))
        | Some (nalu, g) => Ok (stap_header, counter, payload, Some nalu, g)
        end
    | nalu :: items' =>
        stap_a_loop nalu items' stop available_size stap_header counter
          payload
    end
  else if counter =? 0 then
    r <- next (items, stop) ;;
    match r with
    | None => Ok (stap_header, counter, payload, None, (items, stop))
    | Some (nalu, g) => Ok (stap_header, counter, payload, Some nalu, g)
    end
  else Ok (stap_header, counter, payload, Some nalu, (items, stop)).

Definition _packetize_stap_a (data : bytes) (packages_iterator : generated)
    : result (bytes * option bytes * generated) :=
  let counter := 0 in
  let available_size :=
    (Z.of_nat PACKET_MAX - Z.of_nat STAP_A_HEADER_SIZE)%Z in
  d0 <- getitem data 0 ;;
  let stap_header := N.lor NAL_TYPE_STAP_A (N.land d0 0xE0) in
  st <- stap_a_loop data (fst packages_iterator) (snd packages_iterator)
          available_size stap_header counter [] ;;
  let '(stap_header, counter, payload, nalu, it) := st in
  if counter <=? 1
  then Ok (data, nalu, it)
  else Ok (stap_header :: payload, nalu, it).

(** [next(packages_iterator, None)]. *)
Definition next_or_none (g : generated) : result (option bytes * generated) :=
  r <- next g ;;
  match r with
  | None => Ok (None, g)
  | Some (x, g') => Ok (Some x, g')
  end.

Fixpoint packetize_loop (fuel : nat) (package : option bytes)
    (it : generated) (packetized_packages : list bytes)
    : result (list bytes) :=
  match package with
  | None => Ok packetized_packages
  | Some package =>
      match fuel with
      | O => OutOfFuel
      | S fuel' =>
          if PACKET_MAX <? length package then
            frags <- H264Encoder._packetize_fu_a package ;;
            r <- next_or_none it ;;
            let '(package, it) := r in
            packetize_loop fuel' package it (packetized_packages ++ frags)
          else
            r <- _packetize_stap_a package it ;;
            let '(packetized, package, it) := r in
            packetize_loop fuel' package it
              (packetized_packages ++ [packetized])
      end
  end.

Definition _packetize (packages : generated) : result (list bytes) :=
  r <- next_or_none packages ;;
  let '(package, it) := r in
  packetize_loop (length (fst packages)) package it [].

End Pull.

(** ** H264Packer._encode_frame and the payloads of H264Packer.encode

    [self.codec] of an [H264Packer] is [None] from [__init__] on, so the
    guard of [_encode_frame] is skipped and the generator is that of
    [_split_bitstream] on the frame; [force_keyframe] is not looked at.
    [encode] makes the generator, computes a timestamp with
    [convert_timebase] of [mediastreams] on constants, and then evaluates
    [self._packetize(packages)] for the first component of what it
    returns.  [encode_payloads] is this last evaluation; the call of
    [convert_timebase], which is not code of this file and sees neither the
    frame nor the generator, is not part of it.  [fuel] bounds the passes
    of the scanner. *)

Module PackerEncode.

Definition _encode_frame (fuel : nat) (frame : bytes)
    (force_keyframe : bool) : generated :=
  H264Packer._split_bitstream fuel frame.

Definition encode_payloads (fuel : nat) (frame : bytes)
    (force_keyframe : bool) : result (list bytes) :=
  Pull._packetize (_encode_frame fuel frame force_keyframe).

End PackerEncode.

(** The state of the aggregation loop over a list, seen over the generator
    that returns after the list. *)
Definition over_returned {A : Type} (r : result (A * list bytes))
    : result (A * generated) :=
  match r with
  | Ok (a, it) => Ok (a, (it, Returned))
  | Raise e => Raise e
  | OutOfFuel => OutOfFuel
  end.

(** * Properties *)

(** ** Lists, slices and results *)

Lemma skipn_app_length {A : Type} (pre suf : list A) :
  skipn (length pre) (pre ++ suf) = suf.
Proof.
  induction pre as [|x pre IH]; simpl; auto.
Qed.

Lemma firstn_app_length {A : Type} (pre suf : list A) :
  firstn (length pre) (pre ++ suf) = pre.
Proof.
  induction pre as [|x pre IH]; simpl; [destruct suf|]; auto.
  now rewrite IH.
Qed.

Lemma slice_app_mid (pre mid suf : bytes) :
  slice (pre ++ mid ++ suf) (length pre) (length pre + length mid) = mid.
Proof.
  unfold slice. rewrite skipn_app_length.
  replace (length pre + length mid - length pre) with (length mid) by lia.
  apply firstn_app_length.
Qed.

Lemma getitem_app_r (pre suf : bytes) (k : nat) :
  getitem (pre ++ suf) (length pre + k) = getitem suf k.
Proof.
  unfold getitem. rewrite nth_error_app2 by lia.
  now replace (length pre + k - length pre) with k by lia.
Qed.

(** ** The payload descriptor parser *)

Module ParseFacts.
Import H264PayloadDescriptor.

Lemma unpack_from_H_app (pre : bytes) (hi lo : N) (rest : bytes) :
  unpack_from_H (pre ++ hi :: lo :: rest) (length pre) = Ok (u16_be hi lo).
Proof.
  unfold unpack_from_H. now rewrite skipn_app_length.
Qed.

Lemma stap_a_offsets_body (suf : bytes) (nalus : list bytes) :
  stap_a_body suf nalus ->
  forall fuel pre offsets,
    length suf <= fuel ->
    stap_a_offsets fuel (pre ++ suf) (length pre) offsets
    = Ok (offsets ++ entry_offsets (length pre) nalus).
Proof.
  induction 1 as [|hi lo nalu rest nalus Hlen Hbody IH]; intros fuel pre offsets Hfuel.
  - destruct fuel; simpl; rewrite length_app; simpl;
      replace (length pre <? length pre + 0) with false
        by (symmetry; apply Nat.ltb_ge; lia);
      now rewrite app_nil_r.
  - destruct fuel as [|fuel]; [simpl in Hfuel; lia|].
    cbn [stap_a_offsets].
    replace (length pre <? length (pre ++ hi :: lo :: nalu ++ rest)) with true
      by (symmetry; apply Nat.ltb_lt; rewrite length_app; simpl; lia).
    replace (length (pre ++ hi :: lo :: nalu ++ rest) <? length pre + LENGTH_FIELD_SIZE)
      with false
      by (symmetry; apply Nat.ltb_ge; rewrite length_app; simpl;
          unfold LENGTH_FIELD_SIZE; lia).
    rewrite unpack_from_H_app. cbn [bind].
    replace (length (pre ++ hi :: lo :: nalu ++ rest)
             <? length pre + LENGTH_FIELD_SIZE + u16_be hi lo) with false
      by (symmetry; apply Nat.ltb_ge; rewrite !length_app; simpl;
          rewrite length_app; unfold LENGTH_FIELD_SIZE; lia).
    replace (pre ++ hi :: lo :: nalu ++ rest)
      with ((pre ++ hi :: lo :: nalu) ++ rest)
      by (rewrite <- app_assoc; reflexivity).
    replace (length pre + LENGTH_FIELD_SIZE + u16_be hi lo)
      with (length (pre ++ hi :: lo :: nalu))
      by (rewrite length_app; simpl; unfold LENGTH_FIELD_SIZE; lia).
    rewrite IH by (simpl in Hfuel; rewrite length_app in Hfuel; lia).
    rewrite <- app_assoc. simpl.
    replace (length (pre ++ hi :: lo :: nalu)) with (length pre + 2 + length nalu)
      by (rewrite length_app; simpl; lia).
    reflexivity.
Qed.

Lemma stap_a_offsets_broken (suf : bytes) (e : value_error) :
  stap_a_broken suf e ->
  forall fuel pre offsets,
    length suf <= fuel ->
    stap_a_offsets fuel (pre ++ suf) (length pre) offsets
    = Raise (ValueError e).
Proof.
  induction 1 as [b|hi lo rest Hlen|hi lo nalu rest e Hlen Hbroken IH];
    intros fuel pre offsets Hfuel;
    (destruct fuel as [|fuel]; [simpl in Hfuel; lia|]);
    cbn [stap_a_offsets].
  - replace (length pre <? length (pre ++ [b])) with true
      by (symmetry; apply Nat.ltb_lt; rewrite length_app; simpl; lia).
    replace (length (pre ++ [b]) <? length pre + LENGTH_FIELD_SIZE) with true
      by (symmetry; apply Nat.ltb_lt; rewrite length_app; simpl;
          unfold LENGTH_FIELD_SIZE; lia).
    reflexivity.
  - replace (length pre <? length (pre ++ hi :: lo :: rest)) with true
      by (symmetry; apply Nat.ltb_lt; rewrite length_app; simpl; lia).
    replace (length (pre ++ hi :: lo :: rest) <? length pre + LENGTH_FIELD_SIZE)
      with false
      by (symmetry; apply Nat.ltb_ge; rewrite length_app; simpl;
          unfold LENGTH_FIELD_SIZE; lia).
    rewrite unpack_from_H_app. cbn [bind].
    replace (length (pre ++ hi :: lo :: rest)
             <? length pre + LENGTH_FIELD_SIZE + u16_be hi lo) with true
      by (symmetry; apply Nat.ltb_lt; rewrite !length_app; simpl;
          unfold LENGTH_FIELD_SIZE; lia).
    reflexivity.
  - replace (length pre <? length (pre ++ hi :: lo :: nalu ++ rest)) with true
      by (symmetry; apply Nat.ltb_lt; rewrite length_app; simpl; lia).
    replace (length (pre ++ hi :: lo :: nalu ++ rest) <? length pre + LENGTH_FIELD_SIZE)
      with false
      by (symmetry; apply Nat.ltb_ge; rewrite length_app; simpl;
          unfold LENGTH_FIELD_SIZE; lia).
    rewrite unpack_from_H_app. cbn [bind].
    replace (length (pre ++ hi :: lo :: nalu ++ rest)
             <? length pre + LENGTH_FIELD_SIZE + u16_be hi lo) with false
      by (symmetry; apply Nat.ltb_ge; rewrite !length_app; simpl;
          rewrite length_app; unfold LENGTH_FIELD_SIZE; lia).
    replace (pre ++ hi :: lo :: nalu ++ rest)
      with ((pre ++ hi :: lo :: nalu) ++ rest)
      by (rewrite <- app_assoc; reflexivity).
    replace (length pre + LENGTH_FIELD_SIZE + u16_be hi lo)
      with (length (pre ++ hi :: lo :: nalu))
      by (rewrite length_app; simpl; unfold LENGTH_FIELD_SIZE; lia).
    apply IH. simpl in Hfuel. rewrite length_app in Hfuel. lia.
Qed.

(** Every body is a sequence of whole entries or is broken somewhere. *)
Lemma stap_a_body_or_broken (suf : bytes) :
  (exists nalus, stap_a_body suf nalus) \/ (exists e, stap_a_broken suf e).
Proof.
  remember (length suf) as n eqn:Hn.
  revert suf Hn. induction n as [n IH] using lt_wf_ind. intros suf Hn.
  destruct suf as [|hi [|lo rest]].
  - left. exists []. constructor.
  - right. eexists. constructor.
  - destruct (le_lt_dec (u16_be hi lo) (length rest)) as [Hfit|Hcut].
    + rewrite <- (firstn_skipn (u16_be hi lo) rest).
      assert (Hl : length (firstn (u16_be hi lo) rest) = u16_be hi lo)
        by (rewrite length_firstn; lia).
      destruct (IH (length (skipn (u16_be hi lo) rest))) with (suf := skipn (u16_be hi lo) rest)
        as [[nalus Hb]|[e Hb]]; auto.
      * subst n. rewrite length_skipn. simpl. lia.
      * left. eexists. constructor; eauto.
      * right. exists e. apply broken_later; auto.
    + right. eexists. apply broken_data. exact Hcut.
Qed.

Lemma stap_a_body_nil_inv (suf : bytes) : stap_a_body suf [] -> suf = [].
Proof. inversion 1; reflexivity. Qed.

Lemma pairwise_cons {T : Type} (x y : T) (l : list T) :
  pairwise (x :: y :: l) = (x, y) :: pairwise (y :: l).
Proof. reflexivity. Qed.

(** The offsets that follow an entry start two bytes after its end. *)
Lemma entry_offsets_head (suf : bytes) (nalus : list bytes) (pos : nat) :
  stap_a_body suf nalus ->
  exists t, entry_offsets pos nalus ++ [pos + length suf + 2] = (pos + 2) :: t.
Proof.
  destruct 1 as [|hi lo nalu rest nalus Hlen Hbody]; simpl.
  - exists []. now rewrite Nat.add_0_r.
  - eexists. reflexivity.
Qed.

Lemma stap_a_output_body (suf : bytes) (nalus : list bytes) :
  stap_a_body suf nalus ->
  forall pre acc,
    fold_left
      (fun output '(start, end_) =>
         let end_ := end_ - LENGTH_FIELD_SIZE in
         (output ++ START_CODE) ++ slice (pre ++ suf) start end_)
      (pairwise (entry_offsets (length pre) nalus
                 ++ [length pre + length suf + 2])) acc
    = acc ++ annex_b nalus.
Proof.
  induction 1 as [|hi lo nalu rest nalus Hlen Hbody IH]; intros pre acc.
  - simpl. now rewrite app_nil_r.
  - cbn [entry_offsets app].
    destruct (entry_offsets_head (length pre + 2 + length nalu) Hbody) as [t Ht].
    replace (length pre + length (hi :: lo :: nalu ++ rest) + 2)
      with (length pre + 2 + length nalu + length rest + 2)
      by (simpl; rewrite length_app; lia).
    specialize (IH (pre ++ hi :: lo :: nalu) (acc ++ START_CODE ++ nalu)).
    replace (length (pre ++ hi :: lo :: nalu))
      with (length pre + 2 + length nalu) in IH
      by (rewrite length_app; simpl; lia).
    rewrite Ht in *. rewrite pairwise_cons. cbn [fold_left].
    replace ((pre ++ hi :: lo :: nalu) ++ rest)
      with (pre ++ hi :: lo :: nalu ++ rest) in IH
      by (rewrite <- app_assoc; reflexivity).
    replace (slice (pre ++ hi :: lo :: nalu ++ rest) (length pre + 2)
               (length pre + 2 + length nalu + 2 - LENGTH_FIELD_SIZE))
      with nalu.
    + rewrite <- app_assoc. etransitivity; [exact IH|]. cbn [annex_b flat_map].
      now rewrite <- !app_assoc.
    + replace (pre ++ hi :: lo :: nalu ++ rest)
        with ((pre ++ [hi; lo]) ++ nalu ++ rest)
        by (rewrite <- app_assoc; reflexivity).
      replace (length pre + 2) with (length (pre ++ [hi; lo]))
        by (rewrite length_app; simpl; lia).
      replace (length (pre ++ [hi; lo]) + length nalu + 2 - LENGTH_FIELD_SIZE)
        with (length (pre ++ [hi; lo]) + length nalu)
        by (unfold LENGTH_FIELD_SIZE; lia).
      now rewrite slice_app_mid.
Qed.

Lemma parse_stap_a_ok (d0 : N) (body : bytes) (nalus : list bytes) :
  nal_type_of d0 = 24%N ->
  body <> [] ->
  stap_a_body body nalus ->
  parse (d0 :: body) = Ok (true, annex_b nalus).
Proof.
  unfold nal_type_of. intros Ht Hne Hbody.
  destruct body as [|b body]; [congruence|].
  unfold parse. cbn [length Nat.ltb Nat.leb getitem nth_error bind].
  rewrite Ht. cbn [N.leb N.ltb N.eqb N.compare Pos.compare Pos.compare_cont
                   andb NAL_TYPE_FU_A NAL_TYPE_STAP_A Pos.eqb].
  change (d0 :: b :: body) with ([d0] ++ b :: body).
  change NAL_HEADER_SIZE with (length [d0]).
  rewrite (stap_a_offsets_body Hbody) by (try rewrite length_app; simpl; lia).
  cbn [bind app]. unfold stap_a_output. f_equal. f_equal.
  pose proof (stap_a_output_body Hbody [d0] []) as Hout.
  cbn [app length] in Hout. cbn [length].
  replace (S (S (length body)) + LENGTH_FIELD_SIZE)
    with (1 + S (length body) + 2) by (unfold LENGTH_FIELD_SIZE; lia).
  exact Hout.
Qed.

Lemma parse_stap_a_broken (d0 : N) (body : bytes) (e : value_error) :
  nal_type_of d0 = 24%N ->
  body <> [] ->
  stap_a_broken body e ->
  parse (d0 :: body) = Raise (ValueError e).
Proof.
  unfold nal_type_of. intros Ht Hne Hbroken.
  destruct body as [|b body]; [congruence|].
  unfold parse. cbn [length Nat.ltb Nat.leb getitem nth_error bind].
  rewrite Ht. cbn [N.leb N.ltb N.eqb N.compare Pos.compare Pos.compare_cont
                   andb NAL_TYPE_FU_A NAL_TYPE_STAP_A Pos.eqb].
  change (d0 :: b :: body) with ([d0] ++ b :: body).
  change NAL_HEADER_SIZE with (length [d0]).
  rewrite (stap_a_offsets_broken Hbroken) by (try rewrite length_app; simpl; lia).
  reflexivity.
Qed.

Lemma malformed_raises (data : bytes) (m : value_error) :
  malformed data m -> parse data = Raise (ValueError m).
Proof.
  destruct 1 as [data Hshort|d0 rest Hne Hsingle H24 H28|d0 body e H24 Hne Hbroken].
  - unfold parse.
    now replace (length data <? 2) with true by (symmetry; apply Nat.ltb_lt; lia).
  - destruct rest as [|d1 rest]; [congruence|].
    unfold nal_type_of in *. unfold parse.
    cbn [length Nat.ltb Nat.leb getitem nth_error bind].
    replace ((1 <=? N.land d0 31)%N && (N.land d0 31 <? 24)%N) with false.
    2:{ symmetry. apply andb_false_iff.
        rewrite N.leb_gt, N.ltb_ge. lia. }
    replace (N.land d0 31 =? NAL_TYPE_FU_A)%N with false
      by (symmetry; apply N.eqb_neq; exact H28).
    replace (N.land d0 31 =? NAL_TYPE_STAP_A)%N with false
      by (symmetry; apply N.eqb_neq; exact H24).
    reflexivity.
  - now apply parse_stap_a_broken.
Qed.

Lemma parse_returns_or_malformed (data : bytes) :
  (exists ff out, parse data = Ok (ff, out)) \/ (exists m, malformed data m).
Proof.
  destruct data as [|d0 [|d1 rest]].
  - right. eexists. apply malformed_short. simpl. lia.
  - right. eexists. apply malformed_short. simpl. lia.
  - destruct ((1 <=? nal_type_of d0)%N && (nal_type_of d0 <? 24)%N) eqn:Hsingle.
    { left. unfold parse, nal_type_of in *.
      cbn [length Nat.ltb Nat.leb getitem nth_error bind].
      rewrite Hsingle. eauto. }
    destruct (nal_type_of d0 =? NAL_TYPE_FU_A)%N eqn:H28.
    { left. unfold parse, nal_type_of in *.
      cbn [length Nat.ltb Nat.leb getitem nth_error bind NAL_HEADER_SIZE].
      rewrite Hsingle, H28. eauto. }
    destruct (nal_type_of d0 =? NAL_TYPE_STAP_A)%N eqn:H24.
    { apply N.eqb_eq in H24.
      destruct (stap_a_body_or_broken (d1 :: rest)) as [[nalus Hb]|[e Hb]].
      - left. do 2 eexists. apply parse_stap_a_ok; eauto. discriminate.
      - right. exists e. apply malformed_stap_a; auto. discriminate. }
    right. eexists. apply malformed_type.
    + discriminate.
    + apply andb_false_iff in Hsingle.
      rewrite N.leb_gt, N.ltb_ge in Hsingle. lia.
    + now apply N.eqb_neq in H24.
    + now apply N.eqb_neq in H28.
Qed.

End ParseFacts.

(** C8.  [parse] raises exactly on the malformed payloads, with the failure
    of the specification (short NAL, truncated STAP-A length, truncated
    STAP-A data, unsupported NAL type), and returns a descriptor and output
    bytes on every payload that is not malformed. *)
Theorem parse_raises_iff_malformed (data : bytes) :
  (forall e, H264PayloadDescriptor.parse data = Raise e
             <-> exists m, e = ValueError m /\ malformed data m)
  /\ ((forall m, ~ malformed data m) ->
      exists ff out, H264PayloadDescriptor.parse data = Ok (ff, out)).
Proof.
  split.
  - intro e. split.
    + intro Hr.
      destruct (ParseFacts.parse_returns_or_malformed data)
        as [(ff & out & Hok)|[m Hm]]; [congruence|].
      exists m. split; [|exact Hm].
      apply ParseFacts.malformed_raises in Hm. congruence.
    + intros (m & -> & Hm). now apply ParseFacts.malformed_raises.
  - intro Hnot.
    destruct (ParseFacts.parse_returns_or_malformed data)
      as [Hok|[m Hm]]; [exact Hok|].
    exfalso. exact (Hnot m Hm).
Qed.

(** The malformed STAP-A and the unsupported type of the scenarios:
    [78 00 05 67 AA] and [19 00 00]. *)
Lemma parse_raises_iff_malformed_witness :
  H264PayloadDescriptor.parse [0x78; 0x00; 0x05; 0x67; 0xAA]%N
  = Raise (ValueError StapDataTruncated)
  /\ H264PayloadDescriptor.parse [0x19; 0x00; 0x00]%N
     = Raise (ValueError (NalTypeUnsupported 25)).
Proof.
  split.
  - apply (proj1 (parse_raises_iff_malformed [0x78; 0x00; 0x05; 0x67; 0xAA]%N)).
    exists StapDataTruncated. split; [reflexivity|].
    apply malformed_stap_a; [reflexivity|discriminate|].
    apply broken_data. unfold u16_be. simpl. lia.
  - apply (proj1 (parse_raises_iff_malformed [0x19; 0x00; 0x00]%N)).
    exists (NalTypeUnsupported 25). split; [reflexivity|].
    apply (@malformed_type 0x19%N [0; 0]%N).
    + discriminate.
    + unfold nal_type_of. simpl. lia.
    + discriminate.
    + discriminate.
Defined.

(** C10, as the claim states it, fails on a STAP-A header with nothing
    behind it: no length field is there to be inconsistent, and [parse]
    raises on the one-byte payload. *)
Lemma lenient_stap_a_counterexample :
  ~ (forall d0 body nalus,
        nal_type_of d0 = 24%N ->
        stap_a_body body nalus ->
        exists out, H264PayloadDescriptor.parse (d0 :: body) = Ok (true, out)).
Proof.
  intro H.
  destruct (H 0x78%N [] [] eq_refl body_end) as [out Hout].
  discriminate Hout.
Qed.

(** C10 (amended).  A payload of at least two bytes whose first byte has NAL
    type 24 and whose body is a sequence of whole entries is parsed with
    [first_fragment = true], whatever the number of entries, one included;
    the output is the Annex B stream of the aggregated units. *)
Theorem lenient_stap_a_ingress (d0 : N) (body : bytes) (nalus : list bytes) :
  nal_type_of d0 = 24%N ->
  body <> [] ->
  stap_a_body body nalus ->
  H264PayloadDescriptor.parse (d0 :: body) = Ok (true, annex_b nalus).
Proof.
  exact (@ParseFacts.parse_stap_a_ok d0 body nalus).
Qed.

(** A STAP-A packet with exactly one aggregated unit is accepted. *)
Lemma lenient_stap_a_ingress_witness :
  H264PayloadDescriptor.parse [0x78; 0x00; 0x02; 0x67; 0xAA]%N
  = Ok (true, [0; 0; 0; 1; 0x67; 0xAA]%N).
Proof.
  apply (@lenient_stap_a_ingress 0x78%N [0x00; 0x02; 0x67; 0xAA]%N [[0x67; 0xAA]%N]).
  - reflexivity.
  - discriminate.
  - apply (@body_entry 0x00%N 0x02%N [0x67; 0xAA]%N [] []).
    + reflexivity.
    + apply body_end.
Defined.

(** ** The FU-A fragmenter *)

Module FuAFacts.
Import H264Encoder.

Lemma sliceZ_in_range (buf : bytes) (a b : nat) :
  a <= b <= length buf ->
  sliceZ buf (Z.of_nat a) (Z.of_nat b) = firstn (b - a) (skipn a buf).
Proof.
  intros H. unfold sliceZ, slice, slice_bound.
  replace (Z.of_nat a <? 0)%Z with false by (symmetry; apply Z.ltb_ge; lia).
  replace (Z.of_nat b <? 0)%Z with false by (symmetry; apply Z.ltb_ge; lia).
  rewrite !Z.min_l by lia. now rewrite !Nat2Z.id.
Qed.

Lemma chunks_length (sizes : list nat) (l : bytes) :
  length (chunks sizes l) = length sizes.
Proof.
  revert l. induction sizes as [|s sizes IH]; intro l; simpl; auto.
Qed.

Lemma with_fu_headers_cons (first fu_end fu_middle c : bytes) (pieces : list bytes) :
  pieces <> [] ->
  with_fu_headers first fu_end fu_middle (c :: pieces)
  = (first ++ c) :: with_fu_headers fu_middle fu_end fu_middle pieces.
Proof.
  destruct pieces; [congruence|reflexivity].
Qed.

Lemma sizes_left_sum (q k r : nat) :
  r <= k -> list_sum (sizes_left q k r) = r * (q + 1) + (k - r) * q.
Proof.
  intros _. unfold sizes_left. rewrite list_sum_app.
  assert (Hrep : forall x n, list_sum (repeat x n) = n * x)
    by (intros x n; induction n; simpl; lia).
  now rewrite !Hrep.
Qed.

(** The fragmentation loop, entered with [k] packets to come. *)
Lemma fu_a_loop_spec (data : bytes) (q : nat) (fu_end fu_middle : bytes) :
  1 <= q ->
  forall k r offset fuel fu_header packages,
    r <= k -> k <= fuel ->
    offset + r * (q + 1) + (k - r) * q = length data ->
    fu_a_loop fuel data (Z.of_nat q) fu_end fu_middle
      (Z.of_nat offset) (Z.of_nat r) fu_header packages
    = Ok (packages
          ++ with_fu_headers fu_header fu_end fu_middle
               (chunks (sizes_left q k r) (skipn offset data)),
          Z.of_nat (length data)).
Proof.
  intros Hq. induction k as [|k IH]; intros r offset fuel fu_header packages Hr Hfuel Hsum.
  - assert (r = 0) by lia. subst r. simpl in Hsum.
    assert (offset = length data) by lia. subst offset.
    destruct fuel; simpl; rewrite Z.ltb_irrefl; now rewrite app_nil_r.
  - destruct fuel as [|fuel]; [lia|].
    cbn [fu_a_loop].
    replace (Z.of_nat offset <? Z.of_nat (length data))%Z with true
      by (symmetry; apply Z.ltb_lt; nia).
    destruct r as [|r].
    + (* no larger packet left *)
      change (0 <? Z.of_nat 0)%Z with false. cbv iota beta.
      replace (Z.of_nat offset + Z.of_nat q)%Z with (Z.of_nat (offset + q)) by lia.
      rewrite sliceZ_in_range by nia.
      replace (offset + q - offset) with q by lia.
      unfold sizes_left. cbn [repeat app]. rewrite Nat.sub_0_r.
      cbn [repeat chunks]. rewrite skipn_skipn.
      destruct k as [|k].
      * replace (Z.of_nat (offset + q) =? Z.of_nat (length data))%Z with true
          by (symmetry; apply Z.eqb_eq; nia).
        rewrite (IH 0 (offset + q)) by nia.
        cbn. now rewrite app_nil_r.
      * replace (Z.of_nat (offset + q) =? Z.of_nat (length data))%Z with false
          by (symmetry; apply Z.eqb_neq; nia).
        rewrite (IH 0 (offset + q)) by nia.
        rewrite <- app_assoc. cbn [app].
        unfold sizes_left. cbn [repeat app]. rewrite Nat.sub_0_r.
        rewrite Nat.add_comm.
        rewrite with_fu_headers_cons; [reflexivity|].
        cbn [repeat chunks]. discriminate.
    + (* a larger packet *)
      replace (0 <? Z.of_nat (S r))%Z with true by (symmetry; apply Z.ltb_lt; lia).
      cbv iota beta.
      replace (Z.of_nat offset + Z.of_nat q + 1)%Z with (Z.of_nat (offset + q + 1)) by lia.
      replace (Z.of_nat (S r) - 1)%Z with (Z.of_nat r) by lia.
      rewrite sliceZ_in_range by nia.
      replace (offset + q + 1 - offset) with (q + 1) by lia.
      unfold sizes_left. cbn [repeat app Nat.sub].
      cbn [chunks]. rewrite skipn_skipn.
      destruct k as [|k].
      * assert (r = 0) by lia. subst r.
        replace (Z.of_nat (offset + q + 1) =? Z.of_nat (length data))%Z with true
          by (symmetry; apply Z.eqb_eq; nia).
        rewrite (IH 0 (offset + q + 1)) by nia.
        cbn. now rewrite app_nil_r.
      * replace (Z.of_nat (offset + q + 1) =? Z.of_nat (length data))%Z with false
          by (symmetry; apply Z.eqb_neq; nia).
        rewrite (IH r (offset + q + 1)) by nia.
        rewrite <- app_assoc. cbn [app].
        replace (q + 1 + offset) with (offset + q + 1) by lia.
        rewrite with_fu_headers_cons; [reflexivity|].
        intro Hnil. apply (f_equal (@length bytes)) in Hnil.
        rewrite chunks_length in Hnil. fold (sizes_left q (S k) r) in Hnil.
        unfold sizes_left in Hnil. rewrite length_app, !repeat_length in Hnil.
        cbn [length] in Hnil. lia.
Qed.

Lemma ceil_div_spec (a : Z) :
  (1 <= a)%Z ->
  (1 <= ceil_div a 1298
   /\ 1298 * (ceil_div a 1298 - 1) < a <= 1298 * ceil_div a 1298)%Z.
Proof.
  intro Ha. unfold ceil_div.
  pose proof (Z.div_mod (- a) 1298 ltac:(lia)) as Hdm.
  pose proof (Z.mod_pos_bound (- a) 1298 ltac:(lia)) as Hb.
  lia.
Qed.

Lemma num_packets_of_spec (p : nat) :
  1 <= p ->
  1 <= num_packets_of p <= p
  /\ (num_packets_of p - 1) * 1298 < p <= num_packets_of p * 1298
  /\ Z.of_nat (num_packets_of p) = ceil_div (Z.of_nat p) 1298.
Proof.
  intro Hp. unfold num_packets_of.
  destruct (ceil_div_spec (a := Z.of_nat p) ltac:(lia)) as (H1 & H2 & H3).
  rewrite Z2Nat.id by lia.
  repeat split; try lia.
Qed.

(** The quotient and remainder by the number of packets: every fragment has
    at least one byte and fits behind the two header bytes. *)
Lemma package_size_bounds (p : nat) :
  1 <= p ->
  let n := num_packets_of p in
  1 <= p / n <= 1298 /\ (0 < p mod n -> p / n + 1 <= 1298).
Proof.
  intros Hp n.
  destruct (num_packets_of_spec Hp) as ((Hn1 & Hn2) & (Hlo & Hhi) & _).
  fold n in Hn1, Hn2, Hlo, Hhi.
  pose proof (Nat.div_mod p n ltac:(lia)) as Hdm.
  pose proof (Nat.mod_upper_bound p n ltac:(lia)) as Hr.
  assert (Hq1 : 1 <= p / n) by (apply Nat.div_le_lower_bound; lia).
  split; [split; [exact Hq1|]|]; nia.
Qed.

Lemma packetize_fu_a_spec (d0 : N) (rest : bytes) :
  rest <> [] ->
  let p := length rest in
  let n := num_packets_of p in
  let fu_indicator := N.lor (N.land d0 (N.lor 0x80 0x60)) NAL_TYPE_FU_A in
  let nal := N.land d0 0x1F in
  _packetize_fu_a (d0 :: rest)
  = Ok (with_fu_headers [fu_indicator; N.lor nal 0x80]
          [fu_indicator; N.lor nal 0x40] [fu_indicator; nal]
          (chunks (sizes_left (p / n) n (p mod n)) rest)).
Proof.
  intros Hne p n fu_indicator nal.
  assert (Hp : 1 <= p) by (unfold p; destruct rest; [congruence|simpl; lia]).
  destruct (num_packets_of_spec Hp) as ((Hn1 & Hn2) & _ & HnZ).
  fold n in Hn1, Hn2, HnZ.
  destruct (package_size_bounds Hp) as ((Hq1 & _) & _). fold n in Hq1.
  pose proof (Nat.div_mod p n ltac:(lia)) as Hdm.
  pose proof (Nat.mod_upper_bound p n ltac:(lia)) as Hr.
  unfold _packetize_fu_a.
  replace (Z.of_nat (length (d0 :: rest)) - Z.of_nat NAL_HEADER_SIZE)%Z
    with (Z.of_nat p) by (unfold NAL_HEADER_SIZE; fold p; simpl length; lia).
  change (Z.of_nat PACKET_MAX - Z.of_nat FU_A_HEADER_SIZE)%Z with 1298%Z.
  rewrite <- HnZ.
  replace (Z.of_nat n =? 0)%Z with false by (symmetry; apply Z.eqb_neq; lia).
  rewrite <- Nat2Z.inj_mod, <- Nat2Z.inj_div.
  cbn [getitem nth_error bind].
  change (Z.of_nat NAL_HEADER_SIZE) with (Z.of_nat 1).
  rewrite (@fu_a_loop_spec _ (p / n) _ _ Hq1 n (p mod n) 1)
    by (simpl length; fold p; nia).
  cbn [bind app skipn]. now rewrite Z.eqb_refl.
Qed.

Lemma with_fu_headers_middle (fu_end fu_middle c : bytes) (pieces : list bytes) :
  with_fu_headers fu_middle fu_end fu_middle (c :: pieces)
  = map (app fu_middle) (removelast (c :: pieces))
    ++ [fu_end ++ last (c :: pieces) []].
Proof.
  revert c. induction pieces as [|c' pieces IH]; intro c; [reflexivity|].
  rewrite with_fu_headers_cons by discriminate.
  rewrite IH. reflexivity.
Qed.

Lemma fu_tail_header (h0 h1 : N) (c : bytes) : fu_tail ([h0; h1] ++ c) = c.
Proof. reflexivity. Qed.

Lemma with_fu_headers_tails (f0 f1 e0 e1 m0 m1 : N) (pieces : list bytes) :
  map fu_tail (with_fu_headers [f0; f1] [e0; e1] [m0; m1] pieces) = pieces.
Proof.
  revert f0 f1. induction pieces as [|c pieces IH]; intros f0 f1; [reflexivity|].
  destruct pieces as [|c' pieces]; [reflexivity|].
  rewrite with_fu_headers_cons by discriminate.
  cbn [map]. rewrite IH. reflexivity.
Qed.

Lemma chunks_concat (sizes : list nat) (l : bytes) :
  list_sum sizes = length l -> concat (chunks sizes l) = l.
Proof.
  revert l. induction sizes as [|s sizes IH]; intros l Hsum; simpl in *.
  - destruct l; [reflexivity|discriminate].
  - rewrite IH by (rewrite length_skipn; lia).
    apply firstn_skipn.
Qed.

Lemma chunks_sizes (sizes : list nat) (l : bytes) :
  list_sum sizes <= length l -> map (@length N) (chunks sizes l) = sizes.
Proof.
  revert l. induction sizes as [|s sizes IH]; intros l Hsum; simpl in *; [reflexivity|].
  rewrite IH by (rewrite length_skipn; lia).
  rewrite length_firstn. f_equal. lia.
Qed.

Lemma sizes_left_total (p : nat) :
  1 <= p ->
  let n := num_packets_of p in
  list_sum (sizes_left (p / n) n (p mod n)) = p.
Proof.
  intros Hp n.
  destruct (num_packets_of_spec Hp) as ((Hn1 & Hn2) & _). fold n in Hn1, Hn2.
  pose proof (Nat.div_mod p n ltac:(lia)) as Hdm.
  pose proof (Nat.mod_upper_bound p n ltac:(lia)) as Hr.
  rewrite sizes_left_sum by lia. nia.
Qed.

Lemma fu_S_start (i nal : N) (c : bytes) :
  fu_S ([i; N.lor (N.land nal 0x1F) 0x80] ++ c) = true
  /\ fu_E ([i; N.lor (N.land nal 0x1F) 0x80] ++ c) = false.
Proof.
  unfold fu_S, fu_E. cbn [app nth].
  rewrite !N.lor_spec, !N.land_spec.
  change (N.testbit 31 7) with false. change (N.testbit 31 6) with false.
  change (N.testbit 128 7) with true. change (N.testbit 128 6) with false.
  rewrite !andb_false_r. split; reflexivity.
Qed.

Lemma fu_E_end (i nal : N) (c : bytes) :
  fu_S ([i; N.lor (N.land nal 0x1F) 0x40] ++ c) = false
  /\ fu_E ([i; N.lor (N.land nal 0x1F) 0x40] ++ c) = true.
Proof.
  unfold fu_S, fu_E. cbn [app nth].
  rewrite !N.lor_spec, !N.land_spec.
  change (N.testbit 31 7) with false. change (N.testbit 31 6) with false.
  change (N.testbit 64 7) with false. change (N.testbit 64 6) with true.
  rewrite !andb_false_r. split; reflexivity.
Qed.

Lemma fu_middle_bits (i nal : N) (c : bytes) :
  fu_S ([i; N.land nal 0x1F] ++ c) = false
  /\ fu_E ([i; N.land nal 0x1F] ++ c) = false.
Proof.
  unfold fu_S, fu_E. cbn [app nth].
  rewrite !N.land_spec.
  change (N.testbit 31 7) with false. change (N.testbit 31 6) with false.
  rewrite !andb_false_r. split; reflexivity.
Qed.

End FuAFacts.

(** C4.  For a NAL unit longer than [PACKET_MAX] the fragmenter returns at
    least two packets; the bytes behind their two header bytes concatenate to
    the unit without its header byte; the first packet has S set and E clear,
    the last has E set and S clear, those in between have both clear (so no
    packet has both set). *)
Theorem fu_a_fragment_law (data : bytes) :
  PACKET_MAX < length data ->
  exists first middle last,
    H264Encoder._packetize_fu_a data = Ok (first :: middle ++ [last])
    /\ concat (map fu_tail (first :: middle ++ [last])) = slice_from data 1
    /\ fu_S first = true /\ fu_E first = false
    /\ Forall (fun p => fu_S p = false /\ fu_E p = false) middle
    /\ fu_S last = false /\ fu_E last = true.
Proof.
  intro Hlen. destruct data as [|d0 rest]; [simpl in Hlen; lia|].
  assert (Hne : rest <> []) by (intros ->; simpl in Hlen; unfold PACKET_MAX in Hlen; lia).
  assert (Hp : 1 <= length rest) by (destruct rest; [congruence|simpl; lia]).
  pose proof (FuAFacts.packetize_fu_a_spec d0 Hne) as Hspec. cbv zeta in Hspec.
  destruct (FuAFacts.num_packets_of_spec Hp) as (_ & (_ & Hn) & _).
  set (n := num_packets_of (length rest)) in *.
  set (cs := chunks (sizes_left (length rest / n) n (length rest mod n)) rest) in *.
  assert (Hcs : length cs = n).
  { unfold cs. rewrite FuAFacts.chunks_length. unfold sizes_left.
    rewrite length_app, !repeat_length.
    pose proof (Nat.mod_upper_bound (length rest) n). lia. }
  assert (Hcat : concat cs = rest).
  { apply FuAFacts.chunks_concat. apply (FuAFacts.sizes_left_total Hp). }
  destruct cs as [|c1 [|c2 cs']];
    [simpl in Hcs, Hlen; unfold PACKET_MAX in Hlen; lia
    |simpl in Hcs, Hlen; unfold PACKET_MAX in Hlen; lia|].
  rewrite FuAFacts.with_fu_headers_cons in Hspec by discriminate.
  rewrite FuAFacts.with_fu_headers_middle in Hspec.
  eexists _, _, _. split; [exact Hspec|].
  split.
  { rewrite <- Hspec || idtac.
    cbn [map]. rewrite map_app, map_map. cbn [map].
    rewrite !FuAFacts.fu_tail_header.
    erewrite map_ext by (intro; apply FuAFacts.fu_tail_header).
    rewrite map_id. cbn [concat]. rewrite concat_app. cbn [concat].
    rewrite app_nil_r.
    assert (Hsplit : concat (c2 :: cs')
                     = concat (removelast (c2 :: cs')) ++ last (c2 :: cs') []).
    { rewrite (@app_removelast_last _ (c2 :: cs') []) at 1 by discriminate.
      rewrite concat_app. cbn [concat]. now rewrite app_nil_r. }
    rewrite <- Hsplit. exact Hcat. }
  pose proof (FuAFacts.fu_S_start (N.lor (N.land d0 (N.lor 128 96)) NAL_TYPE_FU_A) d0 c1) as [HS1 HE1].
  pose proof (FuAFacts.fu_E_end (N.lor (N.land d0 (N.lor 128 96)) NAL_TYPE_FU_A) d0
                (last (c2 :: cs') [])) as [HS2 HE2].
  repeat split; auto.
  apply Forall_map, Forall_forall. intros c _.
  apply FuAFacts.fu_middle_bits.
Qed.

(** The fragmentation scenario: three packets, FU headers [85], [05], [45]. *)
Lemma fu_a_fragment_law_witness :
  exists first middle last,
    H264Encoder._packetize_fu_a nal_3000 = Ok (first :: middle ++ [last])
    /\ concat (map fu_tail (first :: middle ++ [last])) = slice_from nal_3000 1
    /\ fu_S first = true /\ fu_E first = false
    /\ Forall (fun p => fu_S p = false /\ fu_E p = false) middle
    /\ fu_S last = false /\ fu_E last = true.
Proof.
  apply (fu_a_fragment_law nal_3000).
  unfold nal_3000, PACKET_MAX. cbn [length]. rewrite repeat_length. lia.
Defined.

(** C5.  For a NAL unit longer than [PACKET_MAX], with
    [payload_size = len - 1] and [available = PACKET_MAX - 2], the fragmenter
    returns [num_packets] packets, [num_packets] being the ceiling of
    [payload_size / available]; the first [payload_size mod num_packets] of
    them carry [payload_size / num_packets + 1] bytes and the others
    [payload_size / num_packets]. *)
Theorem fu_a_sizing (data : bytes) :
  PACKET_MAX < length data ->
  let payload_size := length data - NAL_HEADER_SIZE in
  let available := PACKET_MAX - FU_A_HEADER_SIZE in
  exists num_packets packets,
    (num_packets - 1) * available < payload_size <= num_packets * available
    /\ H264Encoder._packetize_fu_a data = Ok packets
    /\ length packets = num_packets
    /\ map (fun p => length (fu_tail p)) packets
       = repeat (payload_size / num_packets + 1) (payload_size mod num_packets)
         ++ repeat (payload_size / num_packets)
              (num_packets - payload_size mod num_packets).
Proof.
  intros Hlen payload_size available.
  destruct data as [|d0 rest]; [simpl in Hlen; lia|].
  assert (Hne : rest <> []) by (intros ->; simpl in Hlen; unfold PACKET_MAX in Hlen; lia).
  assert (Hp : 1 <= length rest) by (destruct rest; [congruence|simpl; lia]).
  assert (Hps : payload_size = length rest)
    by (unfold payload_size, NAL_HEADER_SIZE; simpl; lia).
  change available with 1298. rewrite Hps. clear payload_size available Hps.
  pose proof (FuAFacts.packetize_fu_a_spec d0 Hne) as Hspec. cbv zeta in Hspec.
  destruct (FuAFacts.num_packets_of_spec Hp) as ((Hn1 & _) & Hn & _).
  pose proof (FuAFacts.sizes_left_total Hp) as Htot. cbv zeta in Htot.
  set (n := num_packets_of (length rest)) in *.
  pose proof (Nat.mod_upper_bound (length rest) n ltac:(lia)) as Hr.
  exists n. eexists. split; [exact Hn|]. split; [exact Hspec|]. split.
  - rewrite <- (length_map fu_tail), FuAFacts.with_fu_headers_tails,
      FuAFacts.chunks_length.
    unfold sizes_left. rewrite length_app, !repeat_length. lia.
  - rewrite <- (map_map fu_tail (@length N)), FuAFacts.with_fu_headers_tails.
    rewrite FuAFacts.chunks_sizes by lia. reflexivity.
Qed.

(** The fragmentation scenario: 2999 payload bytes go out as 1000, 1000 and
    999. *)
Lemma fu_a_sizing_witness :
  exists packets,
    H264Encoder._packetize_fu_a nal_3000 = Ok packets
    /\ map (fun p => length (fu_tail p)) packets = [1000; 1000; 999].
Proof.
  assert (Hlen : PACKET_MAX < length nal_3000)
    by (unfold nal_3000, PACKET_MAX; cbn [length]; rewrite repeat_length; lia).
  destruct (fu_a_sizing nal_3000 Hlen) as (n & packets & Hn & Hok & _ & Hsizes).
  assert (Hp : length nal_3000 - NAL_HEADER_SIZE = 2999)
    by (unfold nal_3000, NAL_HEADER_SIZE; cbn [length]; rewrite repeat_length; lia).
  rewrite Hp in Hn, Hsizes.
  change (PACKET_MAX - FU_A_HEADER_SIZE) with 1298 in Hn.
  assert (n = 3) by lia. subst n.
  exists packets. split; [exact Hok|exact Hsizes].
Defined.

(** ** The STAP-A aggregator *)

Module StapAFacts.
Import H264Encoder.

Lemma entries_size_cons (nalu : bytes) (group : list bytes) :
  entries_size (nalu :: group) = 2 + length nalu + entries_size group.
Proof. reflexivity. Qed.

(** The loop is left at once: nothing was taken. *)
Ltac now_untaken :=
  split; [reflexivity|];
  split; [cbn [length]; lia|];
  split; [cbn [flat_map]; now rewrite app_nil_r|];
  split; [reflexivity|];
  split; [constructor|];
  split; [congruence|];
  split; [first [left; split; [reflexivity|reflexivity]
               |right; split; [assumption|reflexivity]]|];
  first [reflexivity|discriminate].

(** What the aggregation loop has done when it returns: it took a prefix
    [taken] of the units in front of it. *)
Lemma stap_a_loop_inv (it : list bytes) :
  forall nalu avail hdr counter payload hdr' counter' payload' nxt it',
    stap_a_loop nalu it avail hdr counter payload
    = Ok (hdr', counter', payload', nxt, it') ->
    exists taken rest,
      nalu :: it = taken ++ rest
      /\ counter' = counter + length taken
      /\ payload' = payload ++ flat_map stap_a_entry taken
      /\ hdr' = fold_left stap_header_step taken hdr
      /\ Forall (fun n => n <> []) taken
      /\ (taken <> [] -> (Z.of_nat (entries_size taken) <= avail + 2)%Z)
      /\ ((counter' = 0 /\ pending nxt it' = it)
          \/ (counter' <> 0 /\ pending nxt it' = rest))
      /\ (nxt = None -> it' = []).
Proof.
  induction it as [|x it IH];
    intros nalu avail hdr counter payload hdr' counter' payload' nxt it' Hrun.
  - cbn [stap_a_loop] in Hrun.
    destruct (Z.of_nat (length nalu) <=? avail)%Z eqn:Hfit.
    + destruct nalu as [|n0 t]; [discriminate|].
      cbn [getitem nth_error bind] in Hrun.
      unfold pack_H in Hrun. cbv zeta in Hrun.
      destruct (N.of_nat (length (n0 :: t)) <? 65536)%N; [|discriminate].
      cbn [bind] in Hrun. injection Hrun as <- <- <- <- <-.
      exists [n0 :: t], []. apply Z.leb_le in Hfit.
      split; [reflexivity|]. split; [reflexivity|].
      split; [cbn [flat_map]; now rewrite app_nil_r|].
      split; [reflexivity|].
      split; [constructor; [discriminate|constructor]|].
      split.
      * intros _. rewrite entries_size_cons. unfold entries_size. simpl list_sum. lia.
      * split; [right; split; [lia|reflexivity]|reflexivity].
    + destruct (counter =? 0) eqn:Hc.
      * cbn [next] in Hrun. injection Hrun as <- <- <- <- <-.
        apply Nat.eqb_eq in Hc. subst counter.
        exists [], [nalu]. now_untaken.
      * injection Hrun as <- <- <- <- <-.
        apply Nat.eqb_neq in Hc.
        exists [], [nalu]. now_untaken.
  - cbn [stap_a_loop] in Hrun.
    destruct (Z.of_nat (length nalu) <=? avail)%Z eqn:Hfit.
    + destruct nalu as [|n0 t]; [discriminate|].
      cbn [getitem nth_error bind] in Hrun.
      unfold pack_H in Hrun. cbv zeta in Hrun.
      destruct (N.of_nat (length (n0 :: t)) <? 65536)%N; [|discriminate].
      cbn [bind] in Hrun.
      apply IH in Hrun.
      destruct Hrun as (taken & rest & Hsplit & Hcount & Hpay & Hhdr & Hne & Hsize & Hexit & Hnone).
      exists ((n0 :: t) :: taken), rest. apply Z.leb_le in Hfit.
      split; [cbn [app]; now rewrite <- Hsplit|].
      split; [cbn [length]; lia|].
      split; [rewrite Hpay; cbn [flat_map]; unfold stap_a_entry at 2;
              now rewrite <- !app_assoc|].
      split; [exact Hhdr|].
      split; [constructor; [discriminate|exact Hne]|].
      split.
      * intros _. rewrite entries_size_cons.
        destruct taken as [|n1 taken].
        -- unfold entries_size. simpl list_sum. lia.
        -- assert (Hs : (Z.of_nat (entries_size (n1 :: taken))
                         <= avail - Z.of_nat (LENGTH_FIELD_SIZE + length (n0 :: t)) + 2)%Z)
             by (apply Hsize; discriminate).
           unfold LENGTH_FIELD_SIZE in Hs. lia.
      * split; [|exact Hnone].
        right. destruct Hexit as [[Hz _]|[Hnz Hp]]; [lia|].
        split; [exact Hnz|exact Hp].
    + destruct (counter =? 0) eqn:Hc.
      * cbn [next] in Hrun. injection Hrun as <- <- <- <- <-.
        apply Nat.eqb_eq in Hc. subst counter.
        exists [], (nalu :: x :: it). now_untaken.
      * injection Hrun as <- <- <- <- <-.
        apply Nat.eqb_neq in Hc.
        exists [], (nalu :: x :: it). now_untaken.
Qed.

(** The aggregator returns its unit verbatim and leaves the iterator where
    the next unit is, or returns the STAP-A packet of at least two units. *)
Lemma packetize_stap_a_inv (data : bytes) (it : list bytes)
    (pkt : bytes) (nxt : option bytes) (it' : list bytes) :
  _packetize_stap_a data it = Ok (pkt, nxt, it') ->
  data <> []
  /\ ((pkt = data /\ pending nxt it' = it)
      \/ (exists group rest,
            2 <= length group
            /\ data :: it = group ++ rest
            /\ pending nxt it' = rest
            /\ pkt = stap_a_packet group
            /\ Forall (fun n => n <> []) group
            /\ entries_size group < PACKET_MAX))
  /\ (nxt = None -> it' = []).
Proof.
  unfold _packetize_stap_a. intro Hrun.
  destruct data as [|d0 t]; [discriminate|].
  split; [discriminate|].
  rewrite and_comm.
  cbn [getitem nth_error bind] in Hrun.
  destruct (stap_a_loop (d0 :: t) it _ _ 0 []) as [[[[[hdr counter] payload] nxt0] it0]|e|] eqn:Hloop;
    [|discriminate|discriminate].
  cbn [bind] in Hrun.
  apply stap_a_loop_inv in Hloop.
  destruct Hloop as (taken & rest & Hsplit & Hcount & Hpay & Hhdr & Hne & Hsize & Hexit & Hnone).
  cbn [Nat.add app] in Hcount, Hpay.
  destruct (counter <=? 1) eqn:Hc.
  - injection Hrun as <- <- <-. split; [exact Hnone|].
    left. split; [reflexivity|].
    apply Nat.leb_le in Hc.
    destruct Hexit as [[_ Hp]|[Hnz Hp]]; [exact Hp|].
    destruct taken as [|n1 [|n2 taken]]; cbn [length] in Hcount; try lia.
    cbn [app] in Hsplit. injection Hsplit as _ <-. exact Hp.
  - injection Hrun as <- <- <-. split; [exact Hnone|]. right.
    apply Nat.leb_gt in Hc.
    destruct Hexit as [[Hz _]|[_ Hp]]; [lia|].
    exists taken, rest.
    split; [lia|]. split; [exact Hsplit|]. split; [exact Hp|].
    split.
    + destruct taken as [|n1 taken]; [cbn [length] in Hcount; lia|].
      cbn [app] in Hsplit. injection Hsplit as <- _.
      unfold stap_a_packet, stap_a_header. cbn [hd]. now rewrite Hhdr, Hpay.
    + split; [exact Hne|].
      assert (taken <> []) by (intros ->; cbn [length] in Hcount; lia).
      specialize (Hsize H).
      change (Z.of_nat PACKET_MAX - Z.of_nat STAP_A_HEADER_SIZE)%Z
        with 1297%Z in Hsize.
      unfold PACKET_MAX. lia.
Qed.

(** Fields of the header byte after one update. *)
Lemma stap_header_step_fields (h : N) (nalu : bytes) :
  nri_of (stap_header_step h nalu) = N.max (nri_of h) (nri_of (hd 0%N nalu))
  /\ f_bit_of (stap_header_step h nalu)
     = N.lor (f_bit_of h) (f_bit_of (hd 0%N nalu))
  /\ nal_type_of (stap_header_step h nalu) = nal_type_of h.
Proof.
  unfold stap_header_step, nri_of, f_bit_of, nal_type_of.
  set (b := hd 0%N nalu). cbv zeta.
  assert (H1 : N.land (N.lor h (N.land b 128)) 96 = N.land h 96).
  { rewrite N.land_lor_distr_l, <- N.land_assoc.
    change (N.land 128 96) with 0%N.
    now rewrite N.land_0_r, N.lor_0_r. }
  rewrite H1.
  destruct (N.land h 96 <? N.land b 96)%N eqn:Hlt.
  - apply N.ltb_lt in Hlt.
    rewrite !N.land_lor_distr_l, <- !N.land_assoc.
    change (N.land 159 96) with 0%N. change (N.land 96 96) with 96%N.
    change (N.land 128 159) with 128%N. change (N.land 159 128) with 128%N.
    change (N.land 96 128) with 0%N. change (N.land 128 128) with 128%N.
    change (N.land 159 31) with 31%N. change (N.land 128 31) with 0%N.
    change (N.land 96 31) with 0%N.
    rewrite !N.land_0_r, !N.lor_0_r, N.lor_0_l.
    split; [rewrite N.max_r; [reflexivity|lia]|]. split; reflexivity.
  - apply N.ltb_ge in Hlt.
    rewrite H1, !N.land_lor_distr_l, <- !N.land_assoc.
    change (N.land 128 128) with 128%N. change (N.land 128 31) with 0%N.
    rewrite !N.land_0_r, !N.lor_0_r.
    split; [rewrite N.max_l; [reflexivity|lia]|]. split; reflexivity.
Qed.

Lemma stap_header_fold_fields (group : list bytes) :
  forall h,
    nri_of (fold_left stap_header_step group h) = N.max (nri_of h) (max_nri group)
    /\ f_bit_of (fold_left stap_header_step group h)
       = N.lor (f_bit_of h) (or_f_bit group)
    /\ nal_type_of (fold_left stap_header_step group h) = nal_type_of h.
Proof.
  induction group as [|nalu group IH]; intro h.
  - cbn. rewrite N.max_l by lia. rewrite N.lor_0_r. auto.
  - cbn [fold_left]. destruct (IH (stap_header_step h nalu)) as (Hn & Hf & Ht).
    destruct (stap_header_step_fields h nalu) as (Hn1 & Hf1 & Ht1).
    rewrite Hn, Hf, Ht, Hn1, Hf1, Ht1.
    unfold max_nri, or_f_bit. cbn [map fold_right].
    rewrite N.max_assoc, N.lor_assoc. auto.
Qed.

(** The header of an aggregate: type 24, the largest NRI, the OR of the F
    bits. *)
Lemma stap_a_header_fields (group : list bytes) :
  group <> [] ->
  nal_type_of (stap_a_header group) = 24%N
  /\ nri_of (stap_a_header group) = max_nri group
  /\ f_bit_of (stap_a_header group) = or_f_bit group.
Proof.
  intro Hne. destruct group as [|nalu group]; [congruence|].
  unfold stap_a_header. cbn [hd].
  set (d0 := hd 0%N nalu).
  destruct (stap_header_fold_fields (nalu :: group)
              (N.lor NAL_TYPE_STAP_A (N.land d0 224))) as (Hn & Hf & Ht).
  rewrite Hn, Hf, Ht.
  unfold nri_of, f_bit_of, nal_type_of, NAL_TYPE_STAP_A.
  rewrite !N.land_lor_distr_l, <- !N.land_assoc.
  change (N.land 24 96) with 0%N. change (N.land 224 96) with 96%N.
  change (N.land 24 128) with 0%N. change (N.land 224 128) with 128%N.
  change (N.land 24 31) with 24%N. change (N.land 224 31) with 0%N.
  rewrite N.land_0_r, N.lor_0_r, !N.lor_0_l.
  split; [reflexivity|].
  unfold max_nri, or_f_bit. cbn [map fold_right]. fold d0.
  unfold nri_of, f_bit_of.
  rewrite N.max_assoc, N.max_id, N.lor_assoc, N.lor_diag. auto.
Qed.

End StapAFacts.

(** C7.  When the aggregator returns a STAP-A packet (and not its unit
    verbatim), the packet aggregates the first units in front of it, two at
    least; the NRI field of its header byte is the maximum of [nalu[0] & 0x60]
    over the aggregated units and its F bit is the OR of their F bits. *)
Theorem stap_a_nri_law (data : bytes) (it : list bytes)
    (pkt : bytes) (nxt : option bytes) (it' : list bytes) :
  H264Encoder._packetize_stap_a data it = Ok (pkt, nxt, it') ->
  (pkt = data /\ pending nxt it' = it)
  \/ (exists group rest hdr,
        2 <= length group
        /\ data :: it = group ++ rest
        /\ pending nxt it' = rest
        /\ Forall (fun nalu => nalu <> []) group
        /\ pkt = hdr :: flat_map stap_a_entry group
        /\ nal_type_of hdr = 24%N
        /\ N.land hdr 0x60 = max_nri group
        /\ N.land hdr 0x80 = or_f_bit group).
Proof.
  intro Hrun. apply StapAFacts.packetize_stap_a_inv in Hrun.
  destruct Hrun as (_ & [Hverb|(group & rest & Hlen & Hsplit & Hp & Hpkt & Hall & _)] & _).
  - left. exact Hverb.
  - right. exists group, rest, (stap_a_header group).
    assert (Hne : group <> []) by (intros ->; cbn [length] in Hlen; lia).
    destruct (StapAFacts.stap_a_header_fields Hne) as (Ht & Hn & Hf).
    repeat (split; [assumption|]). exact Hf.
Qed.

(** Two tiny units aggregate: [67 AA] and [68 BB] go out as
    [78 00 02 67 AA 00 02 68 BB]. *)
Lemma stap_a_nri_law_witness :
  ([0x78; 0x00; 0x02; 0x67; 0xAA; 0x00; 0x02; 0x68; 0xBB]%N = [0x67; 0xAA]%N
   /\ pending None [] = [[0x68; 0xBB]%N])
  \/ (exists group rest hdr,
        2 <= length group
        /\ [0x67; 0xAA]%N :: [[0x68; 0xBB]%N] = group ++ rest
        /\ pending None [] = rest
        /\ Forall (fun nalu => nalu <> []) group
        /\ [0x78; 0x00; 0x02; 0x67; 0xAA; 0x00; 0x02; 0x68; 0xBB]%N
           = hdr :: flat_map stap_a_entry group
        /\ nal_type_of hdr = 24%N
        /\ N.land hdr 0x60 = max_nri group
        /\ N.land hdr 0x80 = or_f_bit group).
Proof.
  apply (@stap_a_nri_law [0x67; 0xAA]%N [[0x68; 0xBB]%N]).
  reflexivity.
Defined.

(** ** The packetizer driver *)

Module DriverFacts.
Import H264Encoder.

Lemma next_or_none_pending (it : list bytes) :
  pending (fst (next_or_none it)) (snd (next_or_none it)) = it
  /\ (fst (next_or_none it) = None -> snd (next_or_none it) = []).
Proof. destruct it; split; try reflexivity; discriminate. Qed.

(** The driver covers what is in front of it by emissions. *)
Lemma packetize_loop_inv (fuel : nat) :
  forall package it out res,
    (package = None -> it = []) ->
    packetize_loop fuel package it out = Ok res ->
    exists out',
      res = out ++ out' /\ packetization (pending package it) out'.
Proof.
  induction fuel as [|fuel IH]; intros package it out res Hwf Hrun.
  - destruct package as [p|]; [discriminate|].
    cbn in Hrun. injection Hrun as <-.
    exists []. rewrite app_nil_r. split; [reflexivity|].
    rewrite (Hwf eq_refl). constructor.
  - destruct package as [p|].
    2:{ cbn in Hrun. injection Hrun as <-.
        exists []. rewrite app_nil_r. split; [reflexivity|].
        rewrite (Hwf eq_refl). constructor. }
    cbn [packetize_loop] in Hrun.
    destruct (PACKET_MAX <? length p) eqn:Hbig.
    + apply Nat.ltb_lt in Hbig.
      destruct (_packetize_fu_a p) as [frags|e|] eqn:Hfu; try discriminate.
      cbn [bind] in Hrun.
      destruct (next_or_none_pending it) as [Hpend Hnone].
      destruct (next_or_none it) as [package' it2]. cbn [fst snd] in Hpend, Hnone.
      apply IH in Hrun; [|exact Hnone].
      destruct Hrun as (out' & -> & Hrest).
      exists (frags ++ out'). split; [now rewrite app_assoc|].
      rewrite Hpend in Hrest.
      apply (packetization_step (group := [p]) (rest := it)); [|exact Hrest].
      now apply emit_fu_a.
    + apply Nat.ltb_ge in Hbig.
      destruct (_packetize_stap_a p it) as [[[pkt nxt] it']|e|] eqn:Hstap;
        try discriminate.
      cbn [bind] in Hrun.
      apply StapAFacts.packetize_stap_a_inv in Hstap.
      destruct Hstap as (Hne & Hcases & Hnone).
      apply IH in Hrun; [|exact Hnone].
      destruct Hrun as (out' & -> & Hrest).
      exists ([pkt] ++ out'). split; [now rewrite app_assoc|].
      destruct Hcases as [[-> Hp]|(group & rest & Hlen & Hsplit & Hp & -> & Hall & Hsize)].
      * rewrite Hp in Hrest.
        apply (packetization_step (group := [p]) (rest := it)); [|exact Hrest].
        now apply emit_single.
      * rewrite Hp in Hrest. cbn [pending]. rewrite Hsplit.
        apply packetization_step; [|exact Hrest].
        now apply emit_stap_a.
Qed.

Lemma packetize_inv (packages out : list bytes) :
  _packetize packages = Ok out -> packetization packages out.
Proof.
  unfold _packetize. intro Hrun.
  destruct (next_or_none_pending packages) as [Hpend Hnone].
  destruct (next_or_none packages) as [package it]. cbn [fst snd] in Hpend, Hnone.
  apply packetize_loop_inv in Hrun; [|exact Hnone].
  destruct Hrun as (out' & -> & Hrest).
  now rewrite Hpend in Hrest.
Qed.

Lemma with_fu_headers_lengths (f0 f1 e0 e1 m0 m1 : N) (pieces : list bytes) :
  map (@length N) (with_fu_headers [f0; f1] [e0; e1] [m0; m1] pieces)
  = map (fun c => 2 + length c) pieces.
Proof.
  revert f0 f1. induction pieces as [|c pieces IH]; intros f0 f1; [reflexivity|].
  destruct pieces as [|c' pieces]; [reflexivity|].
  rewrite FuAFacts.with_fu_headers_cons by discriminate.
  cbn [map]. rewrite IH. reflexivity.
Qed.

(** No FU-A packet of a unit longer than one byte exceeds [PACKET_MAX]. *)
Lemma fu_a_size_bound (d0 : N) (rest : bytes) (fragments : list bytes) :
  rest <> [] ->
  _packetize_fu_a (d0 :: rest) = Ok fragments ->
  Forall (fun p => length p <= PACKET_MAX) fragments.
Proof.
  intros Hne Hrun.
  rewrite (FuAFacts.packetize_fu_a_spec d0 Hne) in Hrun. injection Hrun as <-.
  assert (Hp : 1 <= length rest) by (destruct rest; [congruence|simpl; lia]).
  destruct (FuAFacts.package_size_bounds Hp) as ((_ & Hq) & Hq1).
  pose proof (FuAFacts.sizes_left_total Hp) as Htot. cbv zeta in Htot.
  set (n := num_packets_of (length rest)) in *.
  apply Forall_map with (f := @length N) (P := fun s => s <= PACKET_MAX).
  rewrite with_fu_headers_lengths, <- (map_map (@length N) (fun s => 2 + s)).
  rewrite FuAFacts.chunks_sizes by lia.
  apply Forall_map. unfold sizes_left. apply Forall_app. split.
  - destruct (length rest mod n) as [|r] eqn:Hr; [constructor|].
    apply Forall_forall. intros s Hs. apply repeat_spec in Hs. subst s.
    unfold PACKET_MAX. lia.
  - apply Forall_forall. intros s Hs. apply repeat_spec in Hs. subst s.
    unfold PACKET_MAX. lia.
Qed.

Lemma stap_a_body_length (group : list bytes) :
  length (flat_map stap_a_entry group) = entries_size group.
Proof.
  induction group as [|nalu group IH]; [reflexivity|].
  cbn [flat_map]. rewrite length_app, IH. reflexivity.
Qed.

Lemma emission_size_bound (group payloads : list bytes) :
  emission group payloads ->
  Forall (fun p => length p <= PACKET_MAX) payloads.
Proof.
  destruct 1 as [nalu frags Hbig Hfu|nalu Hne Hsmall|group Hlen Hall Hsize].
  - destruct nalu as [|d0 rest]; [simpl in Hbig; lia|].
    apply (@fu_a_size_bound d0 rest); [|exact Hfu].
    intros ->. simpl in Hbig. unfold PACKET_MAX in Hbig. lia.
  - constructor; [exact Hsmall|constructor].
  - constructor; [|constructor].
    unfold stap_a_packet. cbn [length]. rewrite stap_a_body_length. lia.
Qed.

End DriverFacts.

(** C6.  The payloads that the driver returns cover the units in order, each
    step being the FU-A fragments of one unit longer than [PACKET_MAX], one
    unit returned verbatim, or one STAP-A packet over two units or more: no
    STAP-A packet is built over fewer than two units. *)
Theorem stap_a_minimum (packages out : list bytes) :
  H264Encoder._packetize packages = Ok out ->
  packetization packages out.
Proof.
  apply DriverFacts.packetize_inv.
Qed.

(** A unit of 1298 bytes does not fit with the STAP-A overhead and goes out
    verbatim; the two small ones behind it are aggregated. *)
Lemma stap_a_minimum_witness :
  packetization
    [repeat 0x41%N 1298; [0x67; 0xAA]%N; [0x68; 0xBB]%N]
    [repeat 0x41%N 1298;
     [0x78; 0x00; 0x02; 0x67; 0xAA; 0x00; 0x02; 0x68; 0xBB]%N].
Proof.
  apply (@stap_a_minimum [repeat 0x41%N 1298; [0x67; 0xAA]%N; [0x68; 0xBB]%N]).
  vm_compute. reflexivity.
Defined.

(** C2.  Every payload in the list that the driver returns, single NAL,
    STAP-A or FU-A, has at most [PACKET_MAX] = 1300 bytes. *)
Theorem payload_size_bound (packages out : list bytes) :
  H264Encoder._packetize packages = Ok out ->
  Forall (fun payload => length payload <= PACKET_MAX) out.
Proof.
  intro Hrun. apply DriverFacts.packetize_inv in Hrun.
  induction Hrun as [|group payloads rest out Hemit Hrest IH]; [constructor|].
  apply Forall_app. split; [|exact IH].
  now apply (@DriverFacts.emission_size_bound group).
Qed.

(** The 3000-byte unit of the fragmentation scenario followed by two small
    units: three fragments of 1002, 1002 and 1001 bytes and one STAP-A packet
    of 9. *)
Lemma payload_size_bound_witness :
  exists out,
    H264Encoder._packetize [nal_3000; [0x67; 0xAA]%N; [0x68; 0xBB]%N] = Ok out
    /\ map (@length N) out = [1002; 1002; 1001; 9]
    /\ Forall (fun payload => length payload <= PACKET_MAX) out.
Proof.
  destruct (H264Encoder._packetize [nal_3000; [0x67; 0xAA]%N; [0x68; 0xBB]%N])
    as [out| |] eqn:Hrun; try (vm_compute in Hrun; discriminate Hrun).
  exists out. split; [reflexivity|]. split.
  - vm_compute in Hrun. injection Hrun as <-. vm_compute. reflexivity.
  - exact (@payload_size_bound _ out Hrun).
Defined.

(** ** The start-code scanner *)

Module ScannerFacts.
Import Scanner.

(** The conditions look at the buffer from [i] on only. *)
Lemma differs3_app (pre suf : bytes) (k : nat) (x : N) :
  differs3 (pre ++ suf) (length pre + k) x = differs3 suf k x.
Proof.
  unfold differs3. rewrite <- !Nat.add_assoc, !getitem_app_r. reflexivity.
Qed.

Lemma differs4_app (pre suf : bytes) (k : nat) :
  differs4 (pre ++ suf) (length pre + k) = differs4 suf k.
Proof.
  unfold differs4. rewrite <- !Nat.add_assoc, !getitem_app_r. reflexivity.
Qed.

Lemma no_start_code_app (pre suf : bytes) (k : nat) :
  no_start_code (pre ++ suf) (length pre + k) = no_start_code suf k.
Proof.
  unfold no_start_code. now rewrite differs3_app, differs4_app.
Qed.

Lemma no_nal_end_app (pre suf : bytes) (k : nat) :
  no_nal_end (pre ++ suf) (length pre + k) = no_nal_end suf k.
Proof.
  unfold no_nal_end. now rewrite !differs3_app.
Qed.

Lemma find_nal_end_app (pre suf : bytes) (fuel : nat) :
  forall k,
    find_nal_end fuel (pre ++ suf) (length pre + k)
    = shift_end (length pre) (find_nal_end fuel suf k).
Proof.
  induction fuel as [|fuel IH]; intro k; cbn [find_nal_end];
    rewrite no_nal_end_app;
    destruct (no_nal_end suf k) as [[|]|e|]; cbn [bind shift_end]; try reflexivity.
  rewrite length_app.
  replace (length pre + length suf <=? length pre + k + 1 + 3)
    with (length suf <=? k + 1 + 3)
    by (destruct (Nat.leb_spec (length suf) (k + 1 + 3));
        symmetry; [apply Nat.leb_le|apply Nat.leb_gt]; lia).
  destruct (length suf <=? k + 1 + 3); [reflexivity|].
  rewrite <- Nat.add_assoc. apply IH.
Qed.

Lemma skip_leading_app (pre suf : bytes) (fuel : nat) :
  forall k,
    skip_leading fuel (pre ++ suf) (length pre + k)
    = shift_start (length pre) (skip_leading fuel suf k).
Proof.
  induction fuel as [|fuel IH]; intro k; cbn [skip_leading];
    rewrite no_start_code_app;
    destruct (no_start_code suf k) as [[|]|e|]; cbn [bind shift_start]; try reflexivity.
  rewrite length_app.
  replace (length pre + length suf <=? length pre + k + 1 + 4)
    with (length suf <=? k + 1 + 4)
    by (destruct (Nat.leb_spec (length suf) (k + 1 + 4));
        symmetry; [apply Nat.leb_le|apply Nat.leb_gt]; lia).
  destruct (length suf <=? k + 1 + 4); [reflexivity|].
  rewrite <- Nat.add_assoc. apply IH.
Qed.

(** One step of the second inner loop at the head of a buffer. *)
Lemma find_nal_end_head (fuel : nat) (x : N) (l : bytes) :
  find_nal_end (S fuel) (x :: l) 0
  = (c <- no_nal_end (x :: l) 0 ;;
     if c then
       if length l <=? 3 then Ok (inr tt)
       else shift_end 1 (find_nal_end fuel l 0)
     else Ok (inl 0)).
Proof.
  cbn [find_nal_end].
  destruct (no_nal_end (x :: l) 0) as [[|]|e|]; cbn [bind]; try reflexivity.
  cbn [length Nat.add Nat.leb].
  destruct (length l <=? 3); [reflexivity|].
  exact (find_nal_end_app [x] l fuel 0).
Qed.

Lemma no_nal_end_nil (k : nat) : no_nal_end [] k = Raise IndexError.
Proof.
  unfold no_nal_end, and_then, differs3, getitem.
  now rewrite (proj2 (nth_error_None (@nil N) k)) by (simpl; lia).
Qed.

(** The inner loops need no more fuel than the buffer has bytes. *)
Lemma find_nal_end_fuel (l : bytes) :
  forall fuel fuel',
    length l <= fuel -> length l <= fuel' ->
    find_nal_end fuel l 0 = find_nal_end fuel' l 0.
Proof.
  induction l as [|x l IH]; intros fuel fuel' Hf Hf'.
  - destruct fuel, fuel'; cbn [find_nal_end]; now rewrite no_nal_end_nil.
  - destruct fuel as [|fuel]; [simpl in Hf; lia|].
    destruct fuel' as [|fuel']; [simpl in Hf'; lia|].
    rewrite !find_nal_end_head.
    rewrite (IH fuel fuel') by (simpl in *; lia). reflexivity.
Qed.

(** At a four-byte start code the first inner loop stops at once, and the
    pass goes on to look for the end of the unit behind it. *)
Lemma body_at_start_code (pre nalu_post : bytes) :
  body (pre ++ START_CODE ++ nalu_post) (length pre)
  = match find_nal_end (length (pre ++ START_CODE ++ nalu_post)) nalu_post 0 with
    | Ok (inl e) => Yield (firstn e nalu_post) (length pre + 4 + e)
    | Ok (inr _) => YieldReturn nalu_post
    | Raise e => Fail e
    | OutOfFuel => Stuck
    end.
Proof.
  unfold body.
  set (buf := pre ++ START_CODE ++ nalu_post).
  assert (Hskip : skip_leading (length buf) buf (length pre) = Ok (Some (length pre))).
  { rewrite <- (Nat.add_0_r (length pre)) at 1. unfold buf.
    rewrite skip_leading_app.
    destruct (length (pre ++ START_CODE ++ nalu_post));
      cbn; now rewrite Nat.add_0_r. }
  rewrite Hskip. cbn [lift].
  assert (Hd : differs3 buf (length pre) 1 = Ok true).
  { rewrite <- (Nat.add_0_r (length pre)). unfold buf.
    rewrite differs3_app. reflexivity. }
  rewrite Hd. cbn [lift].
  assert (Hbuf : buf = (pre ++ START_CODE) ++ nalu_post)
    by (unfold buf; now rewrite <- app_assoc).
  assert (Hpos : length pre + 1 + 3 = length (pre ++ START_CODE))
    by (rewrite length_app; simpl; lia).
  rewrite Hpos.
  rewrite <- (Nat.add_0_r (length (pre ++ START_CODE))) at 1.
  rewrite Hbuf at 2. rewrite find_nal_end_app.
  destruct (find_nal_end (length buf) nalu_post 0) as [[e|[]]|e|];
    cbn [shift_end lift]; try reflexivity.
  - f_equal.
    + rewrite Hbuf. unfold slice. rewrite skipn_app_length. f_equal. lia.
    + rewrite length_app. simpl. lia.
  - f_equal. rewrite Hbuf at 1. unfold slice. rewrite skipn_app_length.
    apply firstn_all2. rewrite Hbuf, length_app. lia.
Qed.

Lemma annex_b_cons (nalu : bytes) (nalus : list bytes) :
  annex_b (nalu :: nalus) = START_CODE ++ nalu ++ annex_b nalus.
Proof. unfold annex_b. cbn [flat_map]. now rewrite <- app_assoc. Qed.

Lemma rescannable_nonempty (nalus : list bytes) :
  rescannable nalus -> exists nalu nalus', nalus = nalu :: nalus'.
Proof. destruct 1; eauto. Qed.

(** The scanner finds a rescannable sequence again behind its start
    codes. *)
Lemma split_loop_annex_b (nalus : list bytes) :
  rescannable nalus ->
  forall pre fuel,
    length nalus <= fuel ->
    H264Encoder.split_loop fuel (pre ++ annex_b nalus) (length pre)
    = (nalus, Returned).
Proof.
  induction 1 as [nalu Hlast|nalu nalus Hmid Hrest IH]; intros pre fuel Hfuel.
  - destruct fuel as [|fuel]; [simpl in Hfuel; lia|].
    cbn [H264Encoder.split_loop]. rewrite annex_b_cons. cbn [annex_b flat_map].
    rewrite body_at_start_code, app_nil_r.
    rewrite Hlast by (rewrite !length_app; lia). reflexivity.
  - destruct fuel as [|fuel]; [simpl in Hfuel; lia|].
    cbn [H264Encoder.split_loop]. rewrite annex_b_cons.
    destruct (rescannable_nonempty Hrest) as (n2 & nalus' & ->).
    rewrite body_at_start_code.
    rewrite (annex_b_cons n2).
    rewrite Hmid by (rewrite !length_app; lia).
    rewrite firstn_app_length.
    rewrite <- (annex_b_cons n2).
    replace (pre ++ START_CODE ++ nalu ++ annex_b (n2 :: nalus'))
      with ((pre ++ START_CODE ++ nalu) ++ annex_b (n2 :: nalus'))
      by (now rewrite <- !app_assoc).
    replace (length pre + 4 + length nalu)
      with (length (pre ++ START_CODE ++ nalu))
      by (rewrite !length_app; simpl; lia).
    rewrite IH by (simpl in Hfuel |- *; lia).
    reflexivity.
Qed.

Lemma annex_b_length (nalus : list bytes) :
  length nalus <= length (annex_b nalus).
Proof.
  induction nalus as [|nalu nalus IH]; [simpl; lia|].
  rewrite annex_b_cons, !length_app. simpl. lia.
Qed.

Lemma split_bitstream_annex_b (nalus : list bytes) :
  rescannable nalus ->
  H264Encoder._split_bitstream (annex_b nalus) = (nalus, Returned).
Proof.
  intro H. unfold H264Encoder._split_bitstream.
  apply (split_loop_annex_b H []).
  pose proof (annex_b_length nalus). lia.
Qed.

Lemma zero_free_tail (x : N) (l : bytes) : zero_free (x :: l) -> zero_free l.
Proof.
  intros (H0 & H1 & Hl). repeat split.
  - intros (pre & suf & ->). apply H0. now exists (x :: pre), suf.
  - intros (pre & suf & ->). apply H1. now exists (x :: pre), suf.
  - destruct l as [|y l]; [discriminate|exact Hl].
Qed.

(** Inside a zero-free unit the scanner sees no end of unit, whatever
    follows the unit, and reads no byte behind it to find that out. *)
Lemma zero_free_window (x : N) (l post : bytes) :
  zero_free (x :: l) -> no_nal_end ((x :: l) ++ post) 0 = Ok true.
Proof.
  intros (H0 & H1 & Hl).
  unfold no_nal_end, and_then, differs3, getitem.
  cbn [app nth_error Nat.add bind].
  destruct (N.eqb_spec x 0) as [->|Hx]; cbn [negb bind]; [|reflexivity].
  destruct l as [|y l]; [exfalso; apply Hl; reflexivity|].
  cbn [app nth_error bind].
  destruct (N.eqb_spec y 0) as [->|Hy]; cbn [negb bind]; [|reflexivity].
  destruct l as [|z l]; [exfalso; apply Hl; reflexivity|].
  cbn [app nth_error bind].
  destruct (N.eqb_spec z 0) as [->|Hz0];
    [exfalso; apply H0; now exists [], l|].
  destruct (N.eqb_spec z 1) as [->|Hz1];
    [exfalso; apply H1; now exists [], l|].
  reflexivity.
Qed.

Lemma zero_free_mid_ok (nalu : bytes) : zero_free nalu -> mid_ok nalu.
Proof.
  induction nalu as [|x l IH]; intros Hz fuel post Hfuel.
  - destruct fuel; reflexivity.
  - destruct fuel as [|fuel]; [simpl in Hfuel; lia|].
    change ((x :: l) ++ START_CODE ++ post) with (x :: l ++ START_CODE ++ post).
    rewrite find_nal_end_head.
    change (x :: l ++ START_CODE ++ post) with ((x :: l) ++ START_CODE ++ post).
    rewrite (zero_free_window _ Hz). cbn [bind].
    replace (length (l ++ START_CODE ++ post) <=? 3) with false
      by (symmetry; apply Nat.leb_gt; rewrite !length_app; simpl; lia).
    rewrite (IH (zero_free_tail Hz)) by (simpl in Hfuel; lia).
    reflexivity.
Qed.

Lemma zero_free_last_ok (nalu : bytes) :
  nalu <> [] -> zero_free nalu -> last_ok nalu.
Proof.
  induction nalu as [|x l IH]; intros Hne Hz fuel Hfuel; [congruence|].
  destruct fuel as [|fuel]; [simpl in Hfuel; lia|].
  rewrite find_nal_end_head.
  pose proof (zero_free_window [] Hz) as Hw. rewrite app_nil_r in Hw.
  rewrite Hw. cbn [bind].
  destruct (Nat.leb_spec (length l) 3) as [Hshort|Hlong]; [reflexivity|].
  rewrite IH; [reflexivity| |exact (zero_free_tail Hz)|simpl in Hfuel; lia].
  intros ->. simpl in Hlong. lia.
Qed.

Lemma scannable_rescannable (nalus : list bytes) :
  nalus <> [] -> Forall scannable nalus -> rescannable nalus.
Proof.
  induction nalus as [|nalu nalus IH]; intros Hne Hall; [congruence|].
  inversion Hall as [|? ? [Hn Hz] Hall']; subst.
  destruct nalus as [|n2 nalus].
  - apply rescannable_last. now apply zero_free_last_ok.
  - apply rescannable_cons.
    + now apply zero_free_mid_ok.
    + apply IH; [discriminate|exact Hall'].
Qed.

Lemma prefixb_app (pat suf : bytes) : prefixb pat (pat ++ suf) = true.
Proof.
  induction pat as [|p pat IH]; [reflexivity|].
  cbn [app prefixb]. now rewrite N.eqb_refl, IH.
Qed.

Lemma infixb_complete (pat l : bytes) : has_infix pat l -> infixb pat l = true.
Proof.
  intros (pre & suf & ->). induction pre as [|x pre IH].
  - destruct (pat ++ suf) eqn:E; cbn [app infixb]; rewrite <- ?E;
      now rewrite prefixb_app.
  - cbn [app infixb]. rewrite IH. apply orb_true_r.
Qed.

Lemma infixb_false (pat l : bytes) : infixb pat l = false -> ~ has_infix pat l.
Proof.
  intros Hb Hi. apply infixb_complete in Hi. congruence.
Qed.

(** The pass-through scanner spins on a buffer of fewer than four bytes. *)
Lemma packer_split_loop_short (buf : bytes) (fuel i : nat) :
  length buf < 4 -> H264Packer.split_loop fuel buf i = ([], Running).
Proof.
  intro Hshort. induction fuel as [|fuel IH]; [reflexivity|].
  cbn [H264Packer.split_loop].
  replace (1 + 3 <=? length buf) with false
    by (symmetry; apply Nat.leb_gt; lia).
  exact IH.
Qed.

(** On four bytes or more the two scanners make the same passes. *)
Lemma packer_split_loop_long (buf : bytes) (fuel : nat) :
  4 <= length buf ->
  forall i, H264Packer.split_loop fuel buf i = H264Encoder.split_loop fuel buf i.
Proof.
  intro Hlong. induction fuel as [|fuel IH]; intro i; [reflexivity|].
  cbn [H264Packer.split_loop H264Encoder.split_loop].
  replace (1 + 3 <=? length buf) with true
    by (symmetry; apply Nat.leb_le; lia).
  destruct (body buf i); try reflexivity.
  now rewrite IH.
Qed.

End ScannerFacts.

(** C9, as the claim states it, fails on a unit that ends with a zero byte:
    [67 00] holds no start code, but behind it the zero and the start code
    read [00 00 00], and the scanner yields [67]. *)
Lemma scanner_idempotence_counterexample :
  ~ (forall nalus,
        Forall (fun nalu => ~ has_infix [0; 0; 1]%N nalu
                            /\ ~ has_infix START_CODE nalu) nalus ->
        H264Encoder._split_bitstream (annex_b nalus) = (nalus, Returned)).
Proof.
  intro H.
  specialize (H [[0x67; 0x00]%N; [0x68]%N]).
  assert (Hshort : forall pat nalu,
             length nalu < length pat -> ~ has_infix pat nalu).
  { intros pat nalu Hlen (pre & suf & Heq).
    apply (f_equal (@length N)) in Heq. rewrite !length_app in Heq. lia. }
  assert (Hscan : H264Encoder._split_bitstream
                    (annex_b [[0x67; 0x00]%N; [0x68]%N])
                  = ([[0x67]%N; [0x68]%N], Returned)) by reflexivity.
  rewrite H in Hscan; [discriminate Hscan|].
  repeat constructor; apply Hshort; simpl; lia.
Qed.

(** C9 (amended).  For every non-empty sequence of NAL units, each of them
    non-empty, with no [00 00 00] and no [00 00 01] inside and no zero byte
    at its end, the scanner run over
    [00 00 00 01 ++ N1 ++ 00 00 00 01 ++ N2 ++ ...] yields exactly
    [N1, N2, ...] and returns. *)
Theorem scanner_idempotence (nalus : list bytes) :
  nalus <> [] ->
  Forall scannable nalus ->
  H264Encoder._split_bitstream (annex_b nalus) = (nalus, Returned).
Proof.
  intros Hne Hall.
  apply ScannerFacts.split_bitstream_annex_b.
  now apply ScannerFacts.scannable_rescannable.
Qed.

(** The single small unit and the pair of tiny units of the scenarios. *)
Lemma scanner_idempotence_witness :
  H264Encoder._split_bitstream
    (annex_b [[0x67; 0x42; 0x00; 0x1E]%N; [0x67; 0xAA]%N; [0x68; 0xBB]%N])
  = ([[0x67; 0x42; 0x00; 0x1E]%N; [0x67; 0xAA]%N; [0x68; 0xBB]%N], Returned).
Proof.
  apply (@scanner_idempotence
           [[0x67; 0x42; 0x00; 0x1E]%N; [0x67; 0xAA]%N; [0x68; 0xBB]%N]).
  - discriminate.
  - repeat constructor; try discriminate;
      apply ScannerFacts.infixb_false; reflexivity.
Defined.

(** C3, at the buffers on which the code departs from it.  On the empty
    buffer the codec-backed scanner raises [IndexError] at [buf[0]], and the
    pass-through scanner, whose guard [len(buf) >= 1 + 3] has no [else],
    goes round [while True] for ever: whatever the number of passes it is
    given, it is still running and has yielded nothing.  A buffer that ends
    with a start code makes both raise [IndexError]. *)
Theorem split_bitstream_short_buffer :
  H264Encoder._split_bitstream [] = ([], Raised IndexError)
  /\ (forall fuel, H264Packer._split_bitstream fuel [] = ([], Running))
  /\ H264Encoder._split_bitstream START_CODE = ([], Raised IndexError)
  /\ (forall fuel,
        H264Packer._split_bitstream (S fuel) START_CODE
        = ([], Raised IndexError)).
Proof.
  split; [reflexivity|]. split.
  - intro fuel. apply ScannerFacts.packer_split_loop_short. simpl. lia.
  - split; [reflexivity|]. intro fuel. reflexivity.
Qed.

(** ** What the scanner yields can be scanned again *)

Module RescanFacts.
Import Scanner.

Lemma no_nal_end_out_of_range (l : bytes) (k : nat) :
  length l <= k -> no_nal_end l k = Raise IndexError.
Proof.
  intro H. unfold no_nal_end, and_then, differs3, getitem.
  now rewrite (proj2 (nth_error_None l k) H).
Qed.

Lemma find_nal_end_in_range (fuel : nat) (l : bytes) (k : nat) (r : nat + unit) :
  find_nal_end fuel l k = Ok r -> k < length l.
Proof.
  intro H. destruct (le_lt_dec (length l) k) as [Hout|Hin]; [|exact Hin].
  destruct fuel; cbn [find_nal_end] in H;
    rewrite (no_nal_end_out_of_range _ Hout) in H; discriminate.
Qed.

Lemma find_nal_end_skipn (fuel : nat) (buf : bytes) (s : nat) :
  s <= length buf ->
  find_nal_end fuel buf s = shift_end s (find_nal_end fuel (skipn s buf) 0).
Proof.
  intro Hs.
  pose proof (find_nal_end_app := ScannerFacts.find_nal_end_app
                (firstn s buf) (skipn s buf) fuel 0).
  rewrite firstn_skipn, length_firstn, Nat.min_l, Nat.add_0_r in find_nal_end_app
    by exact Hs.
  exact find_nal_end_app.
Qed.

(** Where the second inner loop stops normally, the buffer reads
    [00 00 00] or [00 00 01]. *)
Lemma find_nal_end_inl (fuel : nat) (l : bytes) :
  forall k e,
    find_nal_end fuel l k = Ok (inl e) -> no_nal_end l e = Ok false.
Proof.
  induction fuel as [|fuel IH]; intros k e H; cbn [find_nal_end] in H;
    destruct (no_nal_end l k) as [[|]|err|] eqn:Hc; cbn [bind] in H;
    try discriminate; try (injection H as <-; exact Hc).
  destruct (length l <=? k + 1 + 3); [discriminate|].
  exact (IH _ _ H).
Qed.

Lemma no_nal_end_false (l : bytes) :
  no_nal_end l 0 = Ok false -> exists t rest, l = 0%N :: 0%N :: t :: rest.
Proof.
  unfold no_nal_end, and_then, differs3, getitem.
  destruct l as [|a [|b [|c rest]]]; cbn [nth_error Nat.add bind];
    try discriminate;
    destruct (N.eqb_spec a 0) as [->|Ha]; cbn [negb bind]; try discriminate;
    try (destruct (N.eqb_spec b 0) as [->|Hb]; cbn [negb bind]; try discriminate).
  intros _. eauto.
Qed.

(** The scan of a non-empty unit up to its end, one byte further. *)
Lemma find_nal_end_step (fuel : nat) (x : N) (l post : bytes) (n : nat) :
  find_nal_end fuel ((x :: l) ++ post) 0 = Ok (inl (S n)) ->
  exists fuel',
    fuel = S fuel'
    /\ no_nal_end ((x :: l) ++ post) 0 = Ok true
    /\ find_nal_end fuel' (l ++ post) 0 = Ok (inl n).
Proof.
  intro H. destruct fuel as [|fuel].
  - cbn [find_nal_end] in H.
    destruct (no_nal_end ((x :: l) ++ post) 0) as [[|]|err|];
      cbn [bind] in H; discriminate.
  - exists fuel. split; [reflexivity|].
    change ((x :: l) ++ post) with (x :: l ++ post) in *.
    rewrite ScannerFacts.find_nal_end_head in H.
    destruct (no_nal_end (x :: l ++ post) 0) as [[|]|err|];
      cbn [bind] in H; try discriminate.
    split; [reflexivity|].
    destruct (length (l ++ post) <=? 3); [discriminate|].
    destruct (find_nal_end fuel (l ++ post) 0) as [[e|[]]|err|];
      cbn [shift_end] in H; try discriminate.
    injection H as H. f_equal. f_equal. lia.
Qed.

(** The three bytes that the condition reads in front of [00 00] do not
    depend on what is behind the two zeros. *)
Lemma no_nal_end_before_zeros (x : N) (l post post' : bytes) :
  no_nal_end ((x :: l) ++ 0%N :: 0%N :: post) 0
  = no_nal_end ((x :: l) ++ 0%N :: 0%N :: post') 0.
Proof.
  destruct l as [|y [|z l]]; reflexivity.
Qed.

(** When the unit goes on in front of [00 00], it does so without the two
    zeros being read. *)
Lemma no_nal_end_without_zeros (x : N) (l post : bytes) :
  no_nal_end ((x :: l) ++ 0%N :: 0%N :: post) 0 = Ok true ->
  no_nal_end (x :: l) 0 = Ok true.
Proof.
  unfold no_nal_end, and_then, differs3, getitem.
  destruct l as [|y [|z l]]; cbn [app nth_error Nat.add bind];
    destruct (N.eqb_spec x 0) as [->|Hx]; cbn [negb bind N.eqb];
    try discriminate; try reflexivity;
    try (destruct (N.eqb_spec y 0) as [->|Hy]; cbn [negb bind N.eqb];
         try discriminate; try reflexivity);
    auto.
Qed.

Lemma mid_ok_from_scan (nalu : bytes) :
  forall fuel post,
    find_nal_end fuel (nalu ++ 0%N :: 0%N :: post) 0 = Ok (inl (length nalu)) ->
    mid_ok nalu.
Proof.
  induction nalu as [|x l IH]; intros fuel post Hscan fuel2 post2 Hfuel2.
  - destruct fuel2; reflexivity.
  - cbn [length] in Hscan. apply find_nal_end_step in Hscan.
    destruct Hscan as (fuel' & -> & Hc & Hrest).
    destruct fuel2 as [|fuel2]; [simpl in Hfuel2; lia|].
    change ((x :: l) ++ START_CODE ++ post2)
      with (x :: l ++ START_CODE ++ post2).
    rewrite ScannerFacts.find_nal_end_head.
    change (x :: l ++ START_CODE ++ post2)
      with ((x :: l) ++ 0%N :: 0%N :: [0; 1]%N ++ post2).
    rewrite (no_nal_end_before_zeros x l _ post), Hc. cbn [bind].
    replace (length (l ++ START_CODE ++ post2) <=? 3) with false
      by (symmetry; apply Nat.leb_gt; rewrite !length_app; simpl; lia).
    rewrite (IH _ _ Hrest) by (simpl in Hfuel2; lia).
    reflexivity.
Qed.

Lemma last_ok_from_scan (nalu : bytes) :
  nalu <> [] ->
  forall fuel post,
    find_nal_end fuel (nalu ++ 0%N :: 0%N :: post) 0 = Ok (inl (length nalu)) ->
    last_ok nalu.
Proof.
  induction nalu as [|x l IH]; intros Hne fuel post Hscan fuel2 Hfuel2;
    [congruence|].
  cbn [length] in Hscan. apply find_nal_end_step in Hscan.
  destruct Hscan as (fuel' & -> & Hc & Hrest).
  destruct fuel2 as [|fuel2]; [simpl in Hfuel2; lia|].
  rewrite ScannerFacts.find_nal_end_head.
  rewrite (no_nal_end_without_zeros _ _ _ Hc). cbn [bind].
  destruct (Nat.leb_spec (length l) 3) as [Hshort|Hlong]; [reflexivity|].
  rewrite (IH) with (fuel := fuel') (post := post);
    [reflexivity| |exact Hrest|simpl in Hfuel2; lia].
  intros ->. simpl in Hlong. lia.
Qed.

Lemma last_ok_from_end (nalu : bytes) (fuel : nat) :
  length nalu <= fuel ->
  find_nal_end fuel nalu 0 = Ok (inr tt) ->
  last_ok nalu.
Proof.
  intros Hfuel Hscan fuel2 Hfuel2.
  now rewrite (ScannerFacts.find_nal_end_fuel nalu Hfuel2 Hfuel).
Qed.

(** A pass that yields and goes on has found the unit in front of
    [00 00]. *)
Lemma body_yield_inv (buf : bytes) (i i' : nat) (nalu : bytes) :
  body buf i = Yield nalu i' ->
  (exists a b, nalu = slice buf a b)
  /\ exists post,
      find_nal_end (length buf) (nalu ++ 0%N :: 0%N :: post) 0
      = Ok (inl (length nalu)).
Proof.
  unfold body. intro H.
  destruct (skip_leading (length buf) buf i) as [[i0|]|err|];
    cbn [lift] in H; try discriminate.
  destruct (differs3 buf i0 1) as [c|err|]; cbn [lift] in H; try discriminate.
  set (s := (if c then i0 + 1 else i0) + 3) in *.
  destruct (find_nal_end (length buf) buf s) as [[e|[]]|err|] eqn:Hfind;
    cbn [lift] in H; try discriminate.
  injection H as <- <-.
  split; [eauto|].
  pose proof (find_nal_end_in_range _ _ _ Hfind) as Hs.
  rewrite find_nal_end_skipn in Hfind by lia.
  destruct (find_nal_end (length buf) (skipn s buf) 0) as [[k|[]]|err|] eqn:Hsuf;
    cbn [shift_end] in Hfind; try discriminate.
  injection Hfind as <-.
  unfold slice. replace (s + k - s) with k by lia.
  set (suf := skipn s buf) in *.
  pose proof (find_nal_end_inl _ _ _ Hsuf) as Hend.
  assert (Hk : k <= length suf).
  { destruct (le_lt_dec k (length suf)) as [Hle|Hgt]; [exact Hle|].
    rewrite no_nal_end_out_of_range in Hend by lia. discriminate. }
  assert (Hlen : length (firstn k suf) = k)
    by (rewrite length_firstn; lia).
  assert (Hend' : no_nal_end (skipn k suf) 0 = Ok false).
  { pose proof (ScannerFacts.no_nal_end_app (firstn k suf) (skipn k suf) 0) as E.
    rewrite firstn_skipn, Hlen, Nat.add_0_r in E. rewrite <- E. exact Hend. }
  apply no_nal_end_false in Hend'. destruct Hend' as (t & rest & Hpost).
  exists (t :: rest).
  rewrite <- Hpost, firstn_skipn, Hlen. exact Hsuf.
Qed.

(** A pass that yields and returns has yielded the rest of the buffer. *)
Lemma body_yield_return_inv (buf : bytes) (i : nat) (nalu : bytes) :
  body buf i = YieldReturn nalu ->
  (exists a b, nalu = slice buf a b) /\ last_ok nalu.
Proof.
  unfold body. intro H.
  destruct (skip_leading (length buf) buf i) as [[i0|]|err|];
    cbn [lift] in H; try discriminate.
  destruct (differs3 buf i0 1) as [c|err|]; cbn [lift] in H; try discriminate.
  set (s := (if c then i0 + 1 else i0) + 3) in *.
  destruct (find_nal_end (length buf) buf s) as [[e|[]]|err|] eqn:Hfind;
    cbn [lift] in H; try discriminate.
  injection H as <-.
  split; [eauto|].
  pose proof (find_nal_end_in_range _ _ _ Hfind) as Hs.
  rewrite find_nal_end_skipn in Hfind by lia.
  unfold slice. rewrite firstn_all2 by (rewrite length_skipn; lia).
  apply last_ok_from_end with (fuel := length buf).
  - rewrite length_skipn. lia.
  - destruct (find_nal_end (length buf) (skipn s buf) 0) as [[k|[]]|err|];
      cbn [shift_end] in Hfind; try discriminate. reflexivity.
Qed.

(** The units of a scan that returned are slices of the buffer and, when
    none of them is empty, can be scanned again. *)
Lemma split_loop_rescannable (fuel : nat) (buf : bytes) :
  forall i nalus,
    H264Encoder.split_loop fuel buf i = (nalus, Returned) ->
    Forall (fun nalu => exists a b, nalu = slice buf a b) nalus
    /\ (Forall (fun nalu => nalu <> []) nalus ->
        nalus = [] \/ rescannable nalus).
Proof.
  induction fuel as [|fuel IH]; intros i nalus Hrun; [discriminate|].
  cbn [H264Encoder.split_loop] in Hrun.
  destruct (body buf i) as [nalu i'|nalu| |err|] eqn:Hbody; try discriminate.
  - destruct (H264Encoder.split_loop fuel buf i') as [nalus' e'] eqn:Hrest.
    unfold yield in Hrun. cbn [fst snd] in Hrun.
    injection Hrun as <- ->.
    destruct (IH _ _ Hrest) as [Hsl Hre].
    destruct (body_yield_inv _ _ Hbody) as [Hslice [post Hscan]].
    split; [constructor; assumption|].
    intro Hne. inversion Hne as [|? ? Hn Hne']; subst.
    right. destruct (Hre Hne') as [->|Hres].
    + apply rescannable_last. exact (last_ok_from_scan Hn _ _ Hscan).
    + apply rescannable_cons; [|exact Hres].
      exact (mid_ok_from_scan _ _ _ Hscan).
  - injection Hrun as <-.
    destruct (body_yield_return_inv _ _ Hbody) as [Hslice Hlast].
    split; [constructor; [assumption|constructor]|].
    intros _. right. now apply rescannable_last.
  - injection Hrun as <-. split; [constructor|]. intros _. now left.
Qed.

Lemma wf_bytes_slice (buf : bytes) (a b : nat) :
  wf_bytes buf -> wf_bytes (slice buf a b).
Proof.
  unfold wf_bytes, slice. intro H.
  rewrite <- (firstn_skipn a buf) in H. apply Forall_app in H.
  destruct H as [_ H].
  rewrite <- (firstn_skipn (b - a) (skipn a buf)) in H.
  apply Forall_app in H. tauto.
Qed.

End RescanFacts.

(** ** The codec-backed scanner always stops *)

Module TerminationFacts.
Import Scanner.

Lemma differs3_not_stuck (buf : bytes) (i : nat) (x : N) :
  differs3 buf i x <> OutOfFuel.
Proof.
  unfold differs3, getitem.
  destruct (nth_error buf i) as [b0|]; cbn [bind]; [|discriminate].
  destruct (negb (b0 =? 0)%N); [discriminate|].
  destruct (nth_error buf (i + 1)) as [b1|]; cbn [bind]; [|discriminate].
  destruct (negb (b1 =? 0)%N); [discriminate|].
  destruct (nth_error buf (i + 2)) as [b2|]; cbn [bind]; discriminate.
Qed.

Lemma differs4_not_stuck (buf : bytes) (i : nat) :
  differs4 buf i <> OutOfFuel.
Proof.
  unfold differs4, getitem.
  destruct (nth_error buf i) as [b0|]; cbn [bind]; [|discriminate].
  destruct (negb (b0 =? 0)%N); [discriminate|].
  destruct (nth_error buf (i + 1)) as [b1|]; cbn [bind]; [|discriminate].
  destruct (negb (b1 =? 0)%N); [discriminate|].
  destruct (nth_error buf (i + 2)) as [b2|]; cbn [bind]; [|discriminate].
  destruct (negb (b2 =? 0)%N); [discriminate|].
  destruct (nth_error buf (i + 3)) as [b3|]; cbn [bind]; discriminate.
Qed.

Lemma no_start_code_not_stuck (buf : bytes) (i : nat) :
  no_start_code buf i <> OutOfFuel.
Proof.
  unfold no_start_code, and_then.
  pose proof (differs3_not_stuck buf i 1) as H3.
  pose proof (differs4_not_stuck buf i) as H4.
  destruct (differs3 buf i 1) as [[|]|e|]; cbn [bind];
    try discriminate; congruence.
Qed.

Lemma no_nal_end_not_stuck (buf : bytes) (i : nat) :
  no_nal_end buf i <> OutOfFuel.
Proof.
  unfold no_nal_end, and_then.
  pose proof (differs3_not_stuck buf i 0) as H0.
  pose proof (differs3_not_stuck buf i 1) as H1.
  destruct (differs3 buf i 0) as [[|]|e|]; cbn [bind];
    try discriminate; congruence.
Qed.

Lemma no_start_code_out_of_range (l : bytes) (k : nat) :
  length l <= k -> no_start_code l k = Raise IndexError.
Proof.
  intro H. unfold no_start_code, and_then, differs3, getitem.
  now rewrite (proj2 (nth_error_None l k) H).
Qed.

Lemma skip_leading_fuel (fuel : nat) (buf : bytes) :
  forall i, length buf <= fuel + i -> skip_leading fuel buf i <> OutOfFuel.
Proof.
  induction fuel as [|fuel IH]; intros i Hfuel; cbn [skip_leading].
  - rewrite no_start_code_out_of_range by lia. discriminate.
  - destruct (no_start_code buf i) as [[|]|e|] eqn:Hc; cbn [bind];
      try discriminate.
    + destruct (length buf <=? i + 1 + 4); [discriminate|].
      apply IH. lia.
    + exfalso. exact (no_start_code_not_stuck _ _ Hc).
Qed.

Lemma find_nal_end_enough_fuel (fuel : nat) (buf : bytes) :
  forall i, length buf <= fuel + i -> find_nal_end fuel buf i <> OutOfFuel.
Proof.
  induction fuel as [|fuel IH]; intros i Hfuel; cbn [find_nal_end].
  - rewrite RescanFacts.no_nal_end_out_of_range by lia. discriminate.
  - destruct (no_nal_end buf i) as [[|]|e|] eqn:Hc; cbn [bind];
      try discriminate.
    + destruct (length buf <=? i + 1 + 3); [discriminate|].
      apply IH. lia.
    + exfalso. exact (no_nal_end_not_stuck _ _ Hc).
Qed.

Lemma skip_leading_forward (fuel : nat) (buf : bytes) :
  forall i i0, skip_leading fuel buf i = Ok (Some i0) -> i <= i0.
Proof.
  induction fuel as [|fuel IH]; intros i i0 H; cbn [skip_leading] in H;
    destruct (no_start_code buf i) as [[|]|e|]; cbn [bind] in H;
    try discriminate; try (injection H as <-; lia).
  destruct (length buf <=? i + 1 + 4); [discriminate|].
  apply IH in H. lia.
Qed.

Lemma find_nal_end_forward (fuel : nat) (buf : bytes) :
  forall i e, find_nal_end fuel buf i = Ok (inl e) -> i <= e.
Proof.
  induction fuel as [|fuel IH]; intros i e H; cbn [find_nal_end] in H;
    destruct (no_nal_end buf i) as [[|]|err|]; cbn [bind] in H;
    try discriminate; try (injection H as <-; lia).
  destruct (length buf <=? i + 1 + 3); [discriminate|].
  apply IH in H. lia.
Qed.

(** A pass is never out of fuel, and a pass that goes on has advanced and
    stays inside the buffer. *)
Lemma body_not_stuck (buf : bytes) (i : nat) : body buf i <> Stuck.
Proof.
  unfold body.
  pose proof (@skip_leading_fuel (length buf) buf i ltac:(lia)) as Hs.
  destruct (skip_leading (length buf) buf i) as [[i0|]|e|];
    cbn [lift]; try discriminate; [|congruence].
  destruct (differs3 buf i0 1) as [c|e|] eqn:Hd; cbn [lift]; try discriminate.
  - set (s := (if c then i0 + 1 else i0) + 3).
    pose proof (@find_nal_end_enough_fuel (length buf) buf s ltac:(lia)) as Hf.
    destruct (find_nal_end (length buf) buf s) as [[e|[]]|e|];
      cbn [lift]; try discriminate. congruence.
  - exfalso. exact (differs3_not_stuck _ _ _ Hd).
Qed.

Lemma body_yield_advances (buf : bytes) (i i' : nat) (nalu : bytes) :
  body buf i = Yield nalu i' -> i < i' /\ i' < length buf.
Proof.
  unfold body. intro H.
  destruct (skip_leading (length buf) buf i) as [[i0|]|e|] eqn:Hs;
    cbn [lift] in H; try discriminate.
  apply skip_leading_forward in Hs.
  destruct (differs3 buf i0 1) as [c|e|]; cbn [lift] in H; try discriminate.
  set (s := (if c then i0 + 1 else i0) + 3) in *.
  destruct (find_nal_end (length buf) buf s) as [[e|[]]|e|] eqn:Hf;
    cbn [lift] in H; try discriminate.
  injection H as _ <-.
  pose proof (find_nal_end_forward _ _ _ Hf) as Hfw.
  pose proof (RescanFacts.find_nal_end_inl _ _ _ Hf) as Hend.
  split; [unfold s in Hfw; destruct c; lia|].
  destruct (le_lt_dec (length buf) e) as [Hout|Hin]; [|exact Hin].
  rewrite RescanFacts.no_nal_end_out_of_range in Hend by lia. discriminate.
Qed.

Lemma split_loop_stops (fuel : nat) (buf : bytes) :
  forall i,
    i <= length buf -> length buf < fuel + i ->
    snd (H264Encoder.split_loop fuel buf i) <> Running.
Proof.
  induction fuel as [|fuel IH]; intros i Hi Hfuel; [lia|].
  cbn [H264Encoder.split_loop].
  pose proof (body_not_stuck buf i) as Hstuck.
  destruct (body buf i) as [nalu i'|nalu| |e|] eqn:Hbody;
    cbn [snd]; try discriminate; [|congruence].
  apply body_yield_advances in Hbody.
  unfold yield. cbn [snd]. apply IH; lia.
Qed.

(** [H264Encoder._split_bitstream] returns or raises on every buffer. *)
Lemma encoder_split_bitstream_stops (buf : bytes) :
  snd (H264Encoder._split_bitstream buf) <> Running.
Proof.
  unfold H264Encoder._split_bitstream. apply split_loop_stops; lia.
Qed.

(** [H264Packer._split_bitstream] does the same on four bytes or more. *)
Lemma packer_split_bitstream_stops (buf : bytes) :
  4 <= length buf ->
  H264Packer._split_bitstream (S (length buf)) buf
  = H264Encoder._split_bitstream buf
  /\ snd (H264Packer._split_bitstream (S (length buf)) buf) <> Running.
Proof.
  intro Hlong. unfold H264Packer._split_bitstream.
  rewrite ScannerFacts.packer_split_loop_long by exact Hlong.
  split; [reflexivity|apply encoder_split_bitstream_stops].
Qed.

End TerminationFacts.

(** ** Depacketizing what the packetizer emits *)

Module DepayloadFacts.
Import H264PayloadDescriptor.

Lemma parse_single (nalu : bytes) :
  single_nal nalu -> parse nalu = Ok (true, START_CODE ++ nalu).
Proof.
  intros [Hlen Htype]. destruct nalu as [|d0 [|d1 rest]];
    [simpl in Hlen; lia|simpl in Hlen; lia|].
  unfold nal_type_of in Htype. cbn [hd] in Htype.
  unfold parse. cbn [length Nat.ltb Nat.leb getitem nth_error bind].
  replace ((1 <=? N.land d0 31)%N && (N.land d0 31 <? 24)%N) with true;
    [reflexivity|].
  symmetry. apply andb_true_iff. rewrite N.leb_le, N.ltb_lt. exact Htype.
Qed.

Lemma parse_fu_a (indicator d1 : N) (c : bytes) :
  nal_type_of indicator = 28%N ->
  parse (indicator :: d1 :: c)
  = Ok (negb (N.land d1 0x80 =? 0)%N,
        (if negb (N.land d1 0x80 =? 0)%N
         then START_CODE ++ [N.lor (N.land indicator 224) (N.land d1 0x1F)]
         else []) ++ c).
Proof.
  unfold nal_type_of. intro Ht.
  unfold parse. cbn [length Nat.ltb Nat.leb getitem nth_error bind NAL_HEADER_SIZE].
  rewrite Ht. reflexivity.
Qed.

Lemma reassemble_app (a b : list bytes) :
  reassemble (a ++ b)
  = (x <- reassemble a ;; y <- reassemble b ;; Ok (x ++ y)).
Proof.
  induction a as [|p a IH]; cbn [app reassemble].
  - destruct (reassemble b); reflexivity.
  - destruct (h264_depayload p) as [frag|e|]; cbn [bind]; try reflexivity.
    rewrite IH.
    destruct (reassemble a) as [x|e|]; cbn [bind]; try reflexivity.
    destruct (reassemble b) as [y|e|]; cbn [bind]; try reflexivity.
    now rewrite app_assoc.
Qed.

(** The header bytes that the fragmenter writes for [d0]. *)
Section FuHeaders.
Variable d0 : N.
Hypothesis d0_byte : (d0 < 256)%N.

Lemma indicator_type : nal_type_of (fu_indicator d0) = 28%N.
Proof.
  unfold nal_type_of, fu_indicator, NAL_TYPE_FU_A.
  change (N.lor 128 96) with 224%N.
  rewrite N.land_lor_distr_l, <- N.land_assoc.
  change (N.land 224 31) with 0%N. change (N.land 28 31) with 28%N.
  now rewrite N.land_0_r.
Qed.

Lemma indicator_f_nri : N.land (fu_indicator d0) 224 = N.land d0 224.
Proof.
  unfold fu_indicator, NAL_TYPE_FU_A. change (N.lor 128 96) with 224%N.
  rewrite N.land_lor_distr_l, <- N.land_assoc.
  change (N.land 224 224) with 224%N. change (N.land 28 224) with 0%N.
  now rewrite N.lor_0_r.
Qed.

Lemma start_header_bits :
  N.land (N.lor (fu_nal d0) 0x80) 0x80 = 128%N
  /\ N.land (N.lor (fu_nal d0) 0x80) 0x1F = fu_nal d0.
Proof.
  unfold fu_nal. rewrite !N.land_lor_distr_l, <- !N.land_assoc.
  change (N.land 31 128) with 0%N. change (N.land 128 128) with 128%N.
  change (N.land 31 31) with 31%N. change (N.land 128 31) with 0%N.
  now rewrite N.land_0_r, N.lor_0_l, N.lor_0_r.
Qed.

Lemma middle_header_bits : N.land (fu_nal d0) 0x80 = 0%N.
Proof.
  unfold fu_nal. rewrite <- N.land_assoc. change (N.land 31 128) with 0%N.
  apply N.land_0_r.
Qed.

Lemma end_header_bits : N.land (N.lor (fu_nal d0) 0x40) 0x80 = 0%N.
Proof.
  unfold fu_nal. rewrite N.land_lor_distr_l, <- N.land_assoc.
  change (N.land 31 128) with 0%N. change (N.land 64 128) with 0%N.
  now rewrite N.land_0_r.
Qed.

Lemma header_rebuilt : N.lor (N.land d0 224) (fu_nal d0) = d0.
Proof.
  unfold fu_nal. rewrite <- N.land_lor_distr_r.
  change (N.lor 224 31) with (N.ones 8).
  rewrite N.land_ones. apply N.mod_small. exact d0_byte.
Qed.

(** Fragments behind the middle header give back their pieces. *)
Lemma reassemble_tail_fragments (pieces : list bytes) :
  reassemble
    (with_fu_headers [fu_indicator d0; fu_nal d0]
       [fu_indicator d0; N.lor (fu_nal d0) 0x40]
       [fu_indicator d0; fu_nal d0] pieces)
  = Ok (concat pieces).
Proof.
  induction pieces as [|c pieces IH]; [reflexivity|].
  destruct pieces as [|c' pieces].
  - cbn [with_fu_headers app reassemble]. unfold h264_depayload.
    rewrite (@parse_fu_a _ _ _ indicator_type), end_header_bits.
    cbn. now rewrite app_nil_r.
  - rewrite FuAFacts.with_fu_headers_cons by discriminate.
    cbn [reassemble app]. unfold h264_depayload at 1.
    rewrite (@parse_fu_a _ _ _ indicator_type), middle_header_bits.
    cbn [N.eqb negb bind snd app]. rewrite IH. reflexivity.
Qed.

(** The fragments of a unit in two pieces or more give back the unit
    behind a start code. *)
Lemma reassemble_fragments (c1 c2 : bytes) (pieces : list bytes) :
  reassemble
    (with_fu_headers [fu_indicator d0; N.lor (fu_nal d0) 0x80]
       [fu_indicator d0; N.lor (fu_nal d0) 0x40]
       [fu_indicator d0; fu_nal d0] (c1 :: c2 :: pieces))
  = Ok (START_CODE ++ d0 :: concat (c1 :: c2 :: pieces)).
Proof.
  rewrite FuAFacts.with_fu_headers_cons by discriminate.
  cbn [reassemble app]. unfold h264_depayload at 1.
  rewrite (@parse_fu_a _ _ _ indicator_type).
  destruct start_header_bits as [HS Hnal]. rewrite HS, Hnal.
  rewrite indicator_f_nri, header_rebuilt.
  cbn [N.eqb negb bind snd]. rewrite reassemble_tail_fragments.
  cbn [bind]. reflexivity.
Qed.

End FuHeaders.

Lemma u16_be_length (n : nat) :
  u16_be (N.of_nat n / 256) (N.of_nat n mod 256) = n.
Proof.
  unfold u16_be.
  rewrite N2Nat.inj_div, N2Nat.inj_mod, Nat2N.id.
  change (N.to_nat 256) with 256.
  symmetry. apply Nat.div_mod_eq.
Qed.

Lemma stap_a_body_entries (group : list bytes) :
  stap_a_body (flat_map stap_a_entry group) group.
Proof.
  induction group as [|nalu group IH]; [constructor|].
  cbn [flat_map]. unfold stap_a_entry at 1. rewrite <- app_assoc.
  cbn [app]. constructor; [|exact IH].
  symmetry. apply u16_be_length.
Qed.

Lemma parse_stap_a_packet (group : list bytes) :
  group <> [] ->
  parse (stap_a_packet group) = Ok (true, annex_b group).
Proof.
  intro Hne. unfold stap_a_packet.
  apply ParseFacts.parse_stap_a_ok.
  - now destruct (StapAFacts.stap_a_header_fields Hne).
  - destruct group as [|nalu group]; [congruence|].
    cbn [flat_map]. unfold stap_a_entry. discriminate.
  - apply stap_a_body_entries.
Qed.

(** What one step of the packetizer emits is depacketized to the Annex B
    stream of the units it took. *)
Lemma reassemble_emission (group payloads : list bytes) :
  emission group payloads ->
  Forall single_nal group ->
  Forall wf_bytes group ->
  reassemble payloads = Ok (annex_b group).
Proof.
  destruct 1 as [nalu frags Hbig Hfu|nalu Hne Hsmall|group Hlen Hall Hsize];
    intros Hsingle Hwf.
  - destruct nalu as [|d0 rest]; [simpl in Hbig; lia|].
    assert (Hrest : rest <> [])
      by (intros ->; simpl in Hbig; unfold PACKET_MAX in Hbig; lia).
    assert (Hp : 1 <= length rest) by (destruct rest; [congruence|simpl; lia]).
    rewrite (FuAFacts.packetize_fu_a_spec d0 Hrest) in Hfu. injection Hfu as <-.
    destruct (FuAFacts.num_packets_of_spec Hp) as (_ & (_ & Hn) & _).
    pose proof (FuAFacts.sizes_left_total Hp) as Htot. cbv zeta in Htot.
    set (n := num_packets_of (length rest)) in *.
    set (sizes := sizes_left (length rest / n) n (length rest mod n)) in *.
    assert (Hcs : length (chunks sizes rest) = n).
    { rewrite FuAFacts.chunks_length. unfold sizes, sizes_left.
      rewrite length_app, !repeat_length.
      pose proof (Nat.mod_upper_bound (length rest) n). lia. }
    pose proof (FuAFacts.chunks_concat sizes rest Htot) as Hcat.
    inversion Hwf as [|? ? Hwf0 _]; subst.
    inversion Hwf0 as [|? ? Hd0 _]; subst.
    destruct (chunks sizes rest) as [|c1 [|c2 pieces]];
      [simpl in Hcs, Hbig; unfold PACKET_MAX in Hbig; lia
      |simpl in Hcs, Hbig; unfold PACKET_MAX in Hbig; lia|].
    rewrite (reassemble_fragments Hd0), Hcat.
    cbn [annex_b flat_map]. now rewrite app_nil_r.
  - inversion Hsingle as [|? ? Hs _]; subst.
    cbn [reassemble]. unfold h264_depayload. rewrite (parse_single Hs).
    cbn [bind snd annex_b flat_map]. reflexivity.
  - cbn [reassemble]. unfold h264_depayload.
    rewrite parse_stap_a_packet
      by (intros ->; simpl in Hlen; lia).
    cbn [bind snd]. now rewrite app_nil_r.
Qed.

Lemma annex_b_app (a b : list bytes) : annex_b (a ++ b) = annex_b a ++ annex_b b.
Proof. unfold annex_b. apply flat_map_app. Qed.

Lemma reassemble_packetization (nalus out : list bytes) :
  packetization nalus out ->
  Forall single_nal nalus ->
  Forall wf_bytes nalus ->
  reassemble out = Ok (annex_b nalus).
Proof.
  induction 1 as [|group payloads rest out Hemit Hrest IH]; intros Hsingle Hwf;
    [reflexivity|].
  apply Forall_app in Hsingle. apply Forall_app in Hwf.
  rewrite reassemble_app.
  rewrite (reassemble_emission Hemit) by tauto.
  rewrite IH by tauto. cbn [bind]. now rewrite annex_b_app.
Qed.

(** The driver returns on every sequence of non-empty units. *)
Lemma stap_a_loop_total (it : list bytes) :
  forall nalu avail hdr counter payload,
    Forall (fun n => n <> []) (nalu :: it) ->
    (avail < 65536)%Z ->
    exists st, H264Encoder.stap_a_loop nalu it avail hdr counter payload = Ok st.
Proof.
  induction it as [|x it IH]; intros nalu avail hdr counter payload Hne Havail;
    cbn [H264Encoder.stap_a_loop];
    (destruct (Z.of_nat (length nalu) <=? avail)%Z eqn:Hfit;
     [|destruct (counter =? 0); cbn [next]; eauto]);
    apply Z.leb_le in Hfit;
    inversion Hne as [|? ? Hn Hne']; subst;
    (destruct nalu as [|n0 t]; [congruence|]);
    cbn [getitem nth_error bind]; unfold pack_H; cbv zeta;
    (replace (N.of_nat (length (n0 :: t)) <? 65536)%N with true
       by (symmetry; apply N.ltb_lt; lia));
    cbn [bind]; [eauto|].
  apply IH; [exact Hne'|lia].
Qed.

Lemma packetize_stap_a_total (data : bytes) (it : list bytes) :
  Forall (fun n => n <> []) (data :: it) ->
  exists r, H264Encoder._packetize_stap_a data it = Ok r.
Proof.
  intro Hne. unfold H264Encoder._packetize_stap_a.
  inversion Hne as [|? ? Hn _]; subst.
  destruct data as [|d0 t]; [congruence|].
  cbn [getitem nth_error bind].
  destruct (stap_a_loop_total (N.lor NAL_TYPE_STAP_A (N.land d0 224)) 0 [] Hne
              (avail := (Z.of_nat PACKET_MAX - Z.of_nat STAP_A_HEADER_SIZE)%Z))
    as [[[[[hdr counter] payload] nxt] it'] Hloop];
    [unfold PACKET_MAX, STAP_A_HEADER_SIZE; simpl; lia|].
  rewrite Hloop. cbn [bind].
  destruct (counter <=? 1); eauto.
Qed.

Lemma packetize_loop_total (fuel : nat) :
  forall package it out,
    Forall (fun n => n <> []) (pending package it) ->
    (package = None -> it = []) ->
    length (pending package it) <= fuel ->
    exists res, H264Encoder.packetize_loop fuel package it out = Ok res.
Proof.
  induction fuel as [|fuel IH]; intros package it out Hne Hwf Hfuel.
  - destruct package as [p|]; [simpl in Hfuel; lia|]. cbn. eauto.
  - destruct package as [p|]; [|cbn; eauto].
    cbn [pending] in Hne, Hfuel. cbn [H264Encoder.packetize_loop].
    inversion Hne as [|? ? Hp Hit]; subst.
    destruct (PACKET_MAX <? length p) eqn:Hbig.
    + apply Nat.ltb_lt in Hbig.
      destruct p as [|d0 rest]; [congruence|].
      assert (Hrest : rest <> [])
        by (intros ->; simpl in Hbig; unfold PACKET_MAX in Hbig; lia).
      rewrite (FuAFacts.packetize_fu_a_spec d0 Hrest). cbn [bind].
      destruct (DriverFacts.next_or_none_pending it) as [Hpend Hnone].
      destruct (H264Encoder.next_or_none it) as [package' it2].
      cbn [fst snd] in Hpend, Hnone.
      apply IH; [now rewrite Hpend|exact Hnone|].
      rewrite Hpend. simpl in Hfuel. lia.
    + destruct (packetize_stap_a_total Hne) as [[[pkt nxt] it'] Hstap].
      rewrite Hstap. cbn [bind].
      apply StapAFacts.packetize_stap_a_inv in Hstap.
      destruct Hstap as (_ & Hcases & Hnone).
      apply IH; [|exact Hnone|].
      * destruct Hcases as [[_ ->]|(group & rest & _ & Hsplit & -> & _)];
          [exact Hit|].
        rewrite Hsplit in Hne. apply Forall_app in Hne. tauto.
      * destruct Hcases as [[_ ->]|(group & rest & Hlen & Hsplit & -> & _)];
          [simpl in Hfuel; lia|].
        apply (f_equal (@length bytes)) in Hsplit.
        rewrite length_app in Hsplit. simpl in Hsplit, Hfuel. lia.
Qed.

Lemma packetize_total (packages : list bytes) :
  Forall (fun n => n <> []) packages ->
  exists out, H264Encoder._packetize packages = Ok out.
Proof.
  intro Hne. unfold H264Encoder._packetize.
  destruct (DriverFacts.next_or_none_pending packages) as [Hpend Hnone].
  destruct (H264Encoder.next_or_none packages) as [package it].
  cbn [fst snd] in Hpend, Hnone.
  apply packetize_loop_total; [now rewrite Hpend|exact Hnone|].
  rewrite Hpend. lia.
Qed.

End DepayloadFacts.

(** ** Annex B round trip *)

Lemma wf_bytes_forallb (b : bytes) :
  forallb (fun x => (x <? 256)%N) b = true -> wf_bytes b.
Proof.
  intro H. apply Forall_forall. intros x Hx.
  rewrite forallb_forall in H. apply N.ltb_lt. now apply H.
Qed.

(** C1, as the claim states it, fails whichever way it is read.  With one
    more [00 00 00 01] put in front of each first fragment, the buffer
    [00 00 00 01 67 42 00 1E] comes back as
    [00 00 00 01 00 00 00 01 67 42 00 1E], whose scan yields an empty unit
    before [67 42 00 1E].  With the start codes of [parse] alone, the buffer
    [00 00 00 01 67] is scanned to the one-byte unit [67], which the
    packetizer returns verbatim and [h264_depayload] rejects as too short. *)
Lemma annex_b_round_trip_counterexample :
  ~ (forall B nalus,
        H264Encoder._split_bitstream B = (nalus, Returned) ->
        exists payloads B',
          H264Encoder._packetize nalus = Ok payloads
          /\ reassemble_prepending payloads = Ok B'
          /\ H264Encoder._split_bitstream B' = (nalus, Returned))
  /\ ~ (forall B nalus,
        H264Encoder._split_bitstream B = (nalus, Returned) ->
        exists payloads B',
          H264Encoder._packetize nalus = Ok payloads
          /\ reassemble payloads = Ok B'
          /\ H264Encoder._split_bitstream B' = (nalus, Returned)).
Proof.
  split; intro H.
  - destruct (H [0; 0; 0; 1; 0x67; 0x42; 0x00; 0x1E]%N
                [[0x67; 0x42; 0x00; 0x1E]%N] eq_refl)
      as (payloads & B' & Hpack & Hre & Hscan).
    vm_compute in Hpack. injection Hpack as <-.
    vm_compute in Hre. injection Hre as <-.
    vm_compute in Hscan. discriminate Hscan.
  - destruct (H [0; 0; 0; 1; 0x67]%N [[0x67]%N] eq_refl)
      as (payloads & B' & Hpack & Hre & _).
    vm_compute in Hpack. injection Hpack as <-.
    vm_compute in Hre. discriminate Hre.
Qed.

(** C1 (amended).  For every Annex B buffer whose scan returns at least one
    NAL unit, each unit having a header byte of type 1..23 and one byte more
    at least: the packetizer returns payloads on these units; running
    [h264_depayload] on each payload in order and concatenating the fragments
    (the start codes are those that [parse] itself writes in front of each
    first fragment) gives [00 00 00 01 N1 ... 00 00 00 01 Nk]; and the scan
    of that buffer yields exactly [N1..Nk]. *)
Theorem annex_b_round_trip (B : bytes) (nalus : list bytes) :
  wf_bytes B ->
  H264Encoder._split_bitstream B = (nalus, Returned) ->
  nalus <> [] ->
  Forall single_nal nalus ->
  exists payloads,
    H264Encoder._packetize nalus = Ok payloads
    /\ reassemble payloads = Ok (annex_b nalus)
    /\ H264Encoder._split_bitstream (annex_b nalus) = (nalus, Returned).
Proof.
  intros HB Hscan Hne Hsingle.
  assert (Hnonempty : Forall (fun n : bytes => n <> []) nalus).
  { eapply Forall_impl; [|exact Hsingle].
    intros n [Hlen _] ->. simpl in Hlen. lia. }
  unfold H264Encoder._split_bitstream in Hscan.
  apply RescanFacts.split_loop_rescannable in Hscan.
  destruct Hscan as [Hslices Hrescan].
  assert (Hwf : Forall wf_bytes nalus).
  { eapply Forall_impl; [|exact Hslices].
    intros n (a & b & ->). now apply RescanFacts.wf_bytes_slice. }
  destruct (DepayloadFacts.packetize_total Hnonempty) as [payloads Hpack].
  exists payloads. split; [exact Hpack|]. split.
  - apply DriverFacts.packetize_inv in Hpack.
    now apply DepayloadFacts.reassemble_packetization.
  - apply ScannerFacts.split_bitstream_annex_b.
    destruct (Hrescan Hnonempty) as [->|Hres]; [congruence|exact Hres].
Qed.

(** The 3000-byte unit behind a 3-byte start code, fragmented, and the two
    tiny units, aggregated. *)
Lemma annex_b_round_trip_witness :
  exists payloads,
    H264Encoder._packetize [nal_3000; [0x67; 0xAA]%N; [0x68; 0xBB]%N]
    = Ok payloads
    /\ reassemble payloads
       = Ok (annex_b [nal_3000; [0x67; 0xAA]%N; [0x68; 0xBB]%N])
    /\ H264Encoder._split_bitstream
         (annex_b [nal_3000; [0x67; 0xAA]%N; [0x68; 0xBB]%N])
       = ([nal_3000; [0x67; 0xAA]%N; [0x68; 0xBB]%N], Returned).
Proof.
  apply (@annex_b_round_trip stream_3).
  - apply wf_bytes_forallb. vm_compute. reflexivity.
  - vm_compute. reflexivity.
  - discriminate.
  - assert (Hs : forall n, (2 <=? length n) = true ->
                   ((1 <=? nal_type_of (hd 0%N n))%N
                    && (nal_type_of (hd 0%N n) <? 24)%N) = true ->
                   single_nal n).
    { intros n Hl Ht. apply Nat.leb_le in Hl. apply andb_true_iff in Ht.
      rewrite N.leb_le, N.ltb_lt in Ht. split; assumption. }
    constructor; [apply Hs; vm_compute; reflexivity|].
    constructor; [apply Hs; vm_compute; reflexivity|].
    constructor; [apply Hs; vm_compute; reflexivity|].
    constructor.
Defined.

(** ** Where the amended statements stop

    Each condition of the amended scanner and round-trip statements is there
    for a buffer on which the code does something else. *)

Module Boundaries.

(** Three zero bytes inside a unit end it, although no start code is
    there. *)
Example zeros_inside_end_the_unit :
  H264Encoder._split_bitstream
    (annex_b [[0x67; 0x00; 0x00; 0x00; 0xAA]%N; [0x68]%N])
  = ([[0x67]%N; [0x68]%N], Returned).
Proof. reflexivity. Qed.

(** An empty unit is found again in front of another unit, but at the end of
    the buffer the scanner reads behind the buffer. *)
Example empty_unit_in_front :
  H264Encoder._split_bitstream (annex_b [[]; [0x68]%N])
  = ([[]; [0x68]%N], Returned).
Proof. reflexivity. Qed.

Example empty_unit_at_the_end :
  H264Encoder._split_bitstream (annex_b [[0x67]%N; []])
  = ([[0x67]%N], Raised IndexError).
Proof. reflexivity. Qed.

(** The last unit of a buffer takes the zero bytes behind it. *)
Example last_unit_takes_trailing_zeros :
  H264Encoder._split_bitstream [0; 0; 0; 1; 0x67; 0xAA; 0; 0; 0]%N
  = ([[0x67; 0xAA; 0; 0; 0]%N], Returned).
Proof. reflexivity. Qed.

(** A buffer without a start code is scanned to no unit, and the Annex B
    stream of no unit is the empty buffer, on which the scanner raises. *)
Example no_unit_no_round_trip :
  H264Encoder._split_bitstream [1; 2; 3; 4; 5]%N = ([], Returned)
  /\ H264Encoder._split_bitstream (annex_b []) = ([], Raised IndexError).
Proof. split; reflexivity. Qed.

(** The scanner yields an empty unit between two start codes, and the
    aggregator raises on it at [data[0]]. *)
Example empty_unit_not_packetized :
  H264Encoder._split_bitstream [0; 0; 0; 1; 0; 0; 0; 1; 0x67; 0x42]%N
  = ([[]; [0x67; 0x42]%N], Returned)
  /\ H264Encoder._packetize [[]; [0x67; 0x42]%N] = Raise IndexError.
Proof. split; reflexivity. Qed.

(** A small unit whose header byte has type 28 is returned verbatim and
    read back as the first fragment of a unit of type 5. *)
Example type_28_unit_misread :
  H264Encoder._packetize [[0x1C; 0x85; 0xAA]%N] = Ok [[0x1C; 0x85; 0xAA]%N]
  /\ reassemble [[0x1C; 0x85; 0xAA]%N] = Ok [0; 0; 0; 1; 0x05; 0xAA]%N.
Proof. split; reflexivity. Qed.

(** The scenarios of the specification, end to end. *)
Example scenario_single_small_nal :
  H264Encoder._split_bitstream [0; 0; 0; 1; 0x67; 0x42; 0x00; 0x1E]%N
  = ([[0x67; 0x42; 0x00; 0x1E]%N], Returned)
  /\ H264Encoder._packetize [[0x67; 0x42; 0x00; 0x1E]%N]
     = Ok [[0x67; 0x42; 0x00; 0x1E]%N]
  /\ H264PayloadDescriptor.parse [0x67; 0x42; 0x00; 0x1E]%N
     = Ok (true, [0; 0; 0; 1; 0x67; 0x42; 0x00; 0x1E]%N).
Proof. repeat split; reflexivity. Qed.

Example scenario_two_tiny_nals :
  H264Encoder._split_bitstream
    [0; 0; 0; 1; 0x67; 0xAA; 0; 0; 0; 1; 0x68; 0xBB]%N
  = ([[0x67; 0xAA]%N; [0x68; 0xBB]%N], Returned)
  /\ H264Encoder._packetize [[0x67; 0xAA]%N; [0x68; 0xBB]%N]
     = Ok [[0x78; 0x00; 0x02; 0x67; 0xAA; 0x00; 0x02; 0x68; 0xBB]%N].
Proof. split; reflexivity. Qed.

Example scenario_large_nal_headers :
  exists p1 p2 p3,
    H264Encoder._packetize_fu_a nal_3000 = Ok [p1; p2; p3]
    /\ firstn 2 p1 = [0x7C; 0x85]%N
    /\ firstn 2 p2 = [0x7C; 0x05]%N
    /\ firstn 2 p3 = [0x7C; 0x45]%N
    /\ reassemble [p1; p2; p3] = Ok (START_CODE ++ nal_3000).
Proof.
  destruct (H264Encoder._packetize_fu_a nal_3000) as [[|p1 [|p2 [|p3 [|p4 l]]]]| |] eqn:E;
    try (vm_compute in E; discriminate E).
  exists p1, p2, p3. split; [reflexivity|].
  vm_compute in E. injection E as <- <- <-.
  repeat split; vm_compute; reflexivity.
Qed.

End Boundaries.

(** * Further properties of the code *)

(** ** [pairwise] *)

(** X1.  [pairwise] pairs each element but the last with its successor: the
    first components are the list without its last element, the second
    components the list without its first; a list of [n] elements gives
    [n - 1] pairs, the empty list and a singleton none. *)
Theorem pairwise_consecutive {T : Type} (l : list T) :
  map fst (pairwise l) = removelast l
  /\ map snd (pairwise l) = tl l
  /\ length (pairwise l) = length l - 1.
Proof.
  unfold pairwise. destruct l as [|x l]; [repeat split|].
  cbn [tl]. revert x.
  induction l as [|y l IH]; intro x; [repeat split|].
  destruct (IH y) as (Hf & Hs & Hl).
  change (combine (x :: y :: l) (y :: l)) with ((x, y) :: combine (y :: l) l).
  change (removelast (x :: y :: l)) with (x :: removelast (y :: l)).
  rewrite !map_cons, Hf, Hs. cbn [fst snd].
  change (length ((x, y) :: combine (y :: l) l))
    with (S (length (combine (y :: l) l))).
  rewrite Hl. cbn [length]. repeat split. lia.
Qed.

(** ** The scanners on every buffer *)

Module ScannerErrors.
Import Scanner.

Lemma differs3_raises (buf : bytes) (i : nat) (x : N) (e : exn) :
  differs3 buf i x = Raise e -> e = IndexError.
Proof.
  unfold differs3, getitem.
  destruct (nth_error buf i) as [b0|]; cbn [bind]; [|congruence].
  destruct (negb (b0 =? 0)%N); [discriminate|].
  destruct (nth_error buf (i + 1)) as [b1|]; cbn [bind]; [|congruence].
  destruct (negb (b1 =? 0)%N); [discriminate|].
  destruct (nth_error buf (i + 2)) as [b2|]; cbn [bind]; congruence.
Qed.

Lemma differs4_raises (buf : bytes) (i : nat) (e : exn) :
  differs4 buf i = Raise e -> e = IndexError.
Proof.
  unfold differs4, getitem.
  destruct (nth_error buf i) as [b0|]; cbn [bind]; [|congruence].
  destruct (negb (b0 =? 0)%N); [discriminate|].
  destruct (nth_error buf (i + 1)) as [b1|]; cbn [bind]; [|congruence].
  destruct (negb (b1 =? 0)%N); [discriminate|].
  destruct (nth_error buf (i + 2)) as [b2|]; cbn [bind]; [|congruence].
  destruct (negb (b2 =? 0)%N); [discriminate|].
  destruct (nth_error buf (i + 3)) as [b3|]; cbn [bind]; congruence.
Qed.

Lemma no_start_code_raises (buf : bytes) (i : nat) (e : exn) :
  no_start_code buf i = Raise e -> e = IndexError.
Proof.
  unfold no_start_code, and_then.
  destruct (differs3 buf i 1) as [[|]|e'|] eqn:H3; cbn [bind];
    try discriminate.
  - apply differs4_raises.
  - intro H. injection H as <-. exact (differs3_raises _ _ _ H3).
Qed.

Lemma no_nal_end_raises (buf : bytes) (i : nat) (e : exn) :
  no_nal_end buf i = Raise e -> e = IndexError.
Proof.
  unfold no_nal_end, and_then.
  destruct (differs3 buf i 0) as [[|]|e'|] eqn:H3; cbn [bind];
    try discriminate.
  - apply differs3_raises.
  - intro H. injection H as <-. exact (differs3_raises _ _ _ H3).
Qed.

Lemma skip_leading_raises (fuel : nat) (buf : bytes) (e : exn) :
  forall i, skip_leading fuel buf i = Raise e -> e = IndexError.
Proof.
  induction fuel as [|fuel IH]; intros i H; cbn [skip_leading] in H;
    destruct (no_start_code buf i) as [[|]|e'|] eqn:Hc; cbn [bind] in H;
    try discriminate;
    try (injection H as <-; exact (no_start_code_raises _ _ Hc)).
  destruct (length buf <=? i + 1 + 4); [discriminate|]. exact (IH _ H).
Qed.

Lemma find_nal_end_raises (fuel : nat) (buf : bytes) (e : exn) :
  forall i, find_nal_end fuel buf i = Raise e -> e = IndexError.
Proof.
  induction fuel as [|fuel IH]; intros i H; cbn [find_nal_end] in H;
    destruct (no_nal_end buf i) as [[|]|e'|] eqn:Hc; cbn [bind] in H;
    try discriminate;
    try (injection H as <-; exact (no_nal_end_raises _ _ Hc)).
  destruct (length buf <=? i + 1 + 3); [discriminate|]. exact (IH _ H).
Qed.

Lemma body_fails (buf : bytes) (i : nat) (e : exn) :
  body buf i = Fail e -> e = IndexError.
Proof.
  unfold body.
  destruct (skip_leading (length buf) buf i) as [[i0|]|e'|] eqn:Hs;
    cbn [lift]; try discriminate.
  - destruct (differs3 buf i0 1) as [c|e'|] eqn:Hd; cbn [lift];
      try discriminate.
    + destruct (find_nal_end (length buf) buf _) as [[k|[]]|e'|] eqn:Hf;
        cbn [lift]; try discriminate.
      intro H. injection H as <-. exact (find_nal_end_raises _ _ _ Hf).
    + intro H. injection H as <-. exact (differs3_raises _ _ _ Hd).
  - intro H. injection H as <-. exact (skip_leading_raises _ _ _ Hs).
Qed.

Lemma split_loop_raises (fuel : nat) (buf : bytes) (e : exn) :
  forall i, snd (H264Encoder.split_loop fuel buf i) = Raised e -> e = IndexError.
Proof.
  induction fuel as [|fuel IH]; intros i H; [discriminate|].
  cbn [H264Encoder.split_loop] in H.
  destruct (body buf i) as [nalu i'|nalu| |e'|] eqn:Hbody; cbn [snd] in H;
    try discriminate.
  - unfold yield in H. cbn [snd] in H. exact (IH _ H).
  - injection H as <-. exact (body_fails _ _ Hbody).
Qed.

End ScannerErrors.

(** X2.  The codec-backed scanner stops on every buffer, and the only
    exception it raises is [IndexError]: run with the passes that a buffer
    of its length can take, it has returned or has raised [IndexError]. *)
Theorem encoder_scanner_stops (buf : bytes) :
  snd (H264Encoder._split_bitstream buf) = Returned
  \/ snd (H264Encoder._split_bitstream buf) = Raised IndexError.
Proof.
  pose proof (TerminationFacts.encoder_split_bitstream_stops buf) as H.
  destruct (snd (H264Encoder._split_bitstream buf)) as [|e|] eqn:Hend;
    [now left| |congruence].
  right. f_equal.
  exact (ScannerErrors.split_loop_raises _ _ _ Hend).
Qed.

(** X3.  On every buffer of fewer than four bytes the pass-through scanner
    is still running after any number of passes, and has yielded nothing. *)
Theorem packer_scanner_spins (buf : bytes) (fuel : nat) :
  length buf < 4 ->
  H264Packer._split_bitstream fuel buf = ([], Running).
Proof.
  intro Hshort. now apply ScannerFacts.packer_split_loop_short.
Qed.

Lemma packer_scanner_spins_witness :
  H264Packer._split_bitstream 1000 [0; 0; 1]%N = ([], Running).
Proof.
  apply (@packer_scanner_spins [0; 0; 1]%N 1000). simpl. lia.
Defined.

(** X4.  On a buffer of four bytes or more the pass-through scanner makes
    the passes of the codec-backed scanner: it yields the same units and
    stops the same way. *)
Theorem packer_scanner_agrees (buf : bytes) :
  4 <= length buf ->
  H264Packer._split_bitstream (S (length buf)) buf
  = H264Encoder._split_bitstream buf
  /\ snd (H264Packer._split_bitstream (S (length buf)) buf) <> Running.
Proof.
  apply TerminationFacts.packer_split_bitstream_stops.
Qed.

Lemma packer_scanner_agrees_witness :
  H264Packer._split_bitstream 13
    [0; 0; 0; 1; 0x67; 0xAA; 0; 0; 0; 1; 0x68; 0xBB]%N
  = H264Encoder._split_bitstream
      [0; 0; 0; 1; 0x67; 0xAA; 0; 0; 0; 1; 0x68; 0xBB]%N
  /\ snd (H264Packer._split_bitstream 13
            [0; 0; 0; 1; 0x67; 0xAA; 0; 0; 0; 1; 0x68; 0xBB]%N) <> Running.
Proof.
  apply (@packer_scanner_agrees
           [0; 0; 0; 1; 0x67; 0xAA; 0; 0; 0; 1; 0x68; 0xBB]%N).
  simpl. lia.
Defined.

(** X5.  On a buffer of fewer than four bytes the codec-backed scanner
    yields no unit: it returns at once, or raises [IndexError]. *)
Theorem encoder_scanner_short_buffer (buf : bytes) :
  length buf < 4 ->
  H264Encoder._split_bitstream buf = ([], Returned)
  \/ H264Encoder._split_bitstream buf = ([], Raised IndexError).
Proof.
  intro Hshort.
  destruct buf as [|a [|b [|c [|d buf]]]];
    try (exfalso; simpl in Hshort; lia);
    unfold H264Encoder._split_bitstream;
    cbn [length H264Encoder.split_loop];
    unfold Scanner.body; cbn [length Scanner.skip_leading];
    unfold Scanner.no_start_code, Scanner.no_nal_end, Scanner.and_then,
      Scanner.differs3, Scanner.differs4, getitem;
    cbn [nth_error Nat.add bind];
    repeat (match goal with
            | |- context [(?x =? ?y)%N] => destruct (x =? y)%N
            end;
            cbn [negb bind Scanner.lift nth_error Nat.add Nat.leb length
                 Scanner.find_nal_end Scanner.skip_leading]);
    auto.
Qed.

Lemma encoder_scanner_short_buffer_witness :
  H264Encoder._split_bitstream [0; 0; 1]%N = ([], Returned)
  \/ H264Encoder._split_bitstream [0; 0; 1]%N = ([], Raised IndexError).
Proof.
  apply (@encoder_scanner_short_buffer [0; 0; 1]%N). simpl. lia.
Defined.

(** ** Start codes of both lengths *)

Module FramedFacts.
Import Scanner.

Lemma zero_free_mid_general (nalu : bytes) :
  zero_free nalu ->
  forall fuel t rest,
    t = 0%N \/ t = 1%N ->
    rest <> [] ->
    length nalu <= fuel ->
    find_nal_end fuel (nalu ++ 0%N :: 0%N :: t :: rest) 0
    = Ok (inl (length nalu)).
Proof.
  induction nalu as [|x l IH]; intros Hz fuel t rest Ht Hrest Hfuel.
  - destruct Ht as [-> | ->]; destruct fuel; reflexivity.
  - destruct fuel as [|fuel]; [simpl in Hfuel; lia|].
    change ((x :: l) ++ 0%N :: 0%N :: t :: rest)
      with (x :: l ++ 0%N :: 0%N :: t :: rest).
    rewrite ScannerFacts.find_nal_end_head.
    change (x :: l ++ 0%N :: 0%N :: t :: rest)
      with ((x :: l) ++ 0%N :: 0%N :: t :: rest).
    rewrite (ScannerFacts.zero_free_window _ Hz). cbn [bind].
    replace (length (l ++ 0%N :: 0%N :: t :: rest) <=? 3) with false
      by (symmetry; apply Nat.leb_gt; rewrite length_app; simpl;
          destruct rest; [congruence|simpl; lia]).
    rewrite (IH (ScannerFacts.zero_free_tail Hz)); auto.
    simpl in Hfuel. lia.
Qed.

(** A pass that begins at a start code of either length. *)
Lemma body_at_any_start_code (pre c nalu_post : bytes) :
  is_start_code c ->
  body (pre ++ c ++ nalu_post) (length pre)
  = match find_nal_end (length (pre ++ c ++ nalu_post)) nalu_post 0 with
    | Ok (inl e) => Yield (firstn e nalu_post) (length pre + length c + e)
    | Ok (inr _) => YieldReturn nalu_post
    | Raise e => Fail e
    | OutOfFuel => Stuck
    end.
Proof.
  intros [-> | ->]; [|exact (ScannerFacts.body_at_start_code pre nalu_post)].
  unfold body.
  set (buf := pre ++ START_CODE_3 ++ nalu_post).
  assert (Hskip : skip_leading (length buf) buf (length pre)
                  = Ok (Some (length pre))).
  { rewrite <- (Nat.add_0_r (length pre)) at 1. unfold buf.
    rewrite ScannerFacts.skip_leading_app.
    destruct (length (pre ++ START_CODE_3 ++ nalu_post));
      cbn; now rewrite Nat.add_0_r. }
  rewrite Hskip. cbn [lift].
  assert (Hd : differs3 buf (length pre) 1 = Ok false).
  { rewrite <- (Nat.add_0_r (length pre)). unfold buf.
    rewrite ScannerFacts.differs3_app. reflexivity. }
  rewrite Hd. cbn [lift].
  assert (Hbuf : buf = (pre ++ START_CODE_3) ++ nalu_post)
    by (unfold buf; now rewrite <- app_assoc).
  assert (Hpos : length pre + 3 = length (pre ++ START_CODE_3))
    by (rewrite length_app; simpl; lia).
  rewrite Hpos.
  rewrite <- (Nat.add_0_r (length (pre ++ START_CODE_3))) at 1.
  rewrite Hbuf at 2. rewrite ScannerFacts.find_nal_end_app.
  destruct (find_nal_end (length buf) nalu_post 0) as [[e|[]]|e|];
    cbn [shift_end lift]; try reflexivity.
  - f_equal.
    + rewrite Hbuf. unfold slice. rewrite skipn_app_length. f_equal. lia.
    + rewrite length_app. simpl. lia.
  - f_equal. rewrite Hbuf at 1. unfold slice. rewrite skipn_app_length.
    apply firstn_all2. rewrite Hbuf, length_app. lia.
Qed.

Lemma framed_cons (c nalu : bytes) (units : list (bytes * bytes)) :
  framed ((c, nalu) :: units) = c ++ nalu ++ framed units.
Proof. unfold framed. cbn [flat_map fst snd]. now rewrite <- app_assoc. Qed.

(** What follows a unit that is not the last: two zero bytes, a zero or a
    one, and one byte more at least. *)
Lemma framed_head (units : list (bytes * bytes)) :
  units <> [] ->
  Forall well_framed units ->
  exists t rest,
    (t = 0%N \/ t = 1%N) /\ rest <> [] /\ framed units = 0%N :: 0%N :: t :: rest.
Proof.
  intros Hne Hall. destruct units as [|[c nalu] units]; [congruence|].
  inversion Hall as [|? ? [Hc [Hn _]] _]; subst. cbn [fst snd] in Hc, Hn.
  rewrite framed_cons. destruct Hc as [-> | ->].
  - exists 1%N, (nalu ++ framed units). split; [now right|].
    split; [|reflexivity]. destruct nalu; [congruence|discriminate].
  - exists 0%N, (1%N :: nalu ++ framed units). split; [now left|].
    split; [discriminate|reflexivity].
Qed.

Lemma split_loop_framed (units : list (bytes * bytes)) :
  units <> [] ->
  Forall well_framed units ->
  forall pre fuel,
    length units <= fuel ->
    H264Encoder.split_loop fuel (pre ++ framed units) (length pre)
    = (map snd units, Returned).
Proof.
  induction units as [|[c nalu] units IH]; intros Hne Hall pre fuel Hfuel;
    [congruence|].
  inversion Hall as [|? ? [Hc [Hn Hz]] Hall']; subst. cbn [fst snd] in Hc, Hn, Hz.
  destruct fuel as [|fuel]; [simpl in Hfuel; lia|].
  cbn [H264Encoder.split_loop map snd]. rewrite framed_cons.
  rewrite (body_at_any_start_code pre _ Hc).
  destruct units as [|cu units].
  - cbn [framed flat_map]. rewrite app_nil_r.
    rewrite (ScannerFacts.zero_free_last_ok Hn Hz)
      by (rewrite !length_app; lia).
    reflexivity.
  - destruct (@framed_head (cu :: units)) as (t & rest & Ht & Hrest & Hhead);
      [discriminate|exact Hall'|].
    rewrite Hhead.
    rewrite (zero_free_mid_general Hz) by (auto; rewrite !length_app; lia).
    rewrite firstn_app_length. rewrite <- Hhead.
    replace (pre ++ c ++ nalu ++ framed (cu :: units))
      with ((pre ++ c ++ nalu) ++ framed (cu :: units))
      by (now rewrite <- !app_assoc).
    replace (length pre + length c + length nalu)
      with (length (pre ++ c ++ nalu))
      by (rewrite !length_app; lia).
    rewrite IH; [reflexivity|discriminate|exact Hall'|].
    simpl in Hfuel |- *. lia.
Qed.

Lemma framed_length (units : list (bytes * bytes)) :
  Forall well_framed units -> length units <= length (framed units).
Proof.
  induction 1 as [|[c nalu] units [Hc _] _ IH]; [simpl; lia|].
  rewrite framed_cons, !length_app. cbn [fst] in Hc.
  destruct Hc as [-> | ->]; simpl; lia.
Qed.

End FramedFacts.

(** X6.  Start codes of three and of four bytes are accepted alike: the scan
    of a non-empty sequence of units, each non-empty, with no [00 00 00] and
    no [00 00 01] inside and no zero byte at its end, each behind [00 00 01]
    or [00 00 00 01] in any mixture, yields exactly these units and
    returns. *)
Theorem scanner_accepts_both_start_codes (units : list (bytes * bytes)) :
  units <> [] ->
  Forall well_framed units ->
  H264Encoder._split_bitstream (framed units) = (map snd units, Returned).
Proof.
  intros Hne Hall. unfold H264Encoder._split_bitstream.
  apply (FramedFacts.split_loop_framed Hne Hall []).
  pose proof (FramedFacts.framed_length Hall). lia.
Qed.

Lemma scanner_accepts_both_start_codes_witness :
  H264Encoder._split_bitstream
    (framed [(START_CODE_3, [0x67; 0x42; 0x00; 0x1E]%N);
             (START_CODE, [0x68; 0xBB]%N);
             (START_CODE_3, [0x65]%N)])
  = ([[0x67; 0x42; 0x00; 0x1E]%N; [0x68; 0xBB]%N; [0x65]%N], Returned).
Proof.
  apply (@scanner_accepts_both_start_codes
           [(START_CODE_3, [0x67; 0x42; 0x00; 0x1E]%N);
            (START_CODE, [0x68; 0xBB]%N);
            (START_CODE_3, [0x65]%N)]).
  - discriminate.
  - repeat constructor; try discriminate;
      try (now left); try (now right);
      apply ScannerFacts.infixb_false; reflexivity.
Defined.

(** X7.  What the scanner yields it yields again: when the scan of a buffer
    returns at least one unit and no empty unit, the scan of these units
    behind four-byte start codes returns the same units, whatever stood
    between them in the buffer (bytes in front of the first start code,
    start codes of three bytes, zero bytes behind a unit). *)
Theorem scanner_rescan (B : bytes) (nalus : list bytes) :
  H264Encoder._split_bitstream B = (nalus, Returned) ->
  nalus <> [] ->
  Forall (fun nalu => nalu <> []) nalus ->
  H264Encoder._split_bitstream (annex_b nalus) = (nalus, Returned).
Proof.
  intros Hscan Hne Hall. unfold H264Encoder._split_bitstream in Hscan.
  apply RescanFacts.split_loop_rescannable in Hscan.
  destruct Hscan as [_ Hre].
  apply ScannerFacts.split_bitstream_annex_b.
  destruct (Hre Hall) as [->|H]; [congruence|exact H].
Qed.

Lemma scanner_rescan_witness :
  H264Encoder._split_bitstream
    (annex_b [[0x67; 0xAA]%N; [0x68; 0x00; 0x00]%N])
  = ([[0x67; 0xAA]%N; [0x68; 0x00; 0x00]%N], Returned).
Proof.
  apply (@scanner_rescan
           [9; 0; 0; 1; 0x67; 0xAA; 0; 0; 0; 0; 0; 1; 0x68; 0; 0]%N).
  - reflexivity.
  - discriminate.
  - repeat constructor; discriminate.
Defined.

(** ** Bytes in front of the first start code *)

Module LeadingFacts.
Import Scanner.

Lemma no_start_code_nonzero (x : N) (l : bytes) :
  x <> 0%N -> no_start_code (x :: l) 0 = Ok true.
Proof.
  intro Hx. unfold no_start_code, and_then, differs3, differs4, getitem.
  cbn [nth_error bind].
  destruct (N.eqb_spec x 0) as [->|_]; [congruence|reflexivity].
Qed.

Lemma shift_start_shift (a b : nat) (r : result (option nat)) :
  shift_start a (shift_start b r) = shift_start (a + b) r.
Proof.
  destruct r as [[i|]|e|]; cbn [shift_start]; try reflexivity.
  f_equal. f_equal. lia.
Qed.

(** The first inner loop walks over non-zero bytes in front of a long
    enough rest of the buffer. *)
Lemma skip_leading_junk (junk : bytes) :
  Forall (fun b => b <> 0%N) junk ->
  forall suf fuel,
    4 < length suf ->
    length junk <= fuel ->
    skip_leading fuel (junk ++ suf) 0
    = shift_start (length junk) (skip_leading (fuel - length junk) suf 0).
Proof.
  induction 1 as [|x junk Hx Hjunk IH]; intros suf fuel Hsuf Hfuel.
  - cbn [app length]. rewrite Nat.sub_0_r.
    destruct (skip_leading fuel suf 0) as [[i|]|e|]; reflexivity.
  - destruct fuel as [|fuel]; [simpl in Hfuel; lia|].
    cbn [app skip_leading].
    rewrite (no_start_code_nonzero _ Hx). cbn [bind].
    replace (length (x :: junk ++ suf) <=? 0 + 1 + 4) with false
      by (symmetry; apply Nat.leb_gt; simpl; rewrite length_app; lia).
    change (skip_leading fuel (x :: junk ++ suf) (0 + 1))
      with (skip_leading fuel ([x] ++ junk ++ suf) (length [x] + 0)).
    rewrite (ScannerFacts.skip_leading_app [x] (junk ++ suf) fuel 0).
    rewrite IH by (simpl in Hfuel; lia || exact Hsuf).
    rewrite shift_start_shift. reflexivity.
Qed.

(** In front of a rest of four bytes or fewer it gives up. *)
Lemma skip_leading_gives_up (junk : bytes) :
  Forall (fun b => b <> 0%N) junk ->
  junk <> [] ->
  forall suf fuel,
    length suf <= 4 ->
    length junk <= fuel ->
    skip_leading fuel (junk ++ suf) 0 = Ok None.
Proof.
  induction 1 as [|x junk Hx Hjunk IH]; intros Hne suf fuel Hsuf Hfuel;
    [congruence|].
  destruct fuel as [|fuel]; [simpl in Hfuel; lia|].
  cbn [app skip_leading].
  rewrite (no_start_code_nonzero _ Hx). cbn [bind].
  destruct (length (x :: junk ++ suf) <=? 0 + 1 + 4) eqn:Hend; [reflexivity|].
  apply Nat.leb_gt in Hend.
  change (skip_leading fuel (x :: junk ++ suf) (0 + 1))
    with (skip_leading fuel ([x] ++ junk ++ suf) (length [x] + 0)).
  rewrite (ScannerFacts.skip_leading_app [x] (junk ++ suf) fuel 0).
  rewrite IH; [reflexivity| |exact Hsuf|simpl in Hfuel; lia].
  intros ->. simpl in Hend. lia.
Qed.

Lemma skip_leading_at_start_code (c post : bytes) (fuel : nat) :
  is_start_code c -> skip_leading fuel (c ++ post) 0 = Ok (Some 0).
Proof.
  intros [-> | ->]; destruct fuel; reflexivity.
Qed.

End LeadingFacts.

(** X8.  Bytes in front of the first start code: non-zero bytes in front of
    a stream of more than four bytes are skipped, and the units of the
    stream are yielded as without them; in front of a stream of four bytes
    or fewer the scanner returns without a unit, although the stream alone
    may hold one. *)
Theorem scanner_leading_bytes (junk : bytes) :
  Forall (fun b => b <> 0%N) junk ->
  (forall units,
      units <> [] ->
      Forall well_framed units ->
      4 < length (framed units) ->
      H264Encoder._split_bitstream (junk ++ framed units)
      = (map snd units, Returned))
  /\ (forall rest,
        junk <> [] ->
        length rest <= 4 ->
        H264Encoder._split_bitstream (junk ++ rest) = ([], Returned)).
Proof.
  intro Hjunk. split.
  - intros units Hne Hall Hlong.
    unfold H264Encoder._split_bitstream.
    assert (Hfuel : length units <= S (length (junk ++ framed units)))
      by (pose proof (FramedFacts.framed_length Hall);
          rewrite length_app; lia).
    rewrite <- (FramedFacts.split_loop_framed Hne Hall junk Hfuel).
    cbn [H264Encoder.split_loop]. unfold Scanner.body.
    rewrite (LeadingFacts.skip_leading_junk Hjunk)
      by (rewrite ?length_app; lia).
    destruct units as [|[c nalu] units]; [congruence|].
    inversion Hall as [|? ? [Hc _] _]; subst. cbn [fst] in Hc.
    rewrite FramedFacts.framed_cons.
    rewrite (LeadingFacts.skip_leading_at_start_code _ _ Hc).
    cbn [shift_start]. rewrite Nat.add_0_r.
    pose proof (ScannerFacts.skip_leading_app junk (c ++ nalu ++ framed units)
                  (length (junk ++ c ++ nalu ++ framed units)) 0) as Hat.
    rewrite (LeadingFacts.skip_leading_at_start_code _ _ Hc) in Hat.
    cbn [shift_start] in Hat. rewrite !Nat.add_0_r in Hat.
    rewrite Hat. reflexivity.
  - intros rest Hne Hshort.
    unfold H264Encoder._split_bitstream.
    cbn [H264Encoder.split_loop]. unfold Scanner.body.
    rewrite (LeadingFacts.skip_leading_gives_up Hjunk Hne)
      by (rewrite ?length_app; lia).
    reflexivity.
Qed.

Lemma scanner_leading_bytes_witness :
  H264Encoder._split_bitstream
    ([0xAA; 0xBB]%N ++ framed [(START_CODE_3, [0x67; 0x42]%N)])
  = ([[0x67; 0x42]%N], Returned)
  /\ H264Encoder._split_bitstream ([0xAA; 0xBB]%N ++ [0; 0; 1; 0x67]%N)
     = ([], Returned).
Proof.
  assert (Hjunk : Forall (fun b => b <> 0%N) [0xAA; 0xBB]%N)
    by (repeat constructor; discriminate).
  split.
  - apply (proj1 (scanner_leading_bytes Hjunk)
             [(START_CODE_3, [0x67; 0x42]%N)]).
    + discriminate.
    + repeat constructor; try discriminate; try (now left);
        apply ScannerFacts.infixb_false; reflexivity.
    + simpl. lia.
  - apply (proj2 (scanner_leading_bytes Hjunk) [0; 0; 1; 0x67]%N).
    + discriminate.
    + simpl. lia.
Defined.

(** ** The parser's flag *)

(** X9.  What [first_fragment] says about the output of [parse]: when it is
    set the output begins with the start code [00 00 00 01]; it is clear
    only for an FU-A payload whose FU header has the S bit clear, and the
    output is then the payload behind its two header bytes, with no start
    code put in front. *)
Theorem parse_first_fragment (data : bytes) (ff : bool) (out : bytes) :
  H264PayloadDescriptor.parse data = Ok (ff, out) ->
  (ff = true /\ exists rest, out = START_CODE ++ rest)
  \/ (ff = false
      /\ nal_type_of (hd 0%N data) = 28%N
      /\ N.land (nth 1 data 0%N) 0x80 = 0%N
      /\ out = slice_from data 2).
Proof.
  intro Hparse.
  destruct data as [|d0 [|d1 rest]]; try discriminate Hparse.
  destruct ((1 <=? nal_type_of d0)%N && (nal_type_of d0 <? 24)%N) eqn:Hsingle.
  { unfold H264PayloadDescriptor.parse, nal_type_of in *.
    cbn [length Nat.ltb Nat.leb getitem nth_error bind] in Hparse.
    rewrite Hsingle in Hparse. injection Hparse as <- <-.
    left. split; [reflexivity|]. now eexists. }
  destruct (nal_type_of d0 =? NAL_TYPE_FU_A)%N eqn:H28.
  { apply N.eqb_eq in H28.
    rewrite (@DepayloadFacts.parse_fu_a _ _ _ H28) in Hparse.
    injection Hparse as <- <-. cbn [hd nth].
    destruct (N.land d1 128 =? 0)%N eqn:HS; cbn [negb].
    - right. apply N.eqb_eq in HS. repeat split; assumption.
    - left. split; [reflexivity|]. eexists. reflexivity. }
  destruct (nal_type_of d0 =? NAL_TYPE_STAP_A)%N eqn:H24.
  { apply N.eqb_eq in H24.
    destruct (ParseFacts.stap_a_body_or_broken (d1 :: rest)) as [[nalus Hb]|[e Hb]].
    - rewrite (@ParseFacts.parse_stap_a_ok d0 (d1 :: rest) nalus H24) in Hparse;
        [|discriminate|exact Hb].
      injection Hparse as <- <-. left. split; [reflexivity|].
      inversion Hb; subst. rewrite ScannerFacts.annex_b_cons. now eexists.
    - rewrite (@ParseFacts.parse_stap_a_broken d0 (d1 :: rest) e H24) in Hparse;
        [discriminate|discriminate|exact Hb]. }
  exfalso.
  unfold H264PayloadDescriptor.parse, nal_type_of in *.
  cbn [length Nat.ltb Nat.leb getitem nth_error bind] in Hparse.
  rewrite Hsingle, H28, H24 in Hparse. discriminate.
Qed.

Lemma parse_first_fragment_witness :
  (false = true /\ exists rest, [0xAA; 0xBB]%N = START_CODE ++ rest)
  \/ (false = false
      /\ nal_type_of (hd 0%N [0x7C; 0x05; 0xAA; 0xBB]%N) = 28%N
      /\ N.land (nth 1 [0x7C; 0x05; 0xAA; 0xBB]%N 0%N) 0x80 = 0%N
      /\ [0xAA; 0xBB]%N = slice_from [0x7C; 0x05; 0xAA; 0xBB]%N 2).
Proof.
  apply (@parse_first_fragment [0x7C; 0x05; 0xAA; 0xBB]%N false [0xAA; 0xBB]%N).
  reflexivity.
Defined.

(** ** The fragmenter, further *)

Module FuAMore.
Import H264Encoder.

Lemma with_fu_headers_forall (P : bytes -> Prop)
    (first fu_end fu_middle : bytes) (pieces : list bytes) :
  Forall (fun c => P (first ++ c) /\ P (fu_end ++ c) /\ P (fu_middle ++ c))
    pieces ->
  Forall P (with_fu_headers first fu_end fu_middle pieces).
Proof.
  revert first. induction pieces as [|c pieces IH]; intros first Hall;
    [constructor|].
  inversion Hall as [|? ? (Hf & He & Hm) Hall']; subst.
  destruct pieces as [|c' pieces].
  - cbn [with_fu_headers]. constructor; [exact He|constructor].
  - rewrite FuAFacts.with_fu_headers_cons by discriminate.
    constructor; [exact Hf|]. apply IH.
    eapply Forall_impl; [|exact Hall']. cbv beta. tauto.
Qed.

(** Every piece that the fragmenter cuts has one byte at least. *)
Lemma chunks_nonempty (rest : bytes) :
  rest <> [] ->
  let p := length rest in
  let n := num_packets_of p in
  Forall (fun c => 1 <= length c)
    (chunks (sizes_left (p / n) n (p mod n)) rest).
Proof.
  intros Hne p n.
  assert (Hp : 1 <= p) by (unfold p; destruct rest; [congruence|simpl; lia]).
  destruct (FuAFacts.package_size_bounds Hp) as ((Hq & _) & _). fold n in Hq.
  pose proof (FuAFacts.sizes_left_total Hp) as Htot. cbv zeta in Htot.
  fold p n in Htot.
  apply Forall_map with (f := @length N) (P := fun s => 1 <= s).
  rewrite FuAFacts.chunks_sizes by (fold p; lia).
  unfold sizes_left. apply Forall_app. split;
    apply Forall_forall; intros s Hs; apply repeat_spec in Hs; lia.
Qed.

Lemma packetize_fu_a_short (data : bytes) :
  length data <= 1 -> _packetize_fu_a data = Raise ZeroDivisionError.
Proof.
  intro H. destruct data as [|d0 [|d1 rest]]; [reflexivity|reflexivity|].
  simpl in H. lia.
Qed.

Lemma num_packets_of_one (p : nat) :
  1 <= p <= 1298 -> num_packets_of p = 1.
Proof.
  intros [H1 H2].
  destruct (@FuAFacts.num_packets_of_spec p H1) as ((Hn1 & _) & (Hlo & _) & _).
  lia.
Qed.

End FuAMore.

(** X10.  Fragmenting and depacketizing is the identity behind one start
    code: for a unit longer than [PACKET_MAX], whatever its type, the
    fragmenter returns packets of which [parse] marks the first as a first
    fragment and no other, and the outputs of [h264_depayload], in order
    and concatenated, are [00 00 00 01] followed by the unit. *)
Theorem fu_a_round_trip (nalu : bytes) :
  PACKET_MAX < length nalu ->
  (hd 0%N nalu < 256)%N ->
  exists first others,
    H264Encoder._packetize_fu_a nalu = Ok (first :: others)
    /\ reassemble (first :: others) = Ok (START_CODE ++ nalu)
    /\ (exists o, H264PayloadDescriptor.parse first = Ok (true, o))
    /\ Forall (fun p => exists o, H264PayloadDescriptor.parse p = Ok (false, o))
         others.
Proof.
  intros Hbig Hd0. destruct nalu as [|d0 rest]; [simpl in Hbig; lia|].
  cbn [hd] in Hd0.
  assert (Hrest : rest <> [])
    by (intros ->; simpl in Hbig; unfold PACKET_MAX in Hbig; lia).
  assert (Hp : 1 <= length rest) by (destruct rest; [congruence|simpl; lia]).
  pose proof (FuAFacts.packetize_fu_a_spec d0 Hrest) as Hspec. cbv zeta in Hspec.
  destruct (FuAFacts.num_packets_of_spec Hp) as (_ & (_ & Hn) & _).
  pose proof (FuAFacts.sizes_left_total Hp) as Htot. cbv zeta in Htot.
  set (n := num_packets_of (length rest)) in *.
  set (sizes := sizes_left (length rest / n) n (length rest mod n)) in *.
  assert (Hcs : length (chunks sizes rest) = n).
  { rewrite FuAFacts.chunks_length. unfold sizes, sizes_left.
    rewrite length_app, !repeat_length.
    pose proof (Nat.mod_upper_bound (length rest) n). lia. }
  pose proof (FuAFacts.chunks_concat sizes rest Htot) as Hcat.
  destruct (chunks sizes rest) as [|c1 [|c2 pieces]];
    [simpl in Hcs, Hbig; unfold PACKET_MAX in Hbig; lia
    |simpl in Hcs, Hbig; unfold PACKET_MAX in Hbig; lia|].
  pose proof (DepayloadFacts.reassemble_fragments Hd0 c1 c2 pieces) as Hre.
  rewrite Hcat in Hre.
  fold (fu_indicator d0) (fu_nal d0) in Hspec.
  rewrite FuAFacts.with_fu_headers_cons in Hspec, Hre by discriminate.
  eexists _, _. split; [exact Hspec|]. split; [exact Hre|]. split.
  - cbn [app]. rewrite (@DepayloadFacts.parse_fu_a _ _ _ (DepayloadFacts.indicator_type d0)).
    destruct (DepayloadFacts.start_header_bits d0) as [HS _]. rewrite HS.
    cbn [N.eqb negb]. now eexists.
  - apply FuAMore.with_fu_headers_forall. apply Forall_forall. intros c _.
    cbn [app].
    rewrite !(@DepayloadFacts.parse_fu_a _ _ _ (DepayloadFacts.indicator_type d0)).
    rewrite (DepayloadFacts.middle_header_bits d0),
      (DepayloadFacts.end_header_bits d0).
    cbn [N.eqb negb]. repeat split; now eexists.
Qed.

Lemma fu_a_round_trip_witness :
  exists first others,
    H264Encoder._packetize_fu_a nal_3000 = Ok (first :: others)
    /\ reassemble (first :: others) = Ok (START_CODE ++ nal_3000)
    /\ (exists o, H264PayloadDescriptor.parse first = Ok (true, o))
    /\ Forall (fun p => exists o, H264PayloadDescriptor.parse p = Ok (false, o))
         others.
Proof.
  apply (fu_a_round_trip nal_3000).
  - unfold nal_3000, PACKET_MAX. cbn [length]. rewrite repeat_length. lia.
  - unfold nal_3000. cbn [hd]. lia.
Defined.

(** X11.  Every packet that the fragmenter returns begins with the FU
    indicator [(nalu[0] & 0xE0) | 28], carries the type of the unit in the
    low five bits of its FU header, and has one payload byte at least behind
    the two header bytes. *)
Theorem fu_a_headers (nalu : bytes) (fragments : list bytes) :
  H264Encoder._packetize_fu_a nalu = Ok fragments ->
  Forall (fun p =>
            nth 0 p 0%N = N.lor (N.land (hd 0%N nalu) 0xE0) 28
            /\ N.land (nth 1 p 0%N) 0x1F = N.land (hd 0%N nalu) 0x1F
            /\ 3 <= length p)
    fragments.
Proof.
  intro Hrun. destruct nalu as [|d0 rest]; [discriminate Hrun|].
  assert (Hne : rest <> []) by (intros ->; discriminate Hrun).
  rewrite (FuAFacts.packetize_fu_a_spec d0 Hne) in Hrun.
  injection Hrun as <-. cbn [hd].
  apply FuAMore.with_fu_headers_forall.
  eapply Forall_impl; [|exact (FuAMore.chunks_nonempty Hne)].
  intros c Hc. cbn [app nth length].
  rewrite !N.land_lor_distr_l, <- !N.land_assoc.
  change (N.land 31 31) with 31%N. change (N.land 128 31) with 0%N.
  change (N.land 64 31) with 0%N.
  rewrite !N.lor_0_r.
  cbv beta in Hc. repeat split; try reflexivity; lia.
Qed.

Lemma fu_a_headers_witness :
  exists fragments,
    H264Encoder._packetize_fu_a nal_3000 = Ok fragments
    /\ Forall (fun p =>
                 nth 0 p 0%N = N.lor (N.land (hd 0%N nal_3000) 0xE0) 28
                 /\ N.land (nth 1 p 0%N) 0x1F = N.land (hd 0%N nal_3000) 0x1F
                 /\ 3 <= length p)
         fragments.
Proof.
  destruct (H264Encoder._packetize_fu_a nal_3000) as [fragments| |] eqn:Hrun;
    try (vm_compute in Hrun; discriminate Hrun).
  exists fragments. split; [reflexivity|].
  exact (@fu_a_headers nal_3000 fragments Hrun).
Defined.

(** X12.  The fragmenter outside the range in which the driver calls it: on
    a unit of one byte or none it raises [ZeroDivisionError]; on a unit of 2
    to 1299 bytes it returns one packet, the whole payload behind the end
    header, so that a unit fragmented alone has E set and S clear. *)
Theorem fu_a_small_units :
  (forall data,
      length data <= 1 ->
      H264Encoder._packetize_fu_a data = Raise ZeroDivisionError)
  /\ (forall d0 rest,
        1 <= length rest <= 1298 ->
        H264Encoder._packetize_fu_a (d0 :: rest)
        = Ok [[N.lor (N.land d0 0xE0) 28; N.lor (N.land d0 0x1F) 0x40]
              ++ rest]).
Proof.
  split; [exact FuAMore.packetize_fu_a_short|].
  intros d0 rest Hlen.
  assert (Hne : rest <> []) by (intros ->; simpl in Hlen; lia).
  rewrite (FuAFacts.packetize_fu_a_spec d0 Hne).
  rewrite (FuAMore.num_packets_of_one Hlen).
  rewrite Nat.div_1_r, Nat.mod_1_r.
  unfold sizes_left. cbn [repeat app Nat.sub chunks with_fu_headers].
  now rewrite firstn_all.
Qed.

Lemma fu_a_small_units_witness :
  H264Encoder._packetize_fu_a [0x65]%N = Raise ZeroDivisionError
  /\ H264Encoder._packetize_fu_a [0x65; 0xAA; 0xBB]%N
     = Ok [[0x7C; 0x45; 0xAA; 0xBB]%N].
Proof.
  split.
  - apply (proj1 fu_a_small_units). simpl. lia.
  - apply (proj2 fu_a_small_units 0x65%N [0xAA; 0xBB]%N). simpl. lia.
Defined.

(** ** The aggregator and the driver, further *)

Module StapAMore.
Import H264Encoder.

Lemma entries_size_snoc (group : list bytes) (x : bytes) :
  entries_size (group ++ [x]) = entries_size group + 2 + length x.
Proof.
  induction group as [|nalu group IH].
  - unfold entries_size, LENGTH_FIELD_SIZE. simpl. lia.
  - rewrite <- app_comm_cons, !StapAFacts.entries_size_cons, IH. lia.
Qed.

(** When the loop is left with a unit pending and the counter not zero, the
    pending unit is the first one that did not fit. *)
Lemma stap_a_loop_greedy (it : list bytes) :
  forall nalu avail hdr counter payload hdr' counter' payload' x it',
    stap_a_loop nalu it avail hdr counter payload
    = Ok (hdr', counter', payload', Some x, it') ->
    counter' <> 0 ->
    exists taken,
      nalu :: it = taken ++ x :: it'
      /\ (avail - Z.of_nat (entries_size taken) < Z.of_nat (length x))%Z.
Proof.
  induction it as [|y it IH];
    intros nalu avail hdr counter payload hdr' counter' payload' x it' Hrun Hc;
    cbn [stap_a_loop] in Hrun;
    destruct (Z.of_nat (length nalu) <=? avail)%Z eqn:Hfit.
  - destruct nalu as [|n0 t]; [discriminate|].
    cbn [getitem nth_error bind] in Hrun.
    destruct (pack_H (length (n0 :: t))); discriminate.
  - apply Z.leb_gt in Hfit.
    destruct (counter =? 0) eqn:H0.
    + cbn [next] in Hrun. discriminate.
    + injection Hrun as <- <- <- <- <-. exists []. split; [reflexivity|].
      cbn. lia.
  - destruct nalu as [|n0 t]; [discriminate|].
    cbn [getitem nth_error bind] in Hrun.
    destruct (pack_H (length (n0 :: t))) as [len|e|]; try discriminate.
    cbn [bind] in Hrun.
    destruct (IH _ _ _ _ _ _ _ _ _ _ Hrun Hc) as (taken & Hsplit & Hsize).
    exists ((n0 :: t) :: taken). split; [cbn [app]; now rewrite <- Hsplit|].
    rewrite StapAFacts.entries_size_cons. unfold LENGTH_FIELD_SIZE in Hsize. lia.
  - apply Z.leb_gt in Hfit.
    destruct (counter =? 0) eqn:H0.
    + cbn [next] in Hrun. injection Hrun as <- <- <- <- <-.
      apply Nat.eqb_eq in H0. congruence.
    + injection Hrun as <- <- <- <- <-. exists []. split; [reflexivity|].
      cbn. lia.
Qed.

(** A unit that fits is taken. *)
Lemma stap_a_loop_takes (it : list bytes) (nalu : bytes) (avail : Z)
    (hdr : N) (counter : nat) (payload : bytes)
    (hdr' : N) (counter' : nat) (payload' : bytes)
    (nxt : option bytes) (it' : list bytes) :
  stap_a_loop nalu it avail hdr counter payload
  = Ok (hdr', counter', payload', nxt, it') ->
  (Z.of_nat (length nalu) <= avail)%Z ->
  counter < counter'.
Proof.
  intros Hrun Hfit. apply Z.leb_le in Hfit.
  destruct it as [|y it]; cbn [stap_a_loop] in Hrun; rewrite Hfit in Hrun;
    (destruct nalu as [|n0 t]; [discriminate|]);
    cbn [getitem nth_error bind] in Hrun;
    (destruct (pack_H (length (n0 :: t))) as [len|e|]; try discriminate);
    cbn [bind] in Hrun.
  - injection Hrun as <- <- <- <- <-. lia.
  - apply StapAFacts.stap_a_loop_inv in Hrun.
    destruct Hrun as (taken & rest & _ & Hcount & _). lia.
Qed.

(** The aggregation loop raises nothing but [IndexError], and is never out
    of fuel. *)
Lemma stap_a_loop_failure (it : list bytes) :
  forall nalu avail hdr counter payload,
    (avail < 65536)%Z ->
    (exists st, stap_a_loop nalu it avail hdr counter payload = Ok st)
    \/ stap_a_loop nalu it avail hdr counter payload = Raise IndexError.
Proof.
  induction it as [|y it IH]; intros nalu avail hdr counter payload Havail;
    cbn [stap_a_loop];
    (destruct (Z.of_nat (length nalu) <=? avail)%Z eqn:Hfit;
     [|destruct (counter =? 0); cbn [next]; eauto]);
    apply Z.leb_le in Hfit;
    (destruct nalu as [|n0 t]; [right; reflexivity|]);
    cbn [getitem nth_error bind]; unfold pack_H; cbv zeta;
    (replace (N.of_nat (length (n0 :: t)) <? 65536)%N with true
       by (symmetry; apply N.ltb_lt; lia));
    cbn [bind]; [eauto|].
  apply IH. lia.
Qed.

Lemma packetize_stap_a_failure (data : bytes) (it : list bytes) :
  (exists r, _packetize_stap_a data it = Ok r)
  \/ _packetize_stap_a data it = Raise IndexError.
Proof.
  unfold _packetize_stap_a.
  destruct data as [|d0 t]; [right; reflexivity|].
  cbn [getitem nth_error bind].
  destruct (stap_a_loop_failure it (d0 :: t)
              (avail := (Z.of_nat PACKET_MAX - Z.of_nat STAP_A_HEADER_SIZE)%Z)
              (N.lor NAL_TYPE_STAP_A (N.land d0 224)) 0 [])
    as [[[[[[hdr counter] payload] nxt] it'] Hloop]|Hloop];
    [unfold PACKET_MAX, STAP_A_HEADER_SIZE; simpl; lia| |].
  - rewrite Hloop. cbn [bind]. left. destruct (counter <=? 1); eauto.
  - rewrite Hloop. right. reflexivity.
Qed.

(** The driver raises [IndexError] when an empty unit is in front of it. *)
Lemma packetize_loop_empty_unit (fuel : nat) :
  forall package it out,
    Exists (fun n => n = []) (pending package it) ->
    (package = None -> it = []) ->
    length (pending package it) <= fuel ->
    packetize_loop fuel package it out = Raise IndexError.
Proof.
  induction fuel as [|fuel IH]; intros package it out Hex Hwf Hfuel.
  - destruct package as [p|]; [simpl in Hfuel; lia|].
    rewrite (Hwf eq_refl) in Hex. inversion Hex.
  - destruct package as [p|];
      [|rewrite (Hwf eq_refl) in Hex; inversion Hex].
    cbn [pending] in Hex, Hfuel. cbn [packetize_loop].
    destruct (PACKET_MAX <? length p) eqn:Hbig.
    + apply Nat.ltb_lt in Hbig.
      destruct p as [|d0 rest]; [simpl in Hbig; lia|].
      assert (Hrest : rest <> [])
        by (intros ->; simpl in Hbig; unfold PACKET_MAX in Hbig; lia).
      rewrite (FuAFacts.packetize_fu_a_spec d0 Hrest). cbn [bind].
      destruct (DriverFacts.next_or_none_pending it) as [Hpend Hnone].
      destruct (next_or_none it) as [package' it2].
      cbn [fst snd] in Hpend, Hnone.
      apply IH; [|exact Hnone|rewrite Hpend; simpl in Hfuel; lia].
      rewrite Hpend. inversion Hex as [? ? Hp|? ? Hit]; subst;
        [discriminate|exact Hit].
    + destruct (packetize_stap_a_failure p it) as [[[[pkt nxt] it'] Hstap]|Hstap];
        rewrite Hstap; [|reflexivity].
      cbn [bind].
      apply StapAFacts.packetize_stap_a_inv in Hstap.
      destruct Hstap as (Hp & Hcases & Hnone).
      assert (Hit : Exists (fun n : bytes => n = []) it)
        by (inversion Hex; subst; [congruence|assumption]).
      apply IH; [|exact Hnone|].
      * destruct Hcases as [[_ ->]|(group & rest & _ & Hsplit & -> & _ & Hall & _)];
          [exact Hit|].
        rewrite Hsplit in Hex. apply Exists_app in Hex.
        destruct Hex as [Hg|Hr]; [|exact Hr].
        exfalso. apply Exists_exists in Hg. destruct Hg as (n & Hin & ->).
        rewrite Forall_forall in Hall. now apply (Hall [] Hin).
      * destruct Hcases as [[_ ->]|(group & rest & Hlen & Hsplit & -> & _)];
          [simpl in Hfuel; lia|].
        apply (f_equal (@length bytes)) in Hsplit.
        rewrite length_app in Hsplit. simpl in Hsplit, Hfuel. lia.
Qed.

End StapAMore.

(** X13.  Aggregating and depacketizing: a STAP-A packet that the aggregator
    returns is parsed, with [first_fragment] set, to the Annex B stream of
    the units it aggregates, that is the first units in front of the
    aggregator, each behind [00 00 00 01] and in order. *)
Theorem stap_a_round_trip (data : bytes) (it : list bytes)
    (pkt : bytes) (nxt : option bytes) (it' : list bytes) :
  H264Encoder._packetize_stap_a data it = Ok (pkt, nxt, it') ->
  (pkt = data /\ pending nxt it' = it)
  \/ (exists group rest,
        2 <= length group
        /\ data :: it = group ++ rest
        /\ pending nxt it' = rest
        /\ H264PayloadDescriptor.parse pkt = Ok (true, annex_b group)).
Proof.
  intro Hrun. apply StapAFacts.packetize_stap_a_inv in Hrun.
  destruct Hrun as (_ & [Hverb|(group & rest & Hlen & Hsplit & Hp & -> & _ & _)] & _).
  - left. exact Hverb.
  - right. exists group, rest. repeat (split; [assumption|]).
    apply DepayloadFacts.parse_stap_a_packet.
    intros ->. simpl in Hlen. lia.
Qed.

Lemma stap_a_round_trip_witness :
  ([0x78; 0x00; 0x02; 0x67; 0xAA; 0x00; 0x02; 0x68; 0xBB]%N = [0x67; 0xAA]%N
   /\ pending None [] = [[0x68; 0xBB]%N])
  \/ (exists group rest,
        2 <= length group
        /\ [0x67; 0xAA]%N :: [[0x68; 0xBB]%N] = group ++ rest
        /\ pending None [] = rest
        /\ H264PayloadDescriptor.parse
             [0x78; 0x00; 0x02; 0x67; 0xAA; 0x00; 0x02; 0x68; 0xBB]%N
           = Ok (true, annex_b group)).
Proof.
  apply (@stap_a_round_trip [0x67; 0xAA]%N [[0x68; 0xBB]%N]).
  reflexivity.
Defined.

(** X14.  The aggregator fills greedily: when it is called on a unit that
    fits ([len(data) <= PACKET_MAX - 3]) and returns with a unit pending,
    the units it covers (one, returned verbatim, or several, aggregated)
    are the units in front of the pending one, and the STAP-A packet of
    these units and the pending one would exceed [PACKET_MAX]. *)
Theorem stap_a_greedy (data : bytes) (it : list bytes)
    (pkt x : bytes) (it' : list bytes) :
  H264Encoder._packetize_stap_a data it = Ok (pkt, Some x, it') ->
  length data <= PACKET_MAX - STAP_A_HEADER_SIZE ->
  exists group,
    data :: it = group ++ x :: it'
    /\ ((group = [data] /\ pkt = data)
        \/ (2 <= length group /\ pkt = stap_a_packet group))
    /\ PACKET_MAX < length (stap_a_packet (group ++ [x])).
Proof.
  intros Hrun Hfit.
  pose proof (StapAFacts.packetize_stap_a_inv _ _ Hrun) as (_ & Hcases & _).
  unfold H264Encoder._packetize_stap_a in Hrun.
  destruct data as [|d0 t]; [discriminate|].
  cbn [getitem nth_error bind] in Hrun.
  destruct (H264Encoder.stap_a_loop (d0 :: t) it _ _ 0 [])
    as [[[[[hdr counter] payload] nxt0] it0]|e|] eqn:Hloop;
    [|discriminate|discriminate].
  cbn [bind] in Hrun.
  assert (Hnxt : nxt0 = Some x /\ it0 = it')
    by (destruct (counter <=? 1); injection Hrun as _ -> ->; auto).
  destruct Hnxt as [-> ->].
  assert (Hc : 0 < counter).
  { eapply StapAMore.stap_a_loop_takes; [exact Hloop|].
    unfold PACKET_MAX, STAP_A_HEADER_SIZE, NAL_HEADER_SIZE, LENGTH_FIELD_SIZE in *.
    simpl in Hfit |- *. lia. }
  assert (Hg : exists taken,
             (d0 :: t) :: it = taken ++ x :: it'
             /\ (Z.of_nat PACKET_MAX - Z.of_nat STAP_A_HEADER_SIZE
                 - Z.of_nat (entries_size taken) < Z.of_nat (length x))%Z)
    by (eapply StapAMore.stap_a_loop_greedy; [exact Hloop|lia]).
  destruct Hg as (taken & Hsplit & Hsize).
  exists taken. split; [exact Hsplit|]. split.
  - destruct Hcases as [[-> Hp]|(group & rest & Hlen & Hsplit' & Hp & -> & _)];
      cbn [pending] in Hp.
    + left. split; [|reflexivity]. subst it.
      assert (E : [d0 :: t] ++ x :: it' = taken ++ x :: it') by exact Hsplit.
      apply app_inv_tail in E. now symmetry.
    + right. subst rest.
      assert (E : group ++ x :: it' = taken ++ x :: it')
        by (etransitivity; [symmetry; exact Hsplit'|exact Hsplit]).
      apply app_inv_tail in E. subst taken. split; [exact Hlen|reflexivity].
  - unfold stap_a_packet. cbn [length].
    rewrite DriverFacts.stap_a_body_length, StapAMore.entries_size_snoc.
    change (Z.of_nat PACKET_MAX - Z.of_nat STAP_A_HEADER_SIZE)%Z
      with 1297%Z in Hsize.
    unfold PACKET_MAX. lia.
Qed.

Lemma stap_a_greedy_witness :
  exists group,
    [0x67; 0xAA]%N :: [[0x68; 0xBB]%N; repeat 0x41%N 1290]
    = group ++ repeat 0x41%N 1290 :: []
    /\ ((group = [[0x67; 0xAA]%N]
         /\ [0x78; 0x00; 0x02; 0x67; 0xAA; 0x00; 0x02; 0x68; 0xBB]%N
            = [0x67; 0xAA]%N)
        \/ (2 <= length group
            /\ [0x78; 0x00; 0x02; 0x67; 0xAA; 0x00; 0x02; 0x68; 0xBB]%N
               = stap_a_packet group))
    /\ PACKET_MAX < length (stap_a_packet (group ++ [repeat 0x41%N 1290])).
Proof.
  apply (@stap_a_greedy [0x67; 0xAA]%N [[0x68; 0xBB]%N; repeat 0x41%N 1290]).
  - vm_compute. reflexivity.
  - vm_compute. lia.
Defined.

(** X15.  The driver returns exactly on the sequences without an empty
    unit: it returns a list of payloads when every unit has a byte, and
    raises [IndexError] when some unit is empty; it neither runs for ever
    nor fails the assertion of the fragmenter. *)
Theorem packetize_returns_iff_no_empty_unit (packages : list bytes) :
  (Forall (fun nalu => nalu <> []) packages ->
   exists out, H264Encoder._packetize packages = Ok out)
  /\ (Exists (fun nalu => nalu = []) packages ->
      H264Encoder._packetize packages = Raise IndexError).
Proof.
  split; [apply DepayloadFacts.packetize_total|].
  intro Hex. unfold H264Encoder._packetize.
  destruct (DriverFacts.next_or_none_pending packages) as [Hpend Hnone].
  destruct (H264Encoder.next_or_none packages) as [package it].
  cbn [fst snd] in Hpend, Hnone.
  apply StapAMore.packetize_loop_empty_unit;
    [now rewrite Hpend|exact Hnone|rewrite Hpend; lia].
Qed.

Lemma packetize_returns_iff_no_empty_unit_witness :
  (exists out,
      H264Encoder._packetize [[0x67; 0xAA]%N; [0x68; 0xBB]%N] = Ok out)
  /\ H264Encoder._packetize [[0x67; 0xAA]%N; []; [0x68; 0xBB]%N]
     = Raise IndexError.
Proof.
  split.
  - apply (proj1 (packetize_returns_iff_no_empty_unit
                    [[0x67; 0xAA]%N; [0x68; 0xBB]%N])).
    repeat constructor; discriminate.
  - apply (proj2 (packetize_returns_iff_no_empty_unit
                    [[0x67; 0xAA]%N; []; [0x68; 0xBB]%N])).
    apply Exists_cons_tl. apply Exists_cons_hd. reflexivity.
Defined.

(** X16.  Packetizing and depacketizing compose to the Annex B stream: for
    every sequence of units that have a header byte of type 1..23 and one
    byte more at least, the driver returns payloads, of at most
    [PACKET_MAX] bytes each, from which [h264_depayload], applied in order
    with its outputs concatenated, gives every unit behind [00 00 00 01],
    in the order of the sequence. *)
Theorem packetize_depayload (nalus : list bytes) :
  Forall single_nal nalus ->
  Forall wf_bytes nalus ->
  exists payloads,
    H264Encoder._packetize nalus = Ok payloads
    /\ Forall (fun p => length p <= PACKET_MAX) payloads
    /\ reassemble payloads = Ok (annex_b nalus).
Proof.
  intros Hsingle Hwf.
  assert (Hne : Forall (fun n : bytes => n <> []) nalus).
  { eapply Forall_impl; [|exact Hsingle].
    intros n [Hlen _] ->. simpl in Hlen. lia. }
  destruct (DepayloadFacts.packetize_total Hne) as [payloads Hpack].
  exists payloads. split; [exact Hpack|].
  apply DriverFacts.packetize_inv in Hpack. split.
  - induction Hpack as [|group payloads rest out Hemit Hrest IH];
      [constructor|].
    apply Forall_app in Hsingle, Hwf, Hne.
    apply Forall_app. split; [|apply IH; tauto].
    now apply (@DriverFacts.emission_size_bound group).
  - now apply DepayloadFacts.reassemble_packetization.
Qed.

Lemma packetize_depayload_witness :
  exists payloads,
    H264Encoder._packetize [nal_3000; [0x67; 0xAA]%N; [0x68; 0xBB]%N]
    = Ok payloads
    /\ Forall (fun p => length p <= PACKET_MAX) payloads
    /\ reassemble payloads
       = Ok (annex_b [nal_3000; [0x67; 0xAA]%N; [0x68; 0xBB]%N]).
Proof.
  assert (Hs : forall n, (2 <=? length n) = true ->
                 ((1 <=? nal_type_of (hd 0%N n))%N
                  && (nal_type_of (hd 0%N n) <? 24)%N) = true ->
                 single_nal n).
  { intros n Hl Ht. apply Nat.leb_le in Hl. apply andb_true_iff in Ht.
    rewrite N.leb_le, N.ltb_lt in Ht. split; assumption. }
  apply (@packetize_depayload [nal_3000; [0x67; 0xAA]%N; [0x68; 0xBB]%N]).
  - constructor; [apply Hs; vm_compute; reflexivity|].
    constructor; [apply Hs; vm_compute; reflexivity|].
    constructor; [apply Hs; vm_compute; reflexivity|].
    constructor.
  - constructor; [apply wf_bytes_forallb; vm_compute; reflexivity|].
    constructor; [apply wf_bytes_forallb; vm_compute; reflexivity|].
    constructor; [apply wf_bytes_forallb; vm_compute; reflexivity|].
    constructor.
Defined.

(** ** The pass-through [encode] *)

Module PullFacts.

(** Over a generator that returns, the pull-based functions are those over
    the list of what it yields. *)
Lemma stap_a_loop_returned (items : list bytes) :
  forall nalu avail hdr counter payload,
    Pull.stap_a_loop nalu items Returned avail hdr counter payload
    = over_returned
        (H264Encoder.stap_a_loop nalu items avail hdr counter payload).
Proof.
  induction items as [|y items IH]; intros nalu avail hdr counter payload;
    cbn [Pull.stap_a_loop H264Encoder.stap_a_loop];
    (destruct (Z.of_nat (length nalu) <=? avail)%Z;
     [|destruct (counter =? 0); reflexivity]);
    (destruct (getitem nalu 0) as [n0|e|]; cbn [bind over_returned];
     try reflexivity);
    (destruct (pack_H (length nalu)) as [len|e|]; cbn [bind over_returned];
     try reflexivity).
  apply IH.
Qed.

Lemma packetize_stap_a_returned (data : bytes) (items : list bytes) :
  Pull._packetize_stap_a data (items, Returned)
  = over_returned (H264Encoder._packetize_stap_a data items).
Proof.
  unfold Pull._packetize_stap_a, H264Encoder._packetize_stap_a.
  destruct (getitem data 0) as [d0|e|]; cbn [bind over_returned fst snd];
    try reflexivity.
  rewrite stap_a_loop_returned.
  destruct (H264Encoder.stap_a_loop data items _ _ 0 [])
    as [[[[[hdr counter] payload] nxt] it]|e|];
    cbn [bind over_returned]; try reflexivity.
  destruct (counter <=? 1); reflexivity.
Qed.

Lemma packetize_loop_returned (fuel : nat) :
  forall package items out,
    Pull.packetize_loop fuel package (items, Returned) out
    = H264Encoder.packetize_loop fuel package items out.
Proof.
  induction fuel as [|fuel IH]; intros package items out;
    destruct package as [p|]; try reflexivity.
  cbn [Pull.packetize_loop H264Encoder.packetize_loop].
  destruct (PACKET_MAX <? length p).
  - destruct (H264Encoder._packetize_fu_a p) as [frags|e|]; cbn [bind];
      try reflexivity.
    destruct items as [|x items]; cbn; apply IH.
  - rewrite packetize_stap_a_returned.
    destruct (H264Encoder._packetize_stap_a p items) as [[[pkt nxt] it]|e|];
      cbn [bind over_returned]; try reflexivity.
    apply IH.
Qed.

Lemma packetize_returned (items : list bytes) :
  Pull._packetize (items, Returned) = H264Encoder._packetize items.
Proof.
  unfold Pull._packetize, H264Encoder._packetize, Pull.next_or_none,
    H264Encoder.next_or_none.
  destruct items as [|x items]; cbn [Pull.next next bind fst];
    [reflexivity|apply packetize_loop_returned].
Qed.

(** The loop hands the generator on with its end, and sees
    [StopIteration] only from a generator that returns. *)
Lemma stap_a_loop_end (items : list bytes) (stop : gen_end) :
  forall nalu avail hdr counter payload hdr' counter' payload' nxt g',
    Pull.stap_a_loop nalu items stop avail hdr counter payload
    = Ok (hdr', counter', payload', nxt, g') ->
    snd g' = stop /\ (nxt = None -> stop = Returned).
Proof.
  induction items as [|y items IH];
    intros nalu avail hdr counter payload hdr' counter' payload' nxt g' Hrun;
    cbn [Pull.stap_a_loop] in Hrun;
    (destruct (Z.of_nat (length nalu) <=? avail)%Z;
     [destruct (getitem nalu 0) as [n0|e|]; cbn [bind] in Hrun;
        try discriminate;
      destruct (pack_H (length nalu)) as [len|e|]; cbn [bind] in Hrun;
        try discriminate
     |destruct (counter =? 0);
        [|injection Hrun as <- <- <- <- <-; split; [reflexivity|discriminate]]]).
  - destruct stop; cbn in Hrun; try discriminate.
    injection Hrun as <- <- <- <- <-. split; reflexivity.
  - destruct stop; cbn in Hrun; try discriminate.
    injection Hrun as <- <- <- <- <-. split; reflexivity.
  - exact (IH _ _ _ _ _ _ _ _ _ _ Hrun).
  - cbn in Hrun. injection Hrun as <- <- <- <- <-.
    split; [reflexivity|discriminate].
Qed.

Lemma packetize_stap_a_end (data : bytes) (g : generated)
    (pkt : bytes) (nxt : option bytes) (g' : generated) :
  Pull._packetize_stap_a data g = Ok (pkt, nxt, g') ->
  snd g' = snd g /\ (nxt = None -> snd g = Returned).
Proof.
  unfold Pull._packetize_stap_a. intro Hrun.
  destruct (getitem data 0) as [d0|e|]; cbn [bind] in Hrun; try discriminate.
  destruct (Pull.stap_a_loop data (fst g) (snd g) _ _ 0 [])
    as [[[[[hdr counter] payload] nxt0] g0]|e|] eqn:Hloop;
    cbn [bind] in Hrun; try discriminate.
  apply stap_a_loop_end in Hloop.
  destruct (counter <=? 1); injection Hrun as _ <- <-; exact Hloop.
Qed.

Lemma next_or_none_end (g : generated) (package : option bytes)
    (g' : generated) :
  Pull.next_or_none g = Ok (package, g') ->
  snd g' = snd g /\ (package = None -> snd g = Returned).
Proof.
  destruct g as [[|x items] stop]; unfold Pull.next_or_none; cbn [Pull.next].
  - destruct stop; cbn [bind]; try discriminate.
    intro H. injection H as <- <-. split; reflexivity.
  - cbn [bind]. intro H. injection H as <- <-.
    split; [reflexivity|discriminate].
Qed.

Lemma packetize_loop_end (fuel : nat) :
  forall package g out res,
    Pull.packetize_loop fuel package g out = Ok res ->
    (package = None -> snd g = Returned) ->
    snd g = Returned.
Proof.
  induction fuel as [|fuel IH]; intros package g out res Hrun Hwf;
    destruct package as [p|]; try discriminate; auto.
  cbn [Pull.packetize_loop] in Hrun.
  destruct (PACKET_MAX <? length p).
  - destruct (H264Encoder._packetize_fu_a p) as [frags|e|];
      cbn [bind] in Hrun; try discriminate.
    destruct (Pull.next_or_none g) as [[package' g']|e|] eqn:Hnext;
      cbn [bind] in Hrun; try discriminate.
    apply next_or_none_end in Hnext. destruct Hnext as [Hend Hnone].
    rewrite <- Hend. apply (IH _ _ _ _ Hrun). rewrite Hend. exact Hnone.
  - destruct (Pull._packetize_stap_a p g) as [[[pkt nxt] g']|e|] eqn:Hstap;
      cbn [bind] in Hrun; try discriminate.
    apply packetize_stap_a_end in Hstap. destruct Hstap as [Hend Hnone].
    rewrite <- Hend. apply (IH _ _ _ _ Hrun). rewrite Hend. exact Hnone.
Qed.

(** [_packetize] returns only on a generator that returns. *)
Lemma packetize_ok_returned (g : generated) (out : list bytes) :
  Pull._packetize g = Ok out -> snd g = Returned.
Proof.
  unfold Pull._packetize. intro Hrun.
  destruct (Pull.next_or_none g) as [[package g']|e|] eqn:Hnext;
    cbn [bind] in Hrun; try discriminate.
  apply next_or_none_end in Hnext. destruct Hnext as [Hend Hnone].
  rewrite <- Hend. eapply packetize_loop_end; [exact Hrun|].
  rewrite Hend. exact Hnone.
Qed.

Lemma well_framed_length (units : list (bytes * bytes)) :
  units <> [] -> Forall well_framed units -> 4 <= length (framed units).
Proof.
  intros Hne Hall. destruct units as [|[c nalu] units]; [congruence|].
  inversion Hall as [|? ? [Hc [Hn _]] _]; subst. cbn [fst snd] in Hc, Hn.
  rewrite FramedFacts.framed_cons, !length_app.
  destruct nalu; [congruence|].
  destruct Hc as [-> | ->]; simpl; lia.
Qed.

End PullFacts.

(** X17.  The payload list of the pass-through [encode] is never computed
    on a frame of fewer than four bytes: [_packetize] asks the generator of
    [_encode_frame] for its first unit and the scanner goes round its loop
    for ever, whatever [force_keyframe]. *)
Theorem packer_encode_short_frame (fuel : nat) (frame : bytes)
    (force_keyframe : bool) :
  length frame < 4 ->
  PackerEncode.encode_payloads fuel frame force_keyframe = OutOfFuel.
Proof.
  intro Hshort.
  unfold PackerEncode.encode_payloads, PackerEncode._encode_frame,
    H264Packer._split_bitstream.
  now rewrite ScannerFacts.packer_split_loop_short.
Qed.

Lemma packer_encode_short_frame_witness :
  PackerEncode.encode_payloads 1000 [] false = OutOfFuel.
Proof.
  apply (@packer_encode_short_frame 1000 [] false). simpl. lia.
Defined.

(** X18.  When [_packetize] on the generator of [_encode_frame], as the
    pass-through [encode] evaluates it, returns payloads, the scanner has
    returned on the frame, the payloads are those of the driver on the
    units it yielded, and none exceeds [PACKET_MAX]: an exception of the
    scanner is never swallowed into a shorter list of payloads. *)
Theorem packer_encode_returns (fuel : nat) (frame : bytes)
    (force_keyframe : bool) (payloads : list bytes) :
  PackerEncode.encode_payloads fuel frame force_keyframe = Ok payloads ->
  exists nalus,
    H264Packer._split_bitstream fuel frame = (nalus, Returned)
    /\ H264Encoder._packetize nalus = Ok payloads
    /\ Forall (fun p => length p <= PACKET_MAX) payloads.
Proof.
  unfold PackerEncode.encode_payloads, PackerEncode._encode_frame.
  intro Hrun.
  pose proof (PullFacts.packetize_ok_returned _ Hrun) as Hend.
  destruct (H264Packer._split_bitstream fuel frame) as [nalus stop].
  cbn [snd] in Hend. subst stop.
  rewrite PullFacts.packetize_returned in Hrun.
  exists nalus. split; [reflexivity|]. split; [exact Hrun|].
  apply DriverFacts.packetize_inv in Hrun.
  induction Hrun as [|group pl rest out Hemit Hrest IH]; [constructor|].
  apply Forall_app. split; [|exact IH].
  now apply (@DriverFacts.emission_size_bound group).
Qed.

Lemma packer_encode_returns_witness :
  exists nalus,
    H264Packer._split_bitstream 13
      [0; 0; 0; 1; 0x67; 0xAA; 0; 0; 0; 1; 0x68; 0xBB]%N
    = (nalus, Returned)
    /\ H264Encoder._packetize nalus
       = Ok [[0x78; 0x00; 0x02; 0x67; 0xAA; 0x00; 0x02; 0x68; 0xBB]%N]
    /\ Forall (fun p => length p <= PACKET_MAX)
         [[0x78; 0x00; 0x02; 0x67; 0xAA; 0x00; 0x02; 0x68; 0xBB]%N].
Proof.
  apply (@packer_encode_returns 13
           [0; 0; 0; 1; 0x67; 0xAA; 0; 0; 0; 1; 0x68; 0xBB]%N false).
  reflexivity.
Defined.

(** X19.  The payloads of the pass-through [encode] end to end: on a frame
    made of units behind start codes of three or four bytes, each unit
    delimitable by the scanner and with a header byte of type 1..23 and one
    byte more at least, [_packetize] on the generator of [_encode_frame]
    returns payloads of at most [PACKET_MAX] bytes from which
    [h264_depayload], applied in order with its outputs concatenated, gives
    the units of the frame, in order, each behind [00 00 00 01]. *)
Theorem packer_encode_round_trip (units : list (bytes * bytes))
    (force_keyframe : bool) :
  units <> [] ->
  Forall well_framed units ->
  Forall single_nal (map snd units) ->
  Forall wf_bytes (map snd units) ->
  exists payloads,
    PackerEncode.encode_payloads (S (length (framed units))) (framed units)
      force_keyframe
    = Ok payloads
    /\ Forall (fun p => length p <= PACKET_MAX) payloads
    /\ reassemble payloads = Ok (annex_b (map snd units)).
Proof.
  intros Hne Hframed Hsingle Hwf.
  unfold PackerEncode.encode_payloads, PackerEncode._encode_frame.
  destruct (@TerminationFacts.packer_split_bitstream_stops _
              (PullFacts.well_framed_length Hne Hframed)) as [Hpacker _].
  unfold H264Packer._split_bitstream in Hpacker |- *. rewrite Hpacker.
  unfold H264Encoder._split_bitstream.
  rewrite (FramedFacts.split_loop_framed Hne Hframed [])
    by (pose proof (FramedFacts.framed_length Hframed); simpl; lia).
  rewrite PullFacts.packetize_returned.
  assert (Hnonempty : Forall (fun n : bytes => n <> []) (map snd units)).
  { eapply Forall_impl; [|exact Hsingle].
    intros n [Hlen _] ->. simpl in Hlen. lia. }
  destruct (DepayloadFacts.packetize_total Hnonempty) as [payloads Hpack].
  exists payloads. split; [exact Hpack|].
  apply DriverFacts.packetize_inv in Hpack. split.
  - clear Hsingle Hwf Hnonempty.
    induction Hpack as [|group pl rest out Hemit Hrest IH]; [constructor|].
    apply Forall_app. split; [|exact IH].
    now apply (@DriverFacts.emission_size_bound group).
  - now apply DepayloadFacts.reassemble_packetization.
Qed.

Lemma packer_encode_round_trip_witness :
  exists payloads,
    PackerEncode.encode_payloads
      (S (length (framed [(START_CODE_3, [0x67; 0x42; 0x00; 0x1E]%N);
                          (START_CODE, [0x68; 0xBB]%N)])))
      (framed [(START_CODE_3, [0x67; 0x42; 0x00; 0x1E]%N);
               (START_CODE, [0x68; 0xBB]%N)])
      true
    = Ok payloads
    /\ Forall (fun p => length p <= PACKET_MAX) payloads
    /\ reassemble payloads
       = Ok (annex_b (map snd [(START_CODE_3, [0x67; 0x42; 0x00; 0x1E]%N);
                               (START_CODE, [0x68; 0xBB]%N)])).
Proof.
  assert (Hs : forall n, (2 <=? length n) = true ->
                 ((1 <=? nal_type_of (hd 0%N n))%N
                  && (nal_type_of (hd 0%N n) <? 24)%N) = true ->
                 single_nal n).
  { intros n Hl Ht. apply Nat.leb_le in Hl. apply andb_true_iff in Ht.
    rewrite N.leb_le, N.ltb_lt in Ht. split; assumption. }
  apply (@packer_encode_round_trip
           [(START_CODE_3, [0x67; 0x42; 0x00; 0x1E]%N);
            (START_CODE, [0x68; 0xBB]%N)] true).
  - discriminate.
  - repeat constructor; try discriminate;
      try (now left); try (now right);
      apply ScannerFacts.infixb_false; reflexivity.
  - constructor; [apply Hs; reflexivity|].
    constructor; [apply Hs; reflexivity|]. constructor.
  - constructor; [apply wf_bytes_forallb; reflexivity|].
    constructor; [apply wf_bytes_forallb; reflexivity|]. constructor.
Defined.
